(** * DataFlow Studio: connector registry and pipeline engine

    A shallow embedding of the Go backend (packages [connectors] and
    [pipeline]) together with the properties of its registry, pipeline
    store and execution engine.

    Conventions of the embedding.
    - Go's [error] is [option string]: [None] is [nil], [Some msg] is an
      error whose [Error()] is [msg].
    - Go's [int] is [Z]; the only arithmetic is [i + 1] and [counter++]
      on values bounded by the sample size, far from the 64-bit limit.
    - [map[string]T] is [gmap string T]; reading an absent key of a
      [map[string]string] gives the empty string.
    - An interface value is the record of its methods, closed over the
      receiver.
    - Goroutines and unbuffered channels are a transition system whose
      actions are chosen by a schedule; a [select] with several ready
      cases may take any of them.
    - The reader/writer mutex of the service is not modelled: every
      operation on the store is one atomic state transformer.

    The repository holds each package twice. Package [connectors] exists
    with one struct type per connector (module [typed]) and with the
    generic [simpleSource] and [simpleDestination] (module [simple]); what
    the two share is in module [connectors]. Package [pipeline] exists
    with a service built from the helpers [validatePipelineName],
    [connectorsFor], [newResult] and [finish] (module [refactored]) and
    with a service that has its checks inline (module [inline]); its
    shared types and [Tee] are in module [pipeline]. Properties are stated
    for both copies wherever both have them. *)

From Stdlib Require Import ZArith String Ascii List DecimalString Lia.
From Stdlib Require Import OrderedTypeEx Sorted Permutation.
From stdpp Require Import gmap strings list fin_maps.

Local Open Scope string_scope.
Local Open Scope Z_scope.

Set Warnings "-clear-no-such-hyp".

(** ** The pieces of the Go standard library the code relies on *)

Module Go.

Definition error : Type := option string.

(** A [(T, error)] result: exactly one side is meaningful. *)
Inductive res (A : Type) : Type :=
| Ok (a : A)
| Err (msg : string).
Arguments Ok {A} a.
Arguments Err {A} msg.

(** [fmt.Sprintf("%d", z)] *)
Definition fmt_d (z : Z) : string := NilZero.string_of_int (Z.to_int z).

(** [time.Time]: the zero value, or an instant read from the clock. *)
Inductive Time : Type :=
| TimeZero
| TimeAt (ns : Z).

Definition time_Now (clock : Z) : Time := TimeAt clock.

(** [context.Context]: why a context ended, and [ctx.Err()]. *)
Inductive Cause : Type :=
| Canceled
| DeadlineExceeded.

Definition Cause_Error (c : Cause) : string :=
  match c with
  | Canceled => "context canceled"
  | DeadlineExceeded => "context deadline exceeded"
  end.

(** [None] while the context is live, [Some c] once [ctx.Done()] is closed. *)
Definition Context : Type := option Cause.

(** *** [strings.TrimSpace] on UTF-8 bytes

    [space_rune_len s] is the number of bytes of the white space rune
    that [s] starts with ([unicode.IsSpace]), and [0] when [s] does not
    start with one. *)

Definition byte_in (c : ascii) (lo hi : N) : bool :=
  ((lo <=? N_of_ascii c) && (N_of_ascii c <=? hi))%N.

Definition byte_is (c : ascii) (b : N) : bool := (N_of_ascii c =? b)%N.

Definition space_rune_len (s : string) : nat :=
  match s with
  | String c0 rest =>
    if byte_in c0 9 13 || byte_is c0 32 then 1%nat
    else match rest with
    | String c1 rest1 =>
      if byte_is c0 194 && (byte_is c1 133 || byte_is c1 160) then 2%nat
      else match rest1 with
      | String c2 _ =>
        if byte_is c0 225 && byte_is c1 154 && byte_is c2 128 then 3%nat
        else if byte_is c0 226 && byte_is c1 128
                && (byte_in c2 128 138 || byte_is c2 168 || byte_is c2 169
                    || byte_is c2 175) then 3%nat
        else if byte_is c0 226 && byte_is c1 129 && byte_is c2 159 then 3%nat
        else if byte_is c0 227 && byte_is c1 128 && byte_is c2 128 then 3%nat
        else 0%nat
      | EmptyString => 0%nat
      end
    | EmptyString => 0%nat
    end
  | EmptyString => 0%nat
  end.

(** [skip] bytes of the current white space rune are still to be dropped. *)
Fixpoint trim_left (skip : nat) (s : string) : string :=
  match s with
  | EmptyString => EmptyString
  | String _ rest =>
    match skip with
    | S k => trim_left k rest
    | O =>
      match space_rune_len s with
      | O => s
      | S k => trim_left k rest
      end
    end
  end.

Fixpoint all_space (skip : nat) (s : string) : bool :=
  match s with
  | EmptyString => true
  | String _ rest =>
    match skip with
    | S k => all_space k rest
    | O =>
      match space_rune_len s with
      | O => false
      | S k => all_space k rest
      end
    end
  end.

Fixpoint trim_right (s : string) : string :=
  match s with
  | EmptyString => EmptyString
  | String c rest => if all_space 0 s then EmptyString else String c (trim_right rest)
  end.

Definition strings_TrimSpace (s : string) : string := trim_right (trim_left 0 s).

(** [strings.TrimPrefix(s, prefix)]: [s] without the leading [prefix], or
    [s] itself when it does not start with [prefix]. *)
Fixpoint strip_prefix (prefix s : string) : option string :=
  match prefix with
  | EmptyString => Some s
  | String p prefix' =>
    match s with
    | String c s' => if Ascii.eqb p c then strip_prefix prefix' s' else None
    | EmptyString => None
    end
  end.

Definition strings_TrimPrefix (s prefix : string) : string :=
  match strip_prefix prefix s with
  | Some rest => rest
  | None => s
  end.

(** [strings.Split(s, sep)] for a separator of one byte: the substrings
    between the occurrences of [sep]; one more than there are occurrences. *)
Fixpoint strings_Split (s : string) (sep : ascii) : list string :=
  match s with
  | EmptyString => [EmptyString]
  | String c rest =>
    if Ascii.eqb c sep then EmptyString :: strings_Split rest sep
    else
      match strings_Split rest sep with
      | first :: others => String c first :: others
      | [] => [String c EmptyString]
      end
  end.

(** *** [path.Clean] and the [cleanPath] of [net/http]

    [path.Clean] on a rooted path, element by element: an empty element
    (a repeated or trailing slash) and [.] are dropped; [..] drops the
    element kept last, and nothing at the root. *)
Definition clean_step (kept : list string) (elem : string) : list string :=
  if String.eqb elem "" || String.eqb elem "." then kept
  else if String.eqb elem ".." then removelast kept
  else (kept ++ [elem])%list.

Fixpoint join_rooted (elems : list string) : string :=
  match elems with
  | [] => EmptyString
  | elem :: rest => String "/" (elem ++ join_rooted rest)
  end.

(** [path.Clean(p)] for a [p] that starts with a slash. *)
Definition path_Clean (p : string) : string :=
  match foldl clean_step [] (strings_Split p "/") with
  | [] => "/"
  | elems => join_rooted elems
  end.

(** [s[len(s)-1] == c] *)
Fixpoint ends_with (c : ascii) (s : string) : bool :=
  match s with
  | EmptyString => false
  | String b rest =>
    match rest with
    | EmptyString => Ascii.eqb b c
    | String _ _ => ends_with c rest
    end
  end.

(** [cleanPath(p)] of [net/http]: the canonical form of a request path.
    The path is made rooted and cleaned, and a trailing slash is kept. *)
Definition cleanPath (p : string) : string :=
  match p with
  | EmptyString => "/"
  | String c _ =>
    let rooted := if Ascii.eqb c "/" then p else String "/" p in
    let np := path_Clean rooted in
    if ends_with "/" rooted && negb (String.eqb np "/") then np ++ "/" else np
  end.

End Go.

Import Go.

(** ** Records and the goroutine programs of package [connectors] *)

(** A value of type [any] as the code produces it. *)
Inductive Value : Type :=
| VInt (z : Z)
| VString (s : string).

(** [map[string]any] *)
Abbreviation Row := (gmap string Value).

(** The record with a given id:
    [{"id": id, "payload": fmt.Sprintf("record-%d", id)}] *)
Definition record_with_id (id : Z) : Row :=
  <["payload" := VString ("record-" ++ fmt_d id)]> (<["id" := VInt id]> ∅).

(** The record sent at loop index [i], whose id is [i + 1]. *)
Definition row_at (i : Z) : Row := record_with_id (i + 1).

(** Where the goroutine of [simulateTransfer] / [produceFakeRecords] stands:
    at the head of iteration [i] (loop test, then [select]), in the
    [time.Sleep] after sending at iteration [i], or returned, which by the
    deferred [close(out)] closes its channel. *)
Inductive ProducerPc : Type :=
| PSelect (i : Z)
| PSleep (i : Z)
| PClosed.

(** A receive-only channel together with the goroutine that feeds it. *)
Record Chan : Type := mkChan {
  chan_records : Z;
  chan_pc : ProducerPc
}.

(** [simulateTransfer(ctx, records)]: [go func() { ... for i := 0; ... }()] *)
Definition simulateTransfer (records : Z) : Chan :=
  {| chan_records := records; chan_pc := PSelect 0 |}.

(** [produceFakeRecords(ctx, records)], the same loop under its other name. *)
Definition produceFakeRecords (records : Z) : Chan :=
  {| chan_records := records; chan_pc := PSelect 0 |}.

(** The [case out <- row] of the producer's [select]: enabled while
    [i < records]; the goroutine then sleeps. *)
Definition producer_send (ch : Chan) : option (Row * Chan) :=
  match chan_pc ch with
  | PSelect i =>
    if i <? chan_records ch
    then Some (row_at i, {| chan_records := chan_records ch; chan_pc := PSleep i |})
    else None
  | _ => None
  end.

(** The [case <-ctx.Done(): return] of the producer's [select]. *)
Definition producer_done (ctx : Context) (ch : Chan) : option Chan :=
  match chan_pc ch, ctx with
  | PSelect i, Some _ =>
    if i <? chan_records ch
    then Some {| chan_records := chan_records ch; chan_pc := PClosed |}
    else None
  | _, _ => None
  end.

(** The loop test [i < records] fails: the function returns. *)
Definition producer_exit (ch : Chan) : option Chan :=
  match chan_pc ch with
  | PSelect i =>
    if i <? chan_records ch
    then None
    else Some {| chan_records := chan_records ch; chan_pc := PClosed |}
  | _ => None
  end.

(** [time.Sleep] ends; [i++]. *)
Definition producer_wake (ch : Chan) : option Chan :=
  match chan_pc ch with
  | PSleep i => Some {| chan_records := chan_records ch; chan_pc := PSelect (i + 1) |}
  | _ => None
  end.

(** The channel seen from its receiving end: what the producer does next,
    and the records it hands over, under a context [ctx]. *)
Inductive ProducerEvent : Type :=
| EvSend
| EvDone
| EvExit
| EvWake.

Definition producer_step (ctx : Context) (ev : ProducerEvent) (ch : Chan)
  : option (list Row * Chan) :=
  match ev with
  | EvSend => (fun out => ([fst out], snd out)) <$> producer_send ch
  | EvDone => (fun ch' => ([], ch')) <$> producer_done ctx ch
  | EvExit => (fun ch' => ([], ch')) <$> producer_exit ch
  | EvWake => (fun ch' => ([], ch')) <$> producer_wake ch
  end.

(** The records received while the producer goes through [evs]. *)
Fixpoint extraction (ctx : Context) (evs : list ProducerEvent) (ch : Chan)
  : option (list Row * Chan) :=
  match evs with
  | [] => Some ([], ch)
  | ev :: rest =>
    match producer_step ctx ev ch with
    | Some (out, ch') =>
      match extraction ctx rest ch' with
      | Some (outs, ch'') => Some ((out ++ outs)%list, ch'')
      | None => None
      end
    | None => None
    end
  end.

(** What a destination's [Load] does once its configuration is checked:
    return the validation error, or enter [consumeTransfer] /
    [drainRecords]. *)
Inductive LoadBody : Type :=
| LoadReturn (msg : string)
| ConsumeTransfer.

(** ** Package [connectors] *)

Abbreviation ConfigMap := (gmap string string).

(** [config[key]] on a [map[string]string] *)
Definition config_get (config : ConfigMap) (key : string) : string :=
  default "" (config !! key).

Module connectors.

Definition ConnectorType : Type := string.
Definition SourceType : ConnectorType := "source".
Definition DestinationType : ConnectorType := "destination".

Record Connector : Type := mkConnector {
  Connector_Name : string;
  Connector_Type : ConnectorType;
  Connector_Description : string;
  Connector_SupportsDDL : bool;
  Connector_MaxParallel : Z
}.

(** [interface Source] *)
Record Source : Type := mkSource {
  Source_Info : Connector;
  Source_Validate : ConfigMap -> error;
  Source_Extract : ConfigMap -> res Chan
}.

(** [interface Destination] *)
Record Destination : Type := mkDestination {
  Destination_Info : Connector;
  Destination_Validate : ConfigMap -> error;
  Destination_Load : ConfigMap -> LoadBody
}.

Record Registry : Type := mkRegistry {
  sources : gmap string Source;
  destinations : gmap string Destination
}.

Definition SourceByName (r : Registry) (name : string) : res Source :=
  match sources r !! name with
  | Some s => Ok s
  | None => Err ("unknown source connector " ++ name)
  end.

Definition DestinationByName (r : Registry) (name : string) : res Destination :=
  match destinations r !! name with
  | Some d => Ok d
  | None => Err ("unknown destination connector " ++ name)
  end.

Definition ValidateConnectorPair (src dst : Connector) : error :=
  if negb (String.eqb (Connector_Type src) SourceType)
     || negb (String.eqb (Connector_Type dst) DestinationType)
  then Some "invalid connector pairing"
  else if String.eqb (Connector_Name src) (Connector_Name dst)
          && String.eqb (Connector_Name src) "iceberg"
  then Some "iceberg cannot be a destination"
  else None.

(** [simulateValidation] and [ensureRequiredFields] are the same loop. *)
Fixpoint simulateValidation (required : list string) (config : ConfigMap) : error :=
  match required with
  | [] => None
  | key :: rest =>
    if String.eqb (config_get config key) ""
    then Some ("missing required config " ++ key)
    else simulateValidation rest config
  end.

Definition ensureRequiredFields (required : list string) (config : ConfigMap) : error :=
  simulateValidation required config.

(** Registration loops: [r.sources[src.Info().Name] = src]. *)
Definition registerSources (items : list Source) (m : gmap string Source) : gmap string Source :=
  foldl (fun acc item => <[Connector_Name (Source_Info item) := item]> acc) m items.

Definition registerDestinations (items : list Destination) (m : gmap string Destination)
  : gmap string Destination :=
  foldl (fun acc item => <[Connector_Name (Destination_Info item) := item]> acc) m items.

(** The orders in which the runtime may range over a map: every key, once. *)
Definition range_order {V : Type} (m : gmap string V) (order : list string) : Prop :=
  NoDup order /\ forall k, k ∈ order <-> is_Some (m !! k).

(** [Available]: the descriptors of the sources as the runtime ranges over
    [r.sources], then those of the destinations. *)
Definition Available (order_s order_d : list string) (r : Registry) : list Connector :=
  (omap (fun k => Source_Info <$> sources r !! k) order_s
   ++ omap (fun k => Destination_Info <$> destinations r !! k) order_d)%list.

End connectors.

Import connectors.

(** *** The connectors written as one struct type each

    Every method first calls [ensureMeta], which fills the [meta] field of
    a fresh struct on first use and is the only writer of the field: [Info]
    is the [meta] that [ensureMeta] leaves, and [Validate], [Extract] and
    [Load] do not read it. *)

Module typed.

(** The zero value of [Connector], the [meta] of a freshly allocated struct. *)
Definition zeroConnector : Connector := mkConnector "" "" "" false 0.

(** [ensureMeta]: keep [meta] when its name is set, else fill it in. *)
Definition ensureMeta (fill meta : Connector) : Connector :=
  if negb (String.eqb (Connector_Name meta) "") then meta else fill.

Record MySQLSource : Type := { MySQLSource_meta : Connector }.

Definition MySQLSource_ensureMeta (s : MySQLSource) : MySQLSource :=
  {| MySQLSource_meta :=
       ensureMeta (mkConnector "mysql" SourceType "High-speed MySQL binlog reader" true 8)
                  (MySQLSource_meta s) |}.

Definition MySQLSource_Info (s : MySQLSource) : Connector :=
  MySQLSource_meta (MySQLSource_ensureMeta s).

Definition MySQLSource_Validate (s : MySQLSource) (config : ConfigMap) : error :=
  simulateValidation ["host"; "port"; "user"; "password"; "database"] config.

Definition MySQLSource_Extract (s : MySQLSource) (config : ConfigMap) : res Chan :=
  match MySQLSource_Validate s config with
  | Some err => Err err
  | None => Ok (simulateTransfer 50)
  end.

Record PostgresSource : Type := { PostgresSource_meta : Connector }.

Definition PostgresSource_ensureMeta (s : PostgresSource) : PostgresSource :=
  {| PostgresSource_meta :=
       ensureMeta (mkConnector "postgres" SourceType "Logical replication with parallel snapshot" true 8)
                  (PostgresSource_meta s) |}.

Definition PostgresSource_Info (s : PostgresSource) : Connector :=
  PostgresSource_meta (PostgresSource_ensureMeta s).

Definition PostgresSource_Validate (s : PostgresSource) (config : ConfigMap) : error :=
  simulateValidation ["host"; "port"; "user"; "password"; "database"] config.

Definition PostgresSource_Extract (s : PostgresSource) (config : ConfigMap) : res Chan :=
  match PostgresSource_Validate s config with
  | Some err => Err err
  | None => Ok (simulateTransfer 50)
  end.

Record SQLServerSource : Type := { SQLServerSource_meta : Connector }.

Definition SQLServerSource_ensureMeta (s : SQLServerSource) : SQLServerSource :=
  {| SQLServerSource_meta :=
       ensureMeta (mkConnector "sqlserver" SourceType "SQL Server CDC with snapshot fallback" true 4)
                  (SQLServerSource_meta s) |}.

Definition SQLServerSource_Info (s : SQLServerSource) : Connector :=
  SQLServerSource_meta (SQLServerSource_ensureMeta s).

Definition SQLServerSource_Validate (s : SQLServerSource) (config : ConfigMap) : error :=
  simulateValidation ["host"; "port"; "user"; "password"; "database"] config.

Definition SQLServerSource_Extract (s : SQLServerSource) (config : ConfigMap) : res Chan :=
  match SQLServerSource_Validate s config with
  | Some err => Err err
  | None => Ok (simulateTransfer 50)
  end.

Record IcebergSource : Type := { IcebergSource_meta : Connector }.

Definition IcebergSource_ensureMeta (s : IcebergSource) : IcebergSource :=
  {| IcebergSource_meta :=
       ensureMeta (mkConnector "iceberg" SourceType "Snapshot reads over Apache Iceberg metadata" false 6)
                  (IcebergSource_meta s) |}.

Definition IcebergSource_Info (s : IcebergSource) : Connector :=
  IcebergSource_meta (IcebergSource_ensureMeta s).

Definition IcebergSource_Validate (s : IcebergSource) (config : ConfigMap) : error :=
  simulateValidation ["catalog"; "table"; "warehouse"] config.

Definition IcebergSource_Extract (s : IcebergSource) (config : ConfigMap) : res Chan :=
  match IcebergSource_Validate s config with
  | Some err => Err err
  | None => Ok (simulateTransfer 30)
  end.

Record MySQLDestination : Type := { MySQLDestination_meta : Connector }.

Definition MySQLDestination_ensureMeta (d : MySQLDestination) : MySQLDestination :=
  {| MySQLDestination_meta :=
       ensureMeta (mkConnector "mysql" DestinationType "Batch inserts with parallel writers" true 8)
                  (MySQLDestination_meta d) |}.

Definition MySQLDestination_Info (d : MySQLDestination) : Connector :=
  MySQLDestination_meta (MySQLDestination_ensureMeta d).

Definition MySQLDestination_Validate (d : MySQLDestination) (config : ConfigMap) : error :=
  simulateValidation ["host"; "port"; "user"; "password"; "database"] config.

Definition MySQLDestination_Load (d : MySQLDestination) (config : ConfigMap) : LoadBody :=
  match MySQLDestination_Validate d config with
  | Some err => LoadReturn err
  | None => ConsumeTransfer
  end.

Record PostgresDestination : Type := { PostgresDestination_meta : Connector }.

Definition PostgresDestination_ensureMeta (d : PostgresDestination) : PostgresDestination :=
  {| PostgresDestination_meta :=
       ensureMeta (mkConnector "postgres" DestinationType "COPY protocol with conflict handling" true 8)
                  (PostgresDestination_meta d) |}.

Definition PostgresDestination_Info (d : PostgresDestination) : Connector :=
  PostgresDestination_meta (PostgresDestination_ensureMeta d).

Definition PostgresDestination_Validate (d : PostgresDestination) (config : ConfigMap) : error :=
  simulateValidation ["host"; "port"; "user"; "password"; "database"] config.

Definition PostgresDestination_Load (d : PostgresDestination) (config : ConfigMap) : LoadBody :=
  match PostgresDestination_Validate d config with
  | Some err => LoadReturn err
  | None => ConsumeTransfer
  end.

Record SQLServerDestination : Type := { SQLServerDestination_meta : Connector }.

Definition SQLServerDestination_ensureMeta (d : SQLServerDestination) : SQLServerDestination :=
  {| SQLServerDestination_meta :=
       ensureMeta (mkConnector "sqlserver" DestinationType "Bulk copy optimized for columnstore" true 4)
                  (SQLServerDestination_meta d) |}.

Definition SQLServerDestination_Info (d : SQLServerDestination) : Connector :=
  SQLServerDestination_meta (SQLServerDestination_ensureMeta d).

Definition SQLServerDestination_Validate (d : SQLServerDestination) (config : ConfigMap) : error :=
  simulateValidation ["host"; "port"; "user"; "password"; "database"] config.

Definition SQLServerDestination_Load (d : SQLServerDestination) (config : ConfigMap) : LoadBody :=
  match SQLServerDestination_Validate d config with
  | Some err => LoadReturn err
  | None => ConsumeTransfer
  end.

(** Each struct seen through its interface. *)
Definition asSource {T : Type} (info : T -> Connector) (validate : T -> ConfigMap -> error)
    (extract : T -> ConfigMap -> res Chan) (s : T) : Source :=
  mkSource (info s) (validate s) (extract s).

Definition asDestination {T : Type} (info : T -> Connector) (validate : T -> ConfigMap -> error)
    (load : T -> ConfigMap -> LoadBody) (d : T) : Destination :=
  mkDestination (info d) (validate d) (load d).

(** [NewRegistry]: the two registration loops over freshly allocated structs. *)
Definition NewRegistry : Registry :=
  {| sources := registerSources
       [ asSource MySQLSource_Info MySQLSource_Validate MySQLSource_Extract
           {| MySQLSource_meta := zeroConnector |};
         asSource PostgresSource_Info PostgresSource_Validate PostgresSource_Extract
           {| PostgresSource_meta := zeroConnector |};
         asSource SQLServerSource_Info SQLServerSource_Validate SQLServerSource_Extract
           {| SQLServerSource_meta := zeroConnector |};
         asSource IcebergSource_Info IcebergSource_Validate IcebergSource_Extract
           {| IcebergSource_meta := zeroConnector |} ] ∅;
     destinations := registerDestinations
       [ asDestination MySQLDestination_Info MySQLDestination_Validate MySQLDestination_Load
           {| MySQLDestination_meta := zeroConnector |};
         asDestination PostgresDestination_Info PostgresDestination_Validate
           PostgresDestination_Load {| PostgresDestination_meta := zeroConnector |};
         asDestination SQLServerDestination_Info SQLServerDestination_Validate
           SQLServerDestination_Load {| SQLServerDestination_meta := zeroConnector |} ] ∅ |}.

End typed.

(** *** The connectors written as [simpleSource] / [simpleDestination]

    [ensureRequiredFields], [produceFakeRecords] and [drainRecords] are
    [simulateValidation], [simulateTransfer] and [consumeTransfer] under
    other names. *)

Module simple.

Record simpleSource : Type := {
  simpleSource_meta : Connector;
  simpleSource_required : list string;
  simpleSource_sampleRecords : Z
}.

Definition newSimpleSource (name description : string) (supportsDDL : bool)
    (maxParallel : Z) (required : list string) (sampleRecords : Z) : simpleSource :=
  {| simpleSource_meta := mkConnector name SourceType description supportsDDL maxParallel;
     simpleSource_required := required;
     simpleSource_sampleRecords := sampleRecords |}.

Definition simpleSource_Info (s : simpleSource) : Connector := simpleSource_meta s.

Definition simpleSource_Validate (s : simpleSource) (config : ConfigMap) : error :=
  ensureRequiredFields (simpleSource_required s) config.

Definition simpleSource_Extract (s : simpleSource) (config : ConfigMap) : res Chan :=
  match simpleSource_Validate s config with
  | Some err => Err err
  | None => Ok (produceFakeRecords (simpleSource_sampleRecords s))
  end.

Record simpleDestination : Type := {
  simpleDestination_meta : Connector;
  simpleDestination_required : list string
}.

Definition newSimpleDestination (name description : string) (supportsDDL : bool)
    (maxParallel : Z) (required : list string) : simpleDestination :=
  {| simpleDestination_meta := mkConnector name DestinationType description supportsDDL maxParallel;
     simpleDestination_required := required |}.

Definition simpleDestination_Info (d : simpleDestination) : Connector := simpleDestination_meta d.

Definition simpleDestination_Validate (d : simpleDestination) (config : ConfigMap) : error :=
  ensureRequiredFields (simpleDestination_required d) config.

Definition simpleDestination_Load (d : simpleDestination) (config : ConfigMap) : LoadBody :=
  match simpleDestination_Validate d config with
  | Some err => LoadReturn err
  | None => ConsumeTransfer
  end.

Definition asSource (s : simpleSource) : Source :=
  mkSource (simpleSource_Info s) (simpleSource_Validate s) (simpleSource_Extract s).

Definition asDestination (d : simpleDestination) : Destination :=
  mkDestination (simpleDestination_Info d) (simpleDestination_Validate d)
    (simpleDestination_Load d).

Definition NewRegistry : Registry :=
  let dbFields := ["host"; "port"; "user"; "password"; "database"] in
  {| sources := registerSources
       [ asSource (newSimpleSource "mysql" "High-speed MySQL binlog reader" true 8 dbFields 50);
         asSource (newSimpleSource "postgres" "Logical replication with parallel snapshot"
                     true 8 dbFields 50);
         asSource (newSimpleSource "sqlserver" "SQL Server CDC with snapshot fallback"
                     true 4 dbFields 50);
         asSource (newSimpleSource "iceberg" "Snapshot reads over Apache Iceberg metadata"
                     false 6 ["catalog"; "table"; "warehouse"] 30) ] ∅;
     destinations := registerDestinations
       [ asDestination (newSimpleDestination "mysql" "Batch inserts with parallel writers"
                          true 8 dbFields);
         asDestination (newSimpleDestination "postgres" "COPY protocol with conflict handling"
                          true 8 dbFields);
         asDestination (newSimpleDestination "sqlserver" "Bulk copy optimized for columnstore"
                          true 4 dbFields) ] ∅ |}.

End simple.

(** ** Package [pipeline] *)

Module pipeline.

Record Config : Type := mkConfig {
  Config_Name : string;
  Config_SourceType : string;
  Config_SourceConfig : ConfigMap;
  Config_DestType : string;
  Config_DestConfig : ConfigMap
}.

Record Result : Type := mkResult {
  Result_PipelineName : string;
  Result_StartedAt : Time;
  Result_FinishedAt : Time;
  Result_Records : Z;
  Result_Error : string
}.

Record Service : Type := mkService {
  registry : Registry;
  store : gmap string Config
}.

Definition NewService (reg : Registry) : Service :=
  {| registry := reg; store := ∅ |}.

(** *** Methods on [*Service] as state transformers *)

Definition M (A : Type) : Type := Service -> A * Service.

Definition ret {A : Type} (a : A) : M A := fun s => (a, s).

Definition bind {A B : Type} (m : M A) (k : A -> M B) : M B :=
  fun s => let '(a, s') := m s in k a s'.

Notation "x <- m ;; k" := (bind m (fun x => k))
  (at level 100, m at next level, right associativity).

(** [s.registry] *)
Definition get_registry : M Registry := fun s => (registry s, s).

(** [cfg, ok := s.store[name]] *)
Definition store_get (name : string) : M (option Config) :=
  fun s => (store s !! name, s).

(** [s.store[name] = cfg] *)
Definition store_set (name : string) (cfg : Config) : M unit :=
  fun s => (tt, {| registry := registry s; store := <[name := cfg]> (store s) |}).

(** [for _, cfg := range s.store { result = append(result, cfg) }]: the
    runtime visits the keys in an order of its choosing, [order]. *)
Definition store_range (order : list string) : M (list Config) :=
  fun s => (omap (fun k => store s !! k) order, s).

(** The orders the runtime may choose: every key of the map, once. *)
Definition iteration_order (m : gmap string Config) (order : list string) : Prop :=
  NoDup order /\ forall k, k ∈ order <-> is_Some (m !! k).

(** [sort.Slice(result, less)], as a straight insertion sort. *)
Fixpoint sort_insert {A : Type} (less : A -> A -> bool) (x : A) (l : list A) : list A :=
  match l with
  | [] => [x]
  | y :: l' => if less x y then x :: y :: l' else y :: sort_insert less x l'
  end.

Fixpoint sort_Slice {A : Type} (less : A -> A -> bool) (l : list A) : list A :=
  match l with
  | [] => []
  | x :: l' => sort_insert less x (sort_Slice less l')
  end.

(** *** [Tee], [Load] and the run of one pipeline

    Three threads of control: the goroutine feeding the extraction channel
    [in], the goroutine of [Tee] between [in] and [out], and the caller,
    which is inside the destination's [Load] and then back in [Run]. Both
    channels are unbuffered, so a send and its receive are one action.

    A thread standing at a [select] may take any case that is ready when
    it moves; whether it was parked there or is only just arriving is not
    recorded, so the system has every behaviour of the program and the
    universal properties below hold of all of them. [counter] is written
    by the goroutine of [Tee] and read by [Run] with no synchronisation on
    the cancellation path; the read is taken to return the value of the
    latest write. *)

(** The goroutine of [Tee]: blocked in [range in]; holding a record before
    [fn(record)]; holding it after [fn], blocked in [out <- record]; or
    returned, [out] closed. *)
Inductive TeePc : Type :=
| TRange
| TCall (record : Row)
| TSend (record : Row)
| TClosed.

(** The caller: entering [Load]; in the [select] of [consumeTransfer];
    back in [Run] with [loadErr], [counter] not yet read; done, with the
    value read from [counter] and [loadErr]. *)
Inductive MainPc : Type :=
| LEnter
| LSelect
| LReturned (loadErr : error)
| RFinished (records : Z) (loadErr : error).

Record RunState : Type := mkRunState {
  rs_ctx : Context;
  rs_in : Chan;
  rs_tee : TeePc;
  rs_counter : Z;
  rs_main : MainPc;
  rs_load : LoadBody;
  (** history: the records sent on [in], and those received by [Load] *)
  rs_sent : list Row;
  rs_fwd : list Row
}.

Inductive Action : Type :=
| Cancel (c : Cause)  (** the caller's context ends *)
| ProducerSend        (** [out <- row] of the producer meets [range in] of the tee *)
| ProducerDone        (** the producer takes [<-ctx.Done()] *)
| ProducerExit        (** the producer's loop test fails *)
| ProducerWake        (** the producer's sleep ends *)
| TeeCall             (** [fn(record)], that is [counter++] *)
| TeeSend             (** [out <- record] of the tee meets the receive of [Load] *)
| TeeClose            (** [range in] ends on the closed channel; [close(out)] *)
| LoadEnter           (** [Load] checks its configuration *)
| LoadDone            (** [consumeTransfer] takes [<-ctx.Done()] *)
| LoadEOF             (** [consumeTransfer] receives from the closed [out] *)
| RunRead.            (** [Run] reads [counter] *)

Definition is_Cancel (a : Action) : bool :=
  match a with Cancel _ => true | _ => false end.

(** [Tee(in, fn)] starts its goroutine, which first blocks in [range in]. *)
Definition Tee : TeePc := TRange.

(** [range in] receives [record]. *)
Definition Tee_receive (t : TeePc) (record : Row) : option TeePc :=
  match t with
  | TRange => Some (TCall record)
  | _ => None
  end.

(** [fn(record)] is called and returns. *)
Definition Tee_fn (t : TeePc) : option TeePc :=
  match t with
  | TCall record => Some (TSend record)
  | _ => None
  end.

(** [out <- record] is received; back to [range in]. *)
Definition Tee_send (t : TeePc) : option (Row * TeePc) :=
  match t with
  | TSend record => Some (record, TRange)
  | _ => None
  end.

(** [range in] finds [in] closed: the goroutine returns, [out] is closed. *)
Definition Tee_close (t : TeePc) (feeder : ProducerPc) : option TeePc :=
  match t, feeder with
  | TRange, PClosed => Some TClosed
  | _, _ => None
  end.

(** [consumeTransfer(ctx, records)] / [drainRecords(ctx, records)] starts
    in its [select]. *)
Definition consumeTransfer : MainPc := LSelect.

(** [case <-ctx.Done(): return ctx.Err()] *)
Definition consumeTransfer_done (ctx : Context) (m : MainPc) : option MainPc :=
  match m, ctx with
  | LSelect, Some c => Some (LReturned (Some (Cause_Error c)))
  | _, _ => None
  end.

(** [case _, ok := <-records] with [ok]: the next iteration *)
Definition consumeTransfer_receive (m : MainPc) : option MainPc :=
  match m with
  | LSelect => Some LSelect
  | _ => None
  end.

(** [case _, ok := <-records] with [!ok]: [return nil] *)
Definition consumeTransfer_closed (m : MainPc) (out : TeePc) : option MainPc :=
  match m, out with
  | LSelect, TClosed => Some (LReturned None)
  | _, _ => None
  end.

(** The first statement of [Load]: [if err := d.Validate(config); err != nil]. *)
Definition Load_enter (load : LoadBody) (m : MainPc) : option MainPc :=
  match m, load with
  | LEnter, LoadReturn msg => Some (LReturned (Some msg))
  | LEnter, ConsumeTransfer => Some consumeTransfer
  | _, _ => None
  end.

(** [Run] reads [counter] once [Load] has returned. *)
Definition Run_read (counter : Z) (m : MainPc) : option MainPc :=
  match m with
  | LReturned loadErr => Some (RFinished counter loadErr)
  | _ => None
  end.

Definition set_in (st : RunState) (ch : Chan) : RunState :=
  mkRunState (rs_ctx st) ch (rs_tee st) (rs_counter st) (rs_main st) (rs_load st)
    (rs_sent st) (rs_fwd st).

Definition set_tee (st : RunState) (t : TeePc) : RunState :=
  mkRunState (rs_ctx st) (rs_in st) t (rs_counter st) (rs_main st) (rs_load st)
    (rs_sent st) (rs_fwd st).

Definition set_main (st : RunState) (pc : MainPc) : RunState :=
  mkRunState (rs_ctx st) (rs_in st) (rs_tee st) (rs_counter st) pc (rs_load st)
    (rs_sent st) (rs_fwd st).

Definition step (a : Action) (st : RunState) : option RunState :=
  match a with
  | Cancel c =>
    match rs_ctx st with
    | None => Some (mkRunState (Some c) (rs_in st) (rs_tee st) (rs_counter st) (rs_main st)
                      (rs_load st) (rs_sent st) (rs_fwd st))
    | Some _ => None
    end
  | ProducerSend =>
    match producer_send (rs_in st) with
    | Some (row, ch) =>
      match Tee_receive (rs_tee st) row with
      | Some t =>
        Some (mkRunState (rs_ctx st) ch t (rs_counter st) (rs_main st)
                (rs_load st) (rs_sent st ++ [row]) (rs_fwd st))
      | None => None
      end
    | None => None
    end
  | ProducerDone => set_in st <$> producer_done (rs_ctx st) (rs_in st)
  | ProducerExit => set_in st <$> producer_exit (rs_in st)
  | ProducerWake => set_in st <$> producer_wake (rs_in st)
  | TeeCall =>
    match Tee_fn (rs_tee st) with
    | Some t =>
      Some (mkRunState (rs_ctx st) (rs_in st) t (rs_counter st + 1) (rs_main st)
              (rs_load st) (rs_sent st) (rs_fwd st))
    | None => None
    end
  | TeeSend =>
    match Tee_send (rs_tee st), consumeTransfer_receive (rs_main st) with
    | Some (row, t), Some m =>
      Some (mkRunState (rs_ctx st) (rs_in st) t (rs_counter st) m
              (rs_load st) (rs_sent st) (rs_fwd st ++ [row]))
    | _, _ => None
    end
  | TeeClose => set_tee st <$> Tee_close (rs_tee st) (chan_pc (rs_in st))
  | LoadEnter => set_main st <$> Load_enter (rs_load st) (rs_main st)
  | LoadDone => set_main st <$> consumeTransfer_done (rs_ctx st) (rs_main st)
  | LoadEOF => set_main st <$> consumeTransfer_closed (rs_main st) (rs_tee st)
  | RunRead => set_main st <$> Run_read (rs_counter st) (rs_main st)
  end.

(** A schedule is the list of actions taken, in order. *)
Fixpoint exec (sched : list Action) (st : RunState) : option RunState :=
  match sched with
  | [] => Some st
  | a :: rest =>
    match step a st with
    | Some st' => exec rest st'
    | None => None
    end
  end.

(** [counter := 0; dst.Load(ctx, cfg.DestConfig, Tee(records, fn))] *)
Definition start (ctx : Context) (records : Chan) (load : LoadBody) : RunState :=
  mkRunState ctx records Tee 0 LEnter load [] [].

Definition finished (st : RunState) : option (Z * error) :=
  match rs_main st with
  | RFinished n e => Some (n, e)
  | _ => None
  end.

(** The schedule in which every record goes through before the next one
    is produced, nothing is cancelled, and everything is closed in turn. *)
Definition lockstep (n : nat) : list Action :=
  LoadEnter :: concat (repeat [ProducerSend; TeeCall; TeeSend; ProducerWake] n)
    ++ [ProducerExit; TeeClose; LoadEOF; RunRead].

(** Every behaviour from [st] carries [Run] to its end: as long as it is
    not there the program itself can move, and wherever a move of the
    program or of its environment leads, the same holds. *)
Inductive MustFinish : RunState -> Prop :=
| MF_done st : is_Some (finished st) -> MustFinish st
| MF_step st :
    (exists a st', is_Cancel a = false /\ step a st = Some st') ->
    (forall a st', step a st = Some st' -> MustFinish st') ->
    MustFinish st.

(** *** The service with [validatePipelineName], [connectorsFor],
        [newResult] and [finish] *)

Module refactored.

Definition validatePipelineName (name : string) : error :=
  if String.eqb (strings_TrimSpace name) ""
  then Some "pipeline name is required"
  else None.

Definition connectorsFor (cfg : Config) : M (res (Source * Destination)) :=
  reg <- get_registry ;;
  match SourceByName reg (Config_SourceType cfg) with
  | Err err => ret (Err err)
  | Ok src =>
    match DestinationByName reg (Config_DestType cfg) with
    | Err err => ret (Err err)
    | Ok dst =>
      match ValidateConnectorPair (Source_Info src) (Destination_Info dst) with
      | Some err => ret (Err err)
      | None => ret (Ok (src, dst))
      end
    end
  end.

Definition Create (cfg : Config) : M error :=
  match validatePipelineName (Config_Name cfg) with
  | Some err => ret (Some err)
  | None =>
    pair <- connectorsFor cfg ;;
    match pair with
    | Err err => ret (Some err)
    | Ok (src, dst) =>
      match Source_Validate src (Config_SourceConfig cfg) with
      | Some err => ret (Some err)
      | None =>
        match Destination_Validate dst (Config_DestConfig cfg) with
        | Some err => ret (Some err)
        | None =>
          _ <- store_set (Config_Name cfg) cfg ;;
          ret None
        end
      end
    end
  end.

Definition List (order : list string) : M (list Config) :=
  result <- store_range order ;;
  ret (sort_Slice (fun a b => String.ltb (Config_Name a) (Config_Name b)) result).

Definition getConfig (name : string) : M (option Config) := store_get name.

Definition newResult (name : string) (now : Z) : Result :=
  {| Result_PipelineName := name;
     Result_StartedAt := time_Now now;
     Result_FinishedAt := TimeZero;
     Result_Records := 0;
     Result_Error := "" |}.

Definition finish (r : Result) (records : Z) (runErr : error) (now : Z) : Result :=
  {| Result_PipelineName := Result_PipelineName r;
     Result_StartedAt := Result_StartedAt r;
     Result_FinishedAt := time_Now now;
     Result_Records := records;
     Result_Error := match runErr with Some msg => msg | None => "" end |}.

(** [Run], up to the point where the goroutines are started: either the
    result it returns at once, or the state in which [Load] is entered. *)
Definition Run_launch (ctx : Context) (name : string) (t0 t1 : Z) : M (Result + RunState) :=
  let result := newResult name t0 in
  found <- getConfig name ;;
  match found with
  | None => ret (inl (finish result 0 (Some "pipeline not found") t1))
  | Some cfg =>
    pair <- connectorsFor cfg ;;
    match pair with
    | Err err => ret (inl (finish result 0 (Some err) t1))
    | Ok (src, dst) =>
      match Source_Extract src (Config_SourceConfig cfg) with
      | Err err => ret (inl (finish result 0 (Some err) t1))
      | Ok records =>
        ret (inr (start ctx records (Destination_Load dst (Config_DestConfig cfg))))
      end
    end
  end.

(** [Run(ctx, name)] under a schedule of its goroutines; [t0] and [t1] are
    the two readings of the clock. [None]: the schedule is not one of this
    program, or it stops before [Run] has read [counter]. *)
Definition Run (ctx : Context) (sched : list Action) (name : string) (t0 t1 : Z)
  : M (option Result) :=
  launched <- Run_launch ctx name t0 t1 ;;
  match launched with
  | inl result => ret (Some result)
  | inr st =>
    ret ((fun out => finish (newResult name t0) (fst out) (snd out) t1)
           <$> (exec sched st ≫= finished))
  end.

End refactored.

(** *** The service with its checks written inline *)

Module inline.

Definition Create (cfg : Config) : M error :=
  if String.eqb (Config_Name cfg) ""
  then ret (Some "pipeline name is required")
  else
    reg <- get_registry ;;
    match SourceByName reg (Config_SourceType cfg) with
    | Err err => ret (Some err)
    | Ok src =>
      match DestinationByName reg (Config_DestType cfg) with
      | Err err => ret (Some err)
      | Ok dst =>
        match ValidateConnectorPair (Source_Info src) (Destination_Info dst) with
        | Some err => ret (Some err)
        | None =>
          match Source_Validate src (Config_SourceConfig cfg) with
          | Some err => ret (Some err)
          | None =>
            match Destination_Validate dst (Config_DestConfig cfg) with
            | Some err => ret (Some err)
            | None =>
              _ <- store_set (Config_Name cfg) cfg ;;
              ret None
            end
          end
        end
      end
    end.

Definition List (order : list string) : M (list Config) := store_range order.

(** [res.Error = msg; res.FinishedAt = time.Now(); return res] *)
Definition fail (res : Result) (msg : string) (now : Z) : Result :=
  {| Result_PipelineName := Result_PipelineName res;
     Result_StartedAt := Result_StartedAt res;
     Result_FinishedAt := time_Now now;
     Result_Records := Result_Records res;
     Result_Error := msg |}.

(** The end of [Run]: [if loadErr != nil { res.Error = ... }],
    [res.Records = counter], [res.FinishedAt = time.Now()]. *)
Definition complete (res : Result) (counter : Z) (loadErr : error) (now : Z) : Result :=
  {| Result_PipelineName := Result_PipelineName res;
     Result_StartedAt := Result_StartedAt res;
     Result_FinishedAt := time_Now now;
     Result_Records := counter;
     Result_Error := match loadErr with Some msg => msg | None => Result_Error res end |}.

Definition initial (name : string) (now : Z) : Result :=
  {| Result_PipelineName := name;
     Result_StartedAt := time_Now now;
     Result_FinishedAt := TimeZero;
     Result_Records := 0;
     Result_Error := "" |}.

Definition Run_launch (ctx : Context) (name : string) (t0 t1 : Z) : M (Result + RunState) :=
  found <- store_get name ;;
  let res := initial name t0 in
  match found with
  | None => ret (inl (fail res "pipeline not found" t1))
  | Some cfg =>
    reg <- get_registry ;;
    match SourceByName reg (Config_SourceType cfg) with
    | Err err => ret (inl (fail res err t1))
    | Ok src =>
      match DestinationByName reg (Config_DestType cfg) with
      | Err err => ret (inl (fail res err t1))
      | Ok dst =>
        match Source_Extract src (Config_SourceConfig cfg) with
        | Err err => ret (inl (fail res err t1))
        | Ok records =>
          ret (inr (start ctx records (Destination_Load dst (Config_DestConfig cfg))))
        end
      end
    end
  end.

Definition Run (ctx : Context) (sched : list Action) (name : string) (t0 t1 : Z)
  : M (option Result) :=
  launched <- Run_launch ctx name t0 t1 ;;
  match launched with
  | inl result => ret (Some result)
  | inr st =>
    ret ((fun out => complete (initial name t0) (fst out) (snd out) t1)
           <$> (exec sched st ≫= finished))
  end.

End inline.

End pipeline.

Import pipeline.

(** ** Package [main]: the HTTP handlers and the mux in front of them

    A handler is its effect on the service and the response it writes. The
    JSON text is not modelled: a response carries the value handed to
    [writeJSON], whose encoding cannot fail for the types used here, and
    the request carries the outcome of decoding its body.

    The handlers are the four closures of [main]; they are called by the
    [http.ServeMux] they are registered with, never directly. [ServeHTTP]
    below is that mux for the four patterns: it answers a request whose
    path is not in canonical form with a redirect, without calling any
    handler, and otherwise calls the handler of the matching pattern. A
    request is one in origin form whose path carries no percent-escapes,
    so that [r.URL.Path] is the string that the mux cleans and matches. *)

Module server.

(** The methods of [pipeline.Service] that [main] calls, from whichever
    copy of the package it is built with. *)
Record API : Type := mkAPI {
  api_Create : Config -> M error;
  api_List : list string -> M (list Config);
  api_Run : Context -> list Action -> string -> Z -> Z -> M (option Result)
}.

Definition refactored_api : API :=
  mkAPI refactored.Create refactored.List refactored.Run.

Definition inline_api : API :=
  mkAPI inline.Create inline.List inline.Run.

Record Request : Type := mkRequest {
  Request_Method : string;
  (** [r.URL.Path] *)
  Request_Path : string;
  (** [json.NewDecoder(r.Body).Decode(&cfg)] *)
  Request_Body : res Config
}.

Inductive Payload : Type :=
| PayloadOk                                (** ["ok"] *)
| PayloadConnectors (l : list Connector)
| PayloadPipelines (l : list Config)
| PayloadCreated                           (** [{"status": "created"}] *)
| PayloadResult (r : Result).

Inductive Body : Type :=
| NoBody
| ErrorText (msg : string)                 (** [http.Error(w, msg, code)] *)
| JSONBody (payload : Payload)             (** [writeJSON(w, payload)] *)
| Redirect (location : string).            (** [http.Redirect(w, r, location, code)] *)

Record Response : Type := mkResponse {
  Response_Status : Z;
  Response_Body : Body
}.

Definition StatusOK : Z := 200.
Definition StatusMovedPermanently : Z := 301.
Definition StatusBadRequest : Z := 400.
Definition StatusNotFound : Z := 404.
Definition StatusMethodNotAllowed : Z := 405.

(** [mux.HandleFunc("/health", ...)] *)
Definition handleHealth (r : Request) : M Response :=
  ret (mkResponse StatusOK (JSONBody PayloadOk)).

(** [mux.HandleFunc("/connectors", ...)] *)
Definition handleConnectors (order_s order_d : list string) (r : Request) : M Response :=
  reg <- get_registry ;;
  ret (mkResponse StatusOK (JSONBody (PayloadConnectors (Available order_s order_d reg)))).

(** [mux.HandleFunc("/pipelines", ...)] *)
Definition handlePipelines (api : API) (order : list string) (r : Request) : M Response :=
  if String.eqb (Request_Method r) "GET" then
    l <- api_List api order ;;
    ret (mkResponse StatusOK (JSONBody (PayloadPipelines l)))
  else if String.eqb (Request_Method r) "POST" then
    match Request_Body r with
    | Err msg => ret (mkResponse StatusBadRequest (ErrorText msg))
    | Ok cfg =>
      err <- api_Create api cfg ;;
      match err with
      | Some msg => ret (mkResponse StatusBadRequest (ErrorText msg))
      | None => ret (mkResponse StatusOK (JSONBody PayloadCreated))
      end
    end
  else ret (mkResponse StatusMethodNotAllowed NoBody).

(** The closure registered by [mux.HandleFunc("/pipelines/", ...)], on a
    request the mux hands to it; [ctx] is [r.Context()]. [None]: the
    schedule is not a complete run of [Run]. Which requests get here is
    decided by [ServeHTTP]. *)
Definition handlePipelineRun (api : API) (ctx : Context) (sched : list Action)
    (t0 t1 : Z) (r : Request) : M (option Response) :=
  if negb (String.eqb (Request_Method r) "POST") then
    ret (Some (mkResponse StatusMethodNotAllowed NoBody))
  else
    match strings_Split (strings_TrimPrefix (Request_Path r) "/pipelines/") "/"%char with
    | [name; verb] =>
      if negb (String.eqb verb "run") then ret (Some (mkResponse StatusNotFound NoBody))
      else
        res <- api_Run api ctx sched name t0 t1 ;;
        ret ((fun result => mkResponse StatusOK (JSONBody (PayloadResult result))) <$> res)
    | _ => ret (Some (mkResponse StatusNotFound NoBody))
    end.

(** What a path is routed to. *)
Inductive Route : Type :=
| ToHealth
| ToConnectors
| ToPipelines
| ToPipelineRun
| ToNotFound.

(** [mux.handler(host, path)] for the patterns of [main]: [/health],
    [/connectors] and [/pipelines] match that very path, [/pipelines/]
    every path it is a prefix of; no pattern names a host. *)
Definition mux_handler (path : string) : Route :=
  if String.eqb path "/health" then ToHealth
  else if String.eqb path "/connectors" then ToConnectors
  else if String.eqb path "/pipelines" then ToPipelines
  else
    match strip_prefix "/pipelines/" path with
    | Some _ => ToPipelineRun
    | None => ToNotFound
    end.

(** The handler of a route is called; without a match, [http.NotFound]. *)
Definition route (api : API) (order_s order_d order : list string) (ctx : Context)
    (sched : list Action) (t0 t1 : Z) (r : Request) (to : Route) : M (option Response) :=
  match to with
  | ToHealth => resp <- handleHealth r ;; ret (Some resp)
  | ToConnectors => resp <- handleConnectors order_s order_d r ;; ret (Some resp)
  | ToPipelines => resp <- handlePipelines api order r ;; ret (Some resp)
  | ToPipelineRun => handlePipelineRun api ctx sched t0 t1 r
  | ToNotFound => ret (Some (mkResponse StatusNotFound (ErrorText "404 page not found")))
  end.

(** [mux.ServeHTTP(w, r)]: a CONNECT request is matched as it is; any
    other has its path cleaned, and is answered with a redirect to the
    clean path when that differs from the path it came with. No pattern
    of [main] has a sibling with a trailing slash only, so the redirect
    from [/tree] to [/tree/] never applies. *)
Definition ServeHTTP (api : API) (order_s order_d order : list string) (ctx : Context)
    (sched : list Action) (t0 t1 : Z) (r : Request) : M (option Response) :=
  if String.eqb (Request_Method r) "CONNECT" then
    route api order_s order_d order ctx sched t0 t1 r (mux_handler (Request_Path r))
  else
    let path := cleanPath (Request_Path r) in
    if negb (String.eqb path (Request_Path r)) then
      ret (Some (mkResponse StatusMovedPermanently (Redirect path)))
    else route api order_s order_d order ctx sched t0 t1 r (mux_handler path).

End server.

Import server.

(** ** Measures, invariants and classifications used by the properties *)

(** How many moves each thread of a run has left, at most. *)
Definition producer_weight (ch : Chan) : nat :=
  match chan_pc ch with
  | PSelect i => 2 * Z.to_nat (chan_records ch - i) + 1
  | PSleep i => Nat.max 2 (2 * Z.to_nat (chan_records ch - i))
  | PClosed => 0
  end.

Definition tee_weight (t : TeePc) : nat :=
  match t with
  | TClosed => 0
  | TRange => 1
  | TSend _ => 2
  | TCall _ => 3
  end.

Definition main_weight (m : MainPc) : nat :=
  match m with
  | LEnter => 3
  | LSelect => 2
  | LReturned _ => 1
  | RFinished _ _ => 0
  end.

Definition weight (st : RunState) : nat :=
  4 * producer_weight (rs_in st) + tee_weight (rs_tee st) + main_weight (rs_main st)
  + match rs_ctx st with Some _ => 0 | None => 1 end.

(** The record the tee holds, and whether it has been counted. *)
Definition held (t : TeePc) : list Row :=
  match t with
  | TCall row | TSend row => [row]
  | _ => []
  end.

Definition counted (t : TeePc) : Z :=
  match t with
  | TSend _ => 1
  | _ => 0
  end.

(** The first [k] records of an extraction. *)
Definition rows (k : nat) : list Row := map (fun i => row_at (Z.of_nat i)) (seq 0 k).

Definition sent_count (st : RunState) : Z := Z.of_nat (length (rs_sent st)).
Definition fwd_count (st : RunState) : Z := Z.of_nat (length (rs_fwd st)).

(** How [Load] can have returned [e]. *)
Definition returned_ok (st : RunState) (e : error) : Prop :=
  match e with
  | None => rs_tee st = TClosed /\ rs_load st = ConsumeTransfer
  | Some msg =>
    rs_load st = LoadReturn msg \/ exists c, rs_ctx st = Some c /\ msg = Cause_Error c
  end.

(** What holds of every state of a run over [n] sample records. *)
Record Inv (n : Z) (st : RunState) : Prop := {
  inv_records : chan_records (rs_in st) = n;
  inv_sent : rs_sent st = (rs_fwd st ++ held (rs_tee st))%list;
  inv_counter : rs_counter st = fwd_count st + counted (rs_tee st);
  inv_rows : rs_sent st = rows (length (rs_sent st));
  inv_pc :
    match chan_pc (rs_in st) with
    | PSelect i => i = sent_count st /\ i <= Z.max 0 n
    | PSleep i => i + 1 = sent_count st /\ i < n
    | PClosed => sent_count st <= Z.max 0 n /\ (rs_ctx st = None -> sent_count st = Z.max 0 n)
    end;
  inv_tee : rs_tee st = TClosed -> chan_pc (rs_in st) = PClosed;
  inv_main :
    match rs_main st with
    | LEnter => True
    | LSelect => rs_load st = ConsumeTransfer
    | LReturned e => returned_ok st e
    | RFinished c e =>
      returned_ok st e
      /\ (c = fwd_count st \/ (c = fwd_count st + 1 /\ exists row, rs_tee st = TSend row))
    end
}.

(** The errors of [ValidateConnectorPair]. *)
Definition invalid_pairing (e : error) : Prop :=
  e = Some "invalid connector pairing" \/ e = Some "iceberg cannot be a destination".

(** The error of [simulateValidation] / [ensureRequiredFields] for [key]. *)
Definition missing_field (key : string) : string := "missing required config " ++ key.

(** The two registries the repository builds. *)
Definition shipped (reg : Registry) : Prop :=
  reg = typed.NewRegistry \/ reg = simple.NewRegistry.

(** No [Cancel] among the actions of a schedule. *)
Definition uncancelled (sched : list Action) : Prop :=
  forallb (fun a => negb (is_Cancel a)) sched = true.

(** The sample size [NewRegistry] gives the source registered as [name]. *)
Definition sample_size (name : string) : Z :=
  if String.eqb name "iceberg" then 30 else 50.

(** A source whose [Validate] is the required-fields loop over [required]
    and whose [Extract] validates and then starts the producer for [n]
    records; a destination whose [Load] validates and then drains. *)
Definition source_shape (required : list string) (n : Z) (s : Source) : Prop :=
  Connector_Type (Source_Info s) = SourceType
  /\ (forall c, Source_Validate s c = simulateValidation required c)
  /\ (forall c, Source_Extract s c =
                match Source_Validate s c with
                | Some err => Err err
                | None => Ok (simulateTransfer n)
                end).

Definition destination_shape (required : list string) (d : Destination) : Prop :=
  Connector_Type (Destination_Info d) = DestinationType
  /\ (forall c, Destination_Validate d c = simulateValidation required c)
  /\ (forall c, Destination_Load d c =
                match Destination_Validate d c with
                | Some err => LoadReturn err
                | None => ConsumeTransfer
                end).

(** Ascending order of names, as [<] on Go strings compares them. *)
Definition name_le (a b : Config) : Prop :=
  String.leb (Config_Name a) (Config_Name b) = true.

Definition sorted_by_name (l : list Config) : Prop := StronglySorted name_le l.

(** Every definition sits under its own name, as [s.store[cfg.Name] = cfg]
    leaves the store. *)
Definition keyed (m : gmap string Config) : Prop :=
  forall k c, m !! k = Some c -> Config_Name c = k.

(** The comparison handed to [sort.Slice] by [List]. *)
Definition name_less (a b : Config) : bool := String.ltb (Config_Name a) (Config_Name b).

(** What [Run] may return when its context ended by [cause] while
    [forwarded] records had reached [Load] by the time it returned: the
    count is [forwarded], or one more for the record the tee has counted
    and still holds; the error is that of the context, or none when [Load]
    saw the stream closed first. *)
Definition cancelled_outcome (n : Z) (cause : Cause) (forwarded : Z) (res : Result) : Prop :=
  forwarded <= Result_Records res <= forwarded + 1
  /\ Result_Records res <= n
  /\ ((Result_Error res = Cause_Error cause /\ Result_Error res <> "")
      \/ (Result_Error res = "" /\ Result_Records res = forwarded)).

(** The ids of the records a producer has still to send. *)
Definition remaining_ids (ch : Chan) : list Z :=
  match chan_pc ch with
  | PSelect i => seqZ (i + 1) (chan_records ch - i)
  | PSleep i => seqZ (i + 2) (chan_records ch - (i + 1))
  | PClosed => []
  end.

(** The events of an extraction that nothing interrupts. *)
Definition full_extraction (n : nat) : list ProducerEvent :=
  (concat (repeat [EvSend; EvWake] n) ++ [EvExit])%list.

(** What the checks of [Create] establish of a definition, against the
    registry [reg]. *)
Definition accepted (reg : Registry) (cfg : Config) : Prop :=
  Config_Name cfg <> ""
  /\ exists src dst,
      SourceByName reg (Config_SourceType cfg) = Ok src
      /\ DestinationByName reg (Config_DestType cfg) = Ok dst
      /\ ValidateConnectorPair (Source_Info src) (Destination_Info dst) = None
      /\ Source_Validate src (Config_SourceConfig cfg) = None
      /\ Destination_Validate dst (Config_DestConfig cfg) = None.

(** The services a program can hold: the one [NewService] builds, and what
    calls of [Create], in either copy, make of it. *)
Inductive reachable (reg : Registry) : Service -> Prop :=
| reach_new : reachable reg (NewService reg)
| reach_refactored svc cfg :
    reachable reg svc -> reachable reg (snd (refactored.Create cfg svc))
| reach_inline svc cfg :
    reachable reg svc -> reachable reg (snd (inline.Create cfg svc)).

(** The number of occurrences of a byte in a string. *)
Fixpoint count_byte (sep : ascii) (s : string) : nat :=
  match s with
  | EmptyString => 0
  | String c rest => (if Ascii.eqb c sep then 1 else 0) + count_byte sep rest
  end.

(** A path element that [path.Clean] keeps as it is: not empty, not [.]
    or [..], and without a slash. *)
Definition plain_segment (name : string) : bool :=
  negb (String.eqb name "") && negb (String.eqb name ".") && negb (String.eqb name "..")
  && Nat.eqb (count_byte "/" name) 0.

(** [Load] has returned: nothing receives from the tee any more. *)
Definition load_returned (m : MainPc) : bool :=
  match m with
  | LReturned _ | RFinished _ _ => true
  | _ => false
  end.

(** The white space bytes of ASCII: tab, line feed, vertical tab, form
    feed, carriage return and space. *)
Definition ascii_space (c : ascii) : bool := byte_in c 9 13 || byte_is c 32.

(** A byte of ASCII that is not white space. *)
Definition visible_ascii (c : ascii) : bool :=
  (N_of_ascii c <? 128)%N && negb (ascii_space c).

(** A byte that is not ASCII: part of a rune of several bytes. *)
Definition high_byte (c : ascii) : bool := (128 <=? N_of_ascii c)%N.

Fixpoint all_bytes (p : ascii -> bool) (s : string) : bool :=
  match s with
  | EmptyString => true
  | String c rest => p c && all_bytes p rest
  end.

Fixpoint some_byte (p : ascii -> bool) (s : string) : bool :=
  match s with
  | EmptyString => false
  | String c rest => p c || some_byte p rest
  end.

(** The first [k] bytes of [s], as far as it has them, are not ASCII. *)
Fixpoint high_prefix (k : nat) (s : string) : bool :=
  match k, s with
  | S k', String c rest => high_byte c && high_prefix k' rest
  | _, _ => true
  end.

(** ** Sample data *)

Definition dbConfig : ConfigMap :=
  <["host" := "db.internal"]> (<["port" := "5432"]> (<["user" := "etl"]>
    (<["password" := "secret"]> (<["database" := "sales"]> ∅)))).

Definition lakeConfig : ConfigMap :=
  <["catalog" := "main"]> (<["table" := "events"]> (<["warehouse" := "s3://lake"]> ∅)).

Definition nightly_sync : Config := mkConfig "nightly-sync" "mysql" dbConfig "postgres" dbConfig.

Definition lake_copy : Config := mkConfig "lake-copy" "iceberg" lakeConfig "iceberg" lakeConfig.

Definition blank_name : Config := mkConfig " " "mysql" dbConfig "postgres" dbConfig.

Definition hourly_sync : Config := mkConfig "hourly-sync" "postgres" dbConfig "mysql" dbConfig.

(** [nightly_sync] with the password left out of the source configuration. *)
Definition no_password : Config :=
  mkConfig "nightly-sync" "mysql" (delete "password" dbConfig) "postgres" dbConfig.


(** * Properties *)

(** ** The run always comes to an end *)

Ltac unfold_threads :=
  unfold set_in, set_tee, set_main, producer_done, producer_exit, producer_wake,
    Tee_receive, Tee_fn, Tee_send, Tee_close, Load_enter, consumeTransfer_done,
    consumeTransfer_receive, consumeTransfer_closed, consumeTransfer, Run_read, Tee.

Ltac ltb_props :=
  repeat match goal with
  | H : (_ <? _) = true |- _ => apply Z.ltb_lt in H
  | H : (_ <? _) = false |- _ => apply Z.ltb_ge in H
  end.

Ltac step_in H :=
  try discriminate H;
  repeat match type of H with
  | context [match ?x with _ => _ end] => destruct x eqn:?; simpl in H; try discriminate H
  end;
  try (injection H as H; subst);
  repeat match goal with
  | E : ?lhs = Some _ |- _ =>
    match lhs with
    | context [match ?x with _ => _ end] => destruct x eqn:?; simpl in E; try discriminate E
    end
  | E : Some _ = Some _ |- _ => injection E as E; subst
  end.

Lemma step_weight a st st' : step a st = Some st' -> (weight st' < weight st)%nat.
Proof.
  destruct st as [ctx [n pc] tee counter main load sent fwd].
  destruct a; unfold step, producer_send, weight, producer_weight; unfold_threads; simpl;
    intros H; step_in H; simpl; ltb_props; lia.
Qed.

Lemma step_progress st :
  finished st = None -> exists a st', is_Cancel a = false /\ step a st = Some st'.
Proof.
  destruct st as [ctx [n pc] tee counter main load sent fwd].
  unfold finished; simpl. intros Hmain.
  destruct main as [| |e|c e]; [| | |discriminate].
  - exists LoadEnter. destruct load; eexists; split; reflexivity.
  - destruct tee as [|row|row|].
    + destruct pc as [i|i|].
      * destruct (i <? n) eqn:Hi.
        -- exists ProducerSend. eexists. split; [reflexivity|].
           unfold step, producer_send; simpl. rewrite Hi. reflexivity.
        -- exists ProducerExit. eexists. split; [reflexivity|].
           unfold step, producer_exit; simpl. rewrite Hi. reflexivity.
      * exists ProducerWake. eexists. split; reflexivity.
      * exists TeeClose. eexists. split; reflexivity.
    + exists TeeCall. eexists. split; reflexivity.
    + exists TeeSend. eexists. split; reflexivity.
    + exists LoadEOF. eexists. split; reflexivity.
  - exists RunRead. eexists. split; reflexivity.
Qed.

Lemma must_finish st : MustFinish st.
Proof.
  remember (weight st) as w eqn:Hw.
  revert st Hw. induction w as [w IH] using lt_wf_ind. intros st ->.
  destruct (finished st) eqn:Hfin.
  - apply MF_done. eauto.
  - apply MF_step.
    + apply step_progress, Hfin.
    + intros a st' Hstep. eapply IH; [|reflexivity].
      eapply step_weight, Hstep.
Qed.

(** A state from which the run must finish has a schedule that finishes. *)
Lemma must_finish_schedule st :
  MustFinish st -> exists sched out, exec sched st ≫= finished = Some out.
Proof.
  induction 1 as [st [out Hout]|st [a [st' [_ Hstep]]] _ IH].
  - exists [], out. simpl. exact Hout.
  - destruct (IH a st' Hstep) as [sched [out Hout]].
    exists (a :: sched), out. simpl. rewrite Hstep. exact Hout.
Qed.

(** ** What every state of a run satisfies *)

Lemma rows_snoc k : rows (S k) = (rows k ++ [row_at (Z.of_nat k)])%list.
Proof. unfold rows. rewrite seq_S, map_app. reflexivity. Qed.

Lemma start_inv ctx n load : Inv n (start ctx (simulateTransfer n) load).
Proof.
  constructor; simpl; try reflexivity; try discriminate; try exact I.
  unfold sent_count; simpl. lia.
Qed.

Lemma producer_send_inv m pc row ch :
  producer_send (mkChan m pc) = Some (row, ch) ->
  exists i, pc = PSelect i /\ i < m /\ row = row_at i /\ ch = mkChan m (PSleep i).
Proof.
  unfold producer_send; simpl. destruct pc as [i|i|]; try discriminate.
  destruct (Z.ltb_spec i m); [|discriminate].
  intros [= <- <-]. eauto.
Qed.

Lemma step_inv n a st st' : Inv n st -> step a st = Some st' -> Inv n st'.
Proof.
  destruct st as [ctx [m pc] tee counter main load sent fwd].
  intros [Hrec Hsent Hcnt Hrows Hpc Htee Hmain]; simpl in *.
  unfold sent_count, fwd_count in *; simpl in *.
  destruct a; unfold step; unfold_threads; simpl; intros H.
  2: { destruct (producer_send _) as [[row ch]|] eqn:Hsend; [|discriminate].
       destruct tee; try discriminate.
       apply producer_send_inv in Hsend as (i & -> & Hi & -> & ->).
       injection H as <-. simpl in *. destruct Hpc as [-> Hle].
       rewrite app_nil_r in Hsent. subst fwd.
       constructor; unfold sent_count, fwd_count in *; simpl;
         rewrite ?length_app; simpl; try solve [auto | discriminate | lia].
       - rewrite Nat.add_1_r, rows_snoc. congruence.
       - unfold returned_ok in *.
         destruct main as [| |[e|]|c [e|]]; simpl in *; naive_solver. }
  all: step_in H; ltb_props;
    constructor; unfold sent_count, fwd_count, returned_ok in *; simpl in *; subst;
    rewrite ?length_app, ?app_nil_r in *; simpl in *;
    try solve [ auto | discriminate | lia
              | intuition (try discriminate; try congruence; try lia)
              | naive_solver lia ].
  all: repeat match goal with
       | |- context [match ?x with _ => _ end] => is_var x; destruct x
       end; simpl in *; try solve [naive_solver lia].
  destruct tee; simpl; naive_solver lia.
Qed.

Lemma exec_inv n sched : forall st st', Inv n st -> exec sched st = Some st' -> Inv n st'.
Proof.
  induction sched as [|a sched IH]; simpl; intros st st' Hinv H.
  - injection H as <-. exact Hinv.
  - destruct (step a st) as [st1|] eqn:Hstep; [|discriminate].
    eapply IH; [|exact H]. eapply step_inv; eauto.
Qed.

Lemma exec_app s1 s2 st :
  exec (s1 ++ s2) st = exec s1 st ≫= exec s2.
Proof.
  revert st. induction s1 as [|a s1 IH]; simpl; intros st; [reflexivity|].
  destruct (step a st); simpl; auto.
Qed.

(** Only [Cancel] ends the context, and nothing revives it. *)
Lemma step_ctx a st st' :
  step a st = Some st' -> is_Cancel a = false -> rs_ctx st' = rs_ctx st.
Proof.
  destruct st as [ctx [m pc] tee counter main load sent fwd].
  destruct a; unfold step, producer_send; unfold_threads; simpl; intros H Ha;
    try discriminate Ha;
    step_in H; reflexivity.
Qed.

Lemma exec_ctx sched : forall st st',
  exec sched st = Some st' -> uncancelled sched -> rs_ctx st' = rs_ctx st.
Proof.
  unfold uncancelled.
  induction sched as [|a sched IH]; simpl; intros st st' H Hun.
  - injection H as <-. reflexivity.
  - destruct (step a st) as [st1|] eqn:Hstep; [|discriminate].
    apply andb_true_iff in Hun as [Ha Hun].
    rewrite (IH _ _ H Hun). eapply step_ctx; eauto.
    destruct (is_Cancel a); [discriminate|reflexivity].
Qed.

Lemma step_load a st st' : step a st = Some st' -> rs_load st' = rs_load st.
Proof.
  destruct st as [ctx [m pc] tee counter main load sent fwd].
  destruct a; unfold step, producer_send; unfold_threads; simpl; intros H; step_in H;
    reflexivity.
Qed.

Lemma exec_load sched : forall st st',
  exec sched st = Some st' -> rs_load st' = rs_load st.
Proof.
  induction sched as [|a sched IH]; simpl; intros st st' H.
  - injection H as <-. reflexivity.
  - destruct (step a st) as [st1|] eqn:Hstep; [|discriminate].
    rewrite (IH _ _ H). eapply step_load; eauto.
Qed.

(** The count [Run] reads and the error of [Load], in any run at all. *)
Lemma outcome_bounds n ctx load sched st c e :
  exec sched (start ctx (simulateTransfer n) load) = Some st ->
  finished st = Some (c, e) ->
  fwd_count st <= c <= fwd_count st + 1 /\ c <= Z.max 0 n /\ returned_ok st e
  /\ (e = None -> c = fwd_count st).
Proof.
  intros Hexec Hfin.
  pose proof (exec_inv n _ _ _ (start_inv ctx n load) Hexec)
    as [Hrec Hsent Hcnt Hrows Hpc Htee Hmain].
  unfold finished in Hfin. destruct (rs_main st) as [| |?|c' e'] eqn:Hm; try discriminate.
  injection Hfin as -> ->. destruct Hmain as [Hret Hc].
  assert (Hlen : sent_count st <= Z.max 0 n).
  { destruct (chan_pc (rs_in st)); lia. }
  assert (Hsf : sent_count st = fwd_count st + Z.of_nat (length (held (rs_tee st)))).
  { unfold sent_count, fwd_count. rewrite Hsent, length_app. lia. }
  repeat split; auto.
  - destruct Hc as [->|[-> _]]; lia.
  - destruct Hc as [->|[-> _]]; lia.
  - destruct Hc as [->|[-> [row Hrow]]]; [lia|].
    rewrite Hrow in Hsf. simpl in Hsf. lia.
  - intros ->. destruct Hret as [Hclosed _].
    destruct Hc as [->|[_ [row Hrow]]]; [reflexivity|congruence].
Qed.

(** With a configuration the destination accepts and a context that never
    ends, [Load] returns [nil] and the count is the sample size. *)
Lemma outcome_uncancelled n sched st c e :
  exec sched (start None (simulateTransfer n) ConsumeTransfer) = Some st ->
  uncancelled sched ->
  finished st = Some (c, e) ->
  c = Z.max 0 n /\ e = None.
Proof.
  intros Hexec Hun Hfin.
  pose proof (exec_ctx _ _ _ Hexec Hun) as Hctx. simpl in Hctx.
  pose proof (exec_load _ _ _ Hexec) as Hload. simpl in Hload.
  pose proof (exec_inv n _ _ _ (start_inv None n ConsumeTransfer) Hexec)
    as [Hrec Hsent Hcnt Hrows Hpc Htee Hmain].
  unfold finished in Hfin. destruct (rs_main st) as [| |?|c' e'] eqn:Hm; try discriminate.
  injection Hfin as -> ->. destruct Hmain as [Hret Hc].
  destruct e as [msg|]; simpl in Hret.
  { destruct Hret as [Hl|[cause [Hc' _]]]; congruence. }
  destruct Hret as [Hclosed _]. split; [|reflexivity].
  rewrite (Htee Hclosed) in Hpc. destruct Hpc as [_ Hall].
  specialize (Hall Hctx).
  destruct Hc as [->|[_ [row Hrow]]]; [|congruence].
  rewrite <- Hall. unfold sent_count, fwd_count.
  rewrite Hsent, Hclosed. simpl. rewrite app_nil_r. reflexivity.
Qed.

(** The lockstep schedule is a complete run. *)
Lemma lockstep_round k n (st : RunState) :
  rs_tee st = TRange -> rs_main st = LSelect ->
  rs_in st = mkChan n (PSelect k) -> k < n ->
  exists st', exec [ProducerSend; TeeCall; TeeSend; ProducerWake] st = Some st'
    /\ rs_tee st' = TRange /\ rs_main st' = LSelect
    /\ rs_in st' = mkChan n (PSelect (k + 1)) /\ rs_ctx st' = rs_ctx st.
Proof.
  destruct st as [ctx ch tee counter main load sent fwd]; simpl.
  intros -> -> -> Hk.
  unfold exec, step, producer_send; unfold_threads; simpl.
  destruct (Z.ltb_spec k n); [|lia]. simpl.
  eexists. split; [reflexivity|]. simpl. auto.
Qed.

Lemma lockstep_rounds j : forall k n (st : RunState),
  rs_tee st = TRange -> rs_main st = LSelect ->
  rs_in st = mkChan n (PSelect k) -> k + Z.of_nat j <= n ->
  exists st',
    exec (concat (repeat [ProducerSend; TeeCall; TeeSend; ProducerWake] j)) st = Some st'
    /\ rs_tee st' = TRange /\ rs_main st' = LSelect
    /\ rs_in st' = mkChan n (PSelect (k + Z.of_nat j)) /\ rs_ctx st' = rs_ctx st.
Proof.
  induction j as [|j IH]; intros k n st Ht Hm Hi Hk.
  - exists st. simpl. rewrite Z.add_0_r. auto.
  - destruct (lockstep_round k n st Ht Hm Hi) as (st1 & He1 & Ht1 & Hm1 & Hi1 & Hc1); [lia|].
    destruct (IH (k + 1) n st1 Ht1 Hm1 Hi1) as (st2 & He2 & Ht2 & Hm2 & Hi2 & Hc2); [lia|].
    exists st2. change (repeat ?x (S j)) with (x :: repeat x j).
    rewrite concat_cons, exec_app, He1. simpl.
    repeat split; auto; [|congruence].
    rewrite Hi2. f_equal. f_equal. lia.
Qed.

Lemma lockstep_finishes ctx n :
  0 <= n ->
  exists out,
    exec (lockstep (Z.to_nat n)) (start ctx (simulateTransfer n) ConsumeTransfer) ≫= finished
    = Some out.
Proof.
  intros Hn. unfold lockstep.
  change (LoadEnter :: ?l) with ([LoadEnter] ++ l)%list.
  set (st1 := mkRunState ctx (mkChan n (PSelect 0)) TRange 0 LSelect ConsumeTransfer [] []).
  destruct (lockstep_rounds (Z.to_nat n) 0 n st1) as (st & He & Ht & Hm & Hi & Hc);
    [reflexivity | reflexivity | reflexivity | lia |].
  rewrite (exec_app [LoadEnter]).
  change (exec [LoadEnter] (start ctx (simulateTransfer n) ConsumeTransfer)) with (Some st1).
  change (Some st1 ≫= ?f) with (f st1). cbv beta.
  rewrite exec_app, He.
  change (Some st ≫= ?f) with (f st). cbv beta.
  destruct st as [ctx' ch tee counter main load sent fwd]; simpl in *. subst.
  unfold step; unfold_threads; simpl.
  destruct (Z.ltb_spec (0 + Z.of_nat (Z.to_nat n)) n); [lia|]. simpl.
  eexists. reflexivity.
Qed.

(** ** The registries *)

Lemma registerSources_lookup items : forall m name s,
  registerSources items m !! name = Some s ->
  (s ∈ items /\ Connector_Name (Source_Info s) = name) \/ m !! name = Some s.
Proof.
  unfold registerSources.
  induction items as [|item items IH]; simpl; intros m name s H; [auto|].
  destruct (IH _ _ _ H) as [[Hin Hname]|Hm].
  - left. split; [right; exact Hin|exact Hname].
  - apply lookup_insert_Some in Hm as [[<- <-]|[_ Hm]].
    + left. split; [left|reflexivity].
    + right. exact Hm.
Qed.

Lemma registerDestinations_lookup items : forall m name d,
  registerDestinations items m !! name = Some d ->
  (d ∈ items /\ Connector_Name (Destination_Info d) = name) \/ m !! name = Some d.
Proof.
  unfold registerDestinations.
  induction items as [|item items IH]; simpl; intros m name d H; [auto|].
  destruct (IH _ _ _ H) as [[Hin Hname]|Hm].
  - left. split; [right; exact Hin|exact Hname].
  - apply lookup_insert_Some in Hm as [[<- <-]|[_ Hm]].
    + left. split; [left|reflexivity].
    + right. exact Hm.
Qed.

Ltac pick_item H :=
  repeat (apply elem_of_cons in H as [->|H]); [..|apply elem_of_nil in H; contradiction].

(** Every source of a registry the repository builds is registered under
    its own name, has kind [source], checks its required fields and
    extracts its sample size. *)
Lemma shipped_source reg name src :
  shipped reg -> SourceByName reg name = Ok src ->
  Connector_Name (Source_Info src) = name
  /\ exists required, source_shape required (sample_size name) src.
Proof.
  unfold SourceByName.
  intros Hreg H. destruct (sources reg !! name) as [s|] eqn:Hs; [|discriminate].
  injection H as ->.
  destruct Hreg as [-> | ->];
    unfold typed.NewRegistry, simple.NewRegistry in Hs; cbn [sources] in Hs;
    apply registerSources_lookup in Hs as [[Hin Hname]|Hs];
    try (rewrite lookup_empty in Hs; discriminate);
    (split; [exact Hname|]); subst name;
    pick_item Hin;
    eexists; (split; [reflexivity|split; intros c; reflexivity]).
Qed.

(** Likewise for destinations; none of them is called iceberg. *)
Lemma shipped_destination reg name dst :
  shipped reg -> DestinationByName reg name = Ok dst ->
  Connector_Name (Destination_Info dst) = name
  /\ name <> "iceberg"
  /\ exists required, destination_shape required dst.
Proof.
  unfold DestinationByName.
  intros Hreg H. destruct (destinations reg !! name) as [d|] eqn:Hd; [|discriminate].
  injection H as ->.
  destruct Hreg as [-> | ->];
    unfold typed.NewRegistry, simple.NewRegistry in Hd; cbn [destinations] in Hd;
    apply registerDestinations_lookup in Hd as [[Hin Hname]|Hd];
    try (rewrite lookup_empty in Hd; discriminate);
    (split; [exact Hname|]); subst name;
    pick_item Hin;
    (split; [discriminate|]);
    eexists; (split; [reflexivity|split; intros c; reflexivity]).
Qed.

Lemma shipped_no_iceberg_destination reg :
  shipped reg -> DestinationByName reg "iceberg" = Err "unknown destination connector iceberg".
Proof.
  intros Hreg. destruct (DestinationByName reg "iceberg") as [d|msg] eqn:H.
  - apply shipped_destination in H as (_ & Hne & _); [contradiction|exact Hreg].
  - unfold DestinationByName in H.
    destruct (destinations reg !! "iceberg"); [discriminate|].
    injection H as <-. reflexivity.
Qed.

Lemma shipped_iceberg_source reg :
  shipped reg -> exists src, SourceByName reg "iceberg" = Ok src.
Proof. intros [-> | ->]; eexists; reflexivity. Qed.

(** Connectors resolved from such a registry always pair. *)
Lemma shipped_pair reg sname dname src dst :
  shipped reg ->
  SourceByName reg sname = Ok src -> DestinationByName reg dname = Ok dst ->
  ValidateConnectorPair (Source_Info src) (Destination_Info dst) = None.
Proof.
  intros Hreg Hs Hd.
  apply shipped_source in Hs as (Hsn & req & Hst & _); [|exact Hreg].
  apply shipped_destination in Hd as (Hdn & Hne & reqd & Hdt & _); [|exact Hreg].
  unfold ValidateConnectorPair. rewrite Hst, Hdt, Hsn, Hdn. simpl.
  destruct (String.eqb_spec sname dname) as [->|]; [|reflexivity].
  destruct (String.eqb_spec dname "iceberg"); [contradiction|reflexivity].
Qed.

(** The required-fields loop fails exactly with the first absent or empty
    field. *)
Lemma simulateValidation_Some required config msg :
  simulateValidation required config = Some msg ->
  exists key, key ∈ required /\ config_get config key = "" /\ msg = missing_field key.
Proof.
  induction required as [|k rest IH]; simpl; [discriminate|].
  destruct (String.eqb_spec (config_get config k) "") as [He|Hne].
  - intros [= <-]. exists k. split; [left|split; [exact He|reflexivity]].
  - intros H. destruct (IH H) as (key & Hin & Hget & Hmsg).
    exists key. split; [right; exact Hin|auto].
Qed.

Lemma simulateValidation_None required config :
  simulateValidation required config = None <->
  forall key, key ∈ required -> config_get config key <> "".
Proof.
  induction required as [|k rest IH]; simpl.
  - split; [intros _ key H; apply elem_of_nil in H; contradiction|reflexivity].
  - destruct (String.eqb_spec (config_get config k) "") as [He|Hne].
    + split; [discriminate|]. intros H. exfalso. apply (H k); [left|exact He].
    + rewrite IH. split.
      * intros H key Hin. apply elem_of_cons in Hin as [->|Hin]; auto.
      * intros H key Hin. apply H. right. exact Hin.
Qed.

(** ** The pairing rule *)

(** The pairing check accepts iceberg as a destination as long as the
    source has another name: here a mysql source. *)
Lemma pairing_accepts_iceberg_destination :
  let src := mkConnector "mysql" SourceType "High-speed MySQL binlog reader" true 8 in
  let dst := mkConnector "iceberg" DestinationType "Iceberg table writer" false 6 in
  Connector_Type src = SourceType /\ Connector_Type dst = DestinationType
  /\ Connector_Name dst = "iceberg" /\ Connector_Name src <> "iceberg"
  /\ ValidateConnectorPair src dst = None.
Proof. repeat split. discriminate. Qed.

(** The three ways out of [ValidateConnectorPair]. *)
Lemma ValidateConnectorPair_cases src dst :
  ValidateConnectorPair src dst =
    (if decide (Connector_Type src <> SourceType \/ Connector_Type dst <> DestinationType)
     then Some "invalid connector pairing"
     else if decide (Connector_Name src = "iceberg" /\ Connector_Name dst = "iceberg")
     then Some "iceberg cannot be a destination"
     else None).
Proof.
  unfold ValidateConnectorPair.
  destruct (String.eqb_spec (Connector_Type src) SourceType) as [Hs|Hs];
    destruct (String.eqb_spec (Connector_Type dst) DestinationType) as [Hd|Hd]; simpl;
    try (rewrite decide_True by tauto; reflexivity).
  rewrite decide_False by tauto.
  destruct (String.eqb_spec (Connector_Name src) (Connector_Name dst)) as [He|He];
    destruct (String.eqb_spec (Connector_Name src) "iceberg") as [Hi|Hi]; simpl.
  - rewrite decide_True; [reflexivity|]. split; congruence.
  - rewrite decide_False; [reflexivity|]. tauto.
  - rewrite decide_False; [reflexivity|]. intros [? ?]. congruence.
  - rewrite decide_False; [reflexivity|]. tauto.
Qed.

(** C2, as amended: [ValidateConnectorPair] fails exactly when the source
    is not of kind source, or the destination is not of kind destination,
    or both descriptors are named iceberg; on every other pair it returns
    no error. A wrong kind gives "invalid connector pairing", the iceberg
    pair gives "iceberg cannot be a destination". *)
Theorem ValidateConnectorPair_spec src dst :
  (is_Some (ValidateConnectorPair src dst) <->
     Connector_Type src <> SourceType \/ Connector_Type dst <> DestinationType
     \/ (Connector_Name src = "iceberg" /\ Connector_Name dst = "iceberg"))
  /\ (ValidateConnectorPair src dst = Some "invalid connector pairing" <->
       Connector_Type src <> SourceType \/ Connector_Type dst <> DestinationType)
  /\ (ValidateConnectorPair src dst = Some "iceberg cannot be a destination" <->
       Connector_Type src = SourceType /\ Connector_Type dst = DestinationType
       /\ Connector_Name src = "iceberg" /\ Connector_Name dst = "iceberg").
Proof.
  rewrite ValidateConnectorPair_cases.
  destruct (String.eqb_spec (Connector_Type src) SourceType);
    destruct (String.eqb_spec (Connector_Type dst) DestinationType);
    repeat case_decide; rewrite ?is_Some_alt;
    repeat split; try tauto; try discriminate; intuition congruence.
Qed.

(** ** Creating pipelines *)

Lemma TrimSpace_empty : strings_TrimSpace "" = "".
Proof. reflexivity. Qed.

Lemma TrimSpace_examples :
  strings_TrimSpace "  nightly sync " = "nightly sync"
  /\ strings_TrimSpace (String (ascii_of_nat 9) (String (ascii_of_nat 10) " ")) = ""
  /\ strings_TrimSpace (String (ascii_of_nat 194) (String (ascii_of_nat 160) "x")) = "x"
  /\ strings_TrimSpace (String (ascii_of_nat 194) "x") = String (ascii_of_nat 194) "x".
Proof. repeat split. Qed.

Lemma TrimSpace_nonempty name : strings_TrimSpace name <> "" -> name <> "".
Proof. intros H ->. apply H, TrimSpace_empty. Qed.

Lemma invalid_pairing_cases e :
  invalid_pairing e -> e <> Some "unknown destination connector iceberg".
Proof. intros [-> | ->]; discriminate. Qed.

(** Creating the iceberg-to-iceberg pipeline fails in the destination
    lookup, not in the pairing check. *)
Lemma create_iceberg_pair_is_unknown_destination :
  fst (inline.Create lake_copy (NewService simple.NewRegistry))
    = Some "unknown destination connector iceberg"
  /\ fst (refactored.Create lake_copy (NewService typed.NewRegistry))
    = Some "unknown destination connector iceberg"
  /\ ~ invalid_pairing (fst (inline.Create lake_copy (NewService simple.NewRegistry)))
  /\ ~ invalid_pairing (fst (refactored.Create lake_copy (NewService typed.NewRegistry))).
Proof.
  assert (H1 : fst (inline.Create lake_copy (NewService simple.NewRegistry))
               = Some "unknown destination connector iceberg") by reflexivity.
  assert (H2 : fst (refactored.Create lake_copy (NewService typed.NewRegistry))
               = Some "unknown destination connector iceberg") by reflexivity.
  repeat split; auto; intros H; apply invalid_pairing_cases in H; congruence.
Qed.

(** C1, as amended: with source and destination both "iceberg", [Create]
    fails and leaves the service as it was, so no entry is added under the
    name. The error is the unknown-connector error of the destination
    lookup, since no destination is registered as iceberg; unless the name
    is rejected first, which the one variant does for a name that is blank
    after trimming and the other for the empty name. *)
Theorem create_iceberg_pair_rejected reg st cfg :
  shipped reg ->
  Config_SourceType cfg = "iceberg" ->
  Config_DestType cfg = "iceberg" ->
  let svc := mkService reg st in
  refactored.Create cfg svc =
    (Some (if String.eqb (strings_TrimSpace (Config_Name cfg)) ""
           then "pipeline name is required"
           else "unknown destination connector iceberg"), svc)
  /\ inline.Create cfg svc =
    (Some (if String.eqb (Config_Name cfg) ""
           then "pipeline name is required"
           else "unknown destination connector iceberg"), svc).
Proof.
  intros Hreg Hs Hd svc.
  destruct (shipped_iceberg_source reg Hreg) as [src Hsrc].
  pose proof (shipped_no_iceberg_destination reg Hreg) as Hdst.
  split.
  - unfold refactored.Create, refactored.validatePipelineName.
    destruct (String.eqb _ ""); [reflexivity|].
    unfold refactored.connectorsFor, bind, get_registry, ret; simpl.
    rewrite Hs, Hd, Hsrc, Hdst. reflexivity.
  - unfold inline.Create.
    destruct (String.eqb _ ""); [reflexivity|].
    unfold bind, get_registry, ret; simpl.
    rewrite Hs, Hd, Hsrc, Hdst. reflexivity.
Qed.

Lemma create_iceberg_pair_rejected_witness :
  refactored.Create lake_copy (mkService typed.NewRegistry ∅) =
    (Some "unknown destination connector iceberg", mkService typed.NewRegistry ∅)
  /\ inline.Create lake_copy (mkService typed.NewRegistry ∅) =
    (Some "unknown destination connector iceberg", mkService typed.NewRegistry ∅).
Proof.
  apply (create_iceberg_pair_rejected typed.NewRegistry ∅ lake_copy);
    [left; reflexivity | reflexivity | reflexivity].
Defined.

Lemma source_shape_missing required n src config :
  source_shape required n src -> Source_Validate src config <> None ->
  exists key, config_get config key = "" /\ Source_Validate src config = Some (missing_field key).
Proof.
  intros (_ & Hv & _) Hne. rewrite Hv in *.
  destruct (simulateValidation required config) as [msg|] eqn:H; [|contradiction].
  apply simulateValidation_Some in H as (key & _ & Hget & ->). eauto.
Qed.

Lemma destination_shape_missing required dst config :
  destination_shape required dst -> Destination_Validate dst config <> None ->
  exists key, config_get config key = ""
              /\ Destination_Validate dst config = Some (missing_field key).
Proof.
  intros (_ & Hv & _) Hne. rewrite Hv in *.
  destruct (simulateValidation required config) as [msg|] eqn:H; [|contradiction].
  apply simulateValidation_Some in H as (key & _ & Hget & ->). eauto.
Qed.

(** [connectorsFor] reads the registry and leaves the service alone. *)
Lemma connectorsFor_run cfg svc :
  refactored.connectorsFor cfg svc =
  (match SourceByName (registry svc) (Config_SourceType cfg) with
   | Err err => Err err
   | Ok src =>
     match DestinationByName (registry svc) (Config_DestType cfg) with
     | Err err => Err err
     | Ok dst =>
       match ValidateConnectorPair (Source_Info src) (Destination_Info dst) with
       | Some err => Err err
       | None => Ok (src, dst)
       end
     end
   end, svc).
Proof.
  unfold refactored.connectorsFor, bind, get_registry, ret.
  destruct (SourceByName _ _); [|reflexivity].
  destruct (DestinationByName _ _); [|reflexivity].
  destruct (ValidateConnectorPair _ _); reflexivity.
Qed.

(** [Create] unfolded into its checks, for either variant. *)
Lemma refactored_Create_run cfg svc :
  refactored.Create cfg svc =
  match refactored.validatePipelineName (Config_Name cfg) with
  | Some err => (Some err, svc)
  | None =>
    match SourceByName (registry svc) (Config_SourceType cfg) with
    | Err err => (Some err, svc)
    | Ok src =>
      match DestinationByName (registry svc) (Config_DestType cfg) with
      | Err err => (Some err, svc)
      | Ok dst =>
        match ValidateConnectorPair (Source_Info src) (Destination_Info dst) with
        | Some err => (Some err, svc)
        | None =>
          match Source_Validate src (Config_SourceConfig cfg) with
          | Some err => (Some err, svc)
          | None =>
            match Destination_Validate dst (Config_DestConfig cfg) with
            | Some err => (Some err, svc)
            | None => (None, mkService (registry svc) (<[Config_Name cfg := cfg]> (store svc)))
            end
          end
        end
      end
    end
  end.
Proof.
  unfold refactored.Create.
  destruct (refactored.validatePipelineName _); [reflexivity|].
  unfold bind. rewrite connectorsFor_run.
  destruct (SourceByName _ _); [|reflexivity].
  destruct (DestinationByName _ _); [|reflexivity].
  destruct (ValidateConnectorPair _ _); [reflexivity|].
  destruct (Source_Validate _ _); [reflexivity|].
  destruct (Destination_Validate _ _); reflexivity.
Qed.

Lemma inline_Create_run cfg svc :
  inline.Create cfg svc =
  if String.eqb (Config_Name cfg) "" then (Some "pipeline name is required", svc)
  else
    match SourceByName (registry svc) (Config_SourceType cfg) with
    | Err err => (Some err, svc)
    | Ok src =>
      match DestinationByName (registry svc) (Config_DestType cfg) with
      | Err err => (Some err, svc)
      | Ok dst =>
        match ValidateConnectorPair (Source_Info src) (Destination_Info dst) with
        | Some err => (Some err, svc)
        | None =>
          match Source_Validate src (Config_SourceConfig cfg) with
          | Some err => (Some err, svc)
          | None =>
            match Destination_Validate dst (Config_DestConfig cfg) with
            | Some err => (Some err, svc)
            | None => (None, mkService (registry svc) (<[Config_Name cfg := cfg]> (store svc)))
            end
          end
        end
      end
    end.
Proof.
  unfold inline.Create.
  destruct (String.eqb _ _); [reflexivity|].
  unfold bind, get_registry, ret.
  destruct (SourceByName _ _); [|reflexivity].
  destruct (DestinationByName _ _); [|reflexivity].
  destruct (ValidateConnectorPair _ _); [reflexivity|].
  destruct (Source_Validate _ _); [reflexivity|].
  destruct (Destination_Validate _ _); reflexivity.
Qed.

(** C7: with a name that is not blank and connectors that resolve and pair,
    a source or destination configuration that its connector does not
    accept makes [Create] fail with the missing-field error of an absent or
    empty key, and the service, its store included, is returned as it was:
    nothing is inserted or overwritten, and listing afterwards gives what
    it gave before. Both variants of [Create] agree. *)
Theorem create_missing_field_keeps_store reg st cfg src dst :
  shipped reg ->
  strings_TrimSpace (Config_Name cfg) <> "" ->
  SourceByName reg (Config_SourceType cfg) = Ok src ->
  DestinationByName reg (Config_DestType cfg) = Ok dst ->
  ValidateConnectorPair (Source_Info src) (Destination_Info dst) = None ->
  Source_Validate src (Config_SourceConfig cfg) <> None
    \/ Destination_Validate dst (Config_DestConfig cfg) <> None ->
  let svc := mkService reg st in
  exists key,
    (config_get (Config_SourceConfig cfg) key = ""
     \/ config_get (Config_DestConfig cfg) key = "")
    /\ refactored.Create cfg svc = (Some (missing_field key), svc)
    /\ inline.Create cfg svc = (Some (missing_field key), svc)
    /\ (forall order,
          refactored.List order (snd (refactored.Create cfg svc)) = refactored.List order svc)
    /\ (forall order,
          inline.List order (snd (inline.Create cfg svc)) = inline.List order svc).
Proof.
  intros Hreg Hname Hsrc Hdst Hpair Hbad svc.
  pose proof (TrimSpace_nonempty _ Hname) as Hname'.
  destruct (shipped_source _ _ _ Hreg Hsrc) as (_ & reqs & Hss).
  destruct (shipped_destination _ _ _ Hreg Hdst) as (_ & _ & reqd & Hds).
  assert (Hcreate : exists key,
    (config_get (Config_SourceConfig cfg) key = ""
     \/ config_get (Config_DestConfig cfg) key = "")
    /\ refactored.Create cfg svc = (Some (missing_field key), svc)
    /\ inline.Create cfg svc = (Some (missing_field key), svc)).
  { rewrite refactored_Create_run, inline_Create_run.
    unfold refactored.validatePipelineName. subst svc. cbn [registry].
    destruct (String.eqb_spec (strings_TrimSpace (Config_Name cfg)) ""); [contradiction|].
    destruct (String.eqb_spec (Config_Name cfg) ""); [contradiction|].
    rewrite Hsrc, Hdst, Hpair.
    destruct (Source_Validate src (Config_SourceConfig cfg)) as [msg|] eqn:Hsv.
    - destruct (source_shape_missing _ _ _ (Config_SourceConfig cfg) Hss) as (key & Hk & He);
        [congruence|].
      exists key. rewrite He in Hsv. injection Hsv as <-. auto.
    - destruct Hbad as [Hbad|Hbad]; [contradiction|].
      destruct (destination_shape_missing _ _ (Config_DestConfig cfg) Hds Hbad)
        as (key & Hk & He).
      exists key. rewrite He. auto. }
  destruct Hcreate as (key & Hk & HA & HB).
  exists key. rewrite HA, HB. auto.
Qed.

Lemma create_missing_field_keeps_store_witness :
  let svc := mkService typed.NewRegistry {["nightly-sync" := nightly_sync]} in
  exists key,
    (config_get (Config_SourceConfig no_password) key = ""
     \/ config_get (Config_DestConfig no_password) key = "")
    /\ refactored.Create no_password svc = (Some (missing_field key), svc)
    /\ inline.Create no_password svc = (Some (missing_field key), svc)
    /\ (forall order,
          refactored.List order (snd (refactored.Create no_password svc))
          = refactored.List order svc)
    /\ (forall order,
          inline.List order (snd (inline.Create no_password svc)) = inline.List order svc).
Proof.
  eapply (create_missing_field_keeps_store typed.NewRegistry _ no_password);
    [left; reflexivity | discriminate | reflexivity | reflexivity | reflexivity
    | left; discriminate].
Defined.

(** The password is the field reported for [no_password]. *)
Lemma create_no_password_error :
  fst (refactored.Create no_password (NewService simple.NewRegistry))
  = Some "missing required config password".
Proof. reflexivity. Qed.

(** Where the name is trimmed before it is tested, a blank name stops
    [Create] before anything else happens. *)
Lemma refactored_create_rejects_blank svc cfg :
  strings_TrimSpace (Config_Name cfg) = "" ->
  refactored.Create cfg svc = (Some "pipeline name is required", svc).
Proof.
  intros H. unfold refactored.Create, refactored.validatePipelineName.
  rewrite H. reflexivity.
Qed.

(** C8 at its failing input: the variant of [Create] that compares the name
    with the empty string only takes the name of one space, which is empty
    after trimming, and stores the definition under it; the variant with
    [validatePipelineName] rejects the same call. *)
Theorem inline_create_accepts_blank_name :
  let svc := NewService typed.NewRegistry in
  strings_TrimSpace (Config_Name blank_name) = ""
  /\ fst (inline.Create blank_name svc) = None
  /\ store (snd (inline.Create blank_name svc)) !! " " = Some blank_name
  /\ refactored.Create blank_name svc = (Some "pipeline name is required", svc).
Proof. repeat split. Qed.

(** ** Listing pipelines *)

Lemma leb_of_ltb_false a b : String.ltb a b = false -> String.leb b a = true.
Proof.
  unfold String.ltb, String.leb. rewrite (String.compare_antisym b a).
  destruct (String.compare a b); simpl; congruence.
Qed.

Lemma leb_of_ltb a b : String.ltb a b = true -> String.leb a b = true.
Proof.
  unfold String.ltb, String.leb. destruct (String.compare a b); congruence.
Qed.

Lemma leb_cases a b : String.leb a b = true <-> a = b \/ String_as_OT.lt a b.
Proof.
  unfold String.leb. split.
  - destruct (String.compare a b) eqn:H; [| |discriminate]; intros _.
    + left. apply String.compare_eq_iff, H.
    + right. apply String_as_OT.cmp_lt, H.
  - intros [->|H].
    + assert (String.compare b b = Eq) as -> by (apply String_as_OT.cmp_eq; reflexivity).
      reflexivity.
    + apply String_as_OT.cmp_lt in H.
      change String_as_OT.cmp with String.compare in H. rewrite H. reflexivity.
Qed.

Lemma leb_trans a b c :
  String.leb a b = true -> String.leb b c = true -> String.leb a c = true.
Proof.
  rewrite !leb_cases. intros [->|Hab] [->|Hbc]; auto.
  right. eapply String_as_OT.lt_trans; eauto.
Qed.

Lemma name_le_trans a b c : name_le a b -> name_le b c -> name_le a c.
Proof. unfold name_le. apply leb_trans. Qed.

Lemma sort_insert_perm {A} (less : A -> A -> bool) x l :
  sort_insert less x l ≡ₚ x :: l.
Proof.
  induction l as [|y l IH]; simpl; [reflexivity|].
  destruct (less x y); [reflexivity|].
  rewrite IH. apply Permutation_swap.
Qed.

Lemma sort_Slice_perm {A} (less : A -> A -> bool) l : sort_Slice less l ≡ₚ l.
Proof.
  induction l as [|x l IH]; simpl; [reflexivity|].
  rewrite sort_insert_perm, IH. reflexivity.
Qed.

Lemma sort_insert_sorted x l :
  sorted_by_name l -> sorted_by_name (sort_insert name_less x l).
Proof.
  unfold sorted_by_name.
  induction 1 as [|y l Hl IH Hy]; simpl.
  - repeat constructor.
  - destruct (name_less x y) eqn:Hxy.
    + apply leb_of_ltb in Hxy.
      constructor; [constructor; assumption|].
      constructor; [exact Hxy|].
      eapply Forall_impl; [exact Hy|]. intros z Hz. eapply name_le_trans; eauto.
    + apply leb_of_ltb_false in Hxy.
      constructor; [exact IH|].
      rewrite sort_insert_perm. constructor; assumption.
Qed.

Lemma sort_Slice_sorted l : sorted_by_name (sort_Slice name_less l).
Proof.
  induction l as [|x l IH]; simpl; [constructor|].
  apply sort_insert_sorted, IH.
Qed.

(** Ranging over the store in any order the runtime may choose visits
    every stored definition once. *)
Lemma omap_lookup_pairs (m : gmap string Config) (l : list (string * Config)) :
  (forall k c, (k, c) ∈ l -> m !! k = Some c) ->
  omap (fun k => m !! k) l.*1 = l.*2.
Proof.
  induction l as [|[k c] l IH]; simpl; intros H; [reflexivity|].
  rewrite (H k c) by left. f_equal. apply IH. intros k' c' Hin. apply H. right. exact Hin.
Qed.

Lemma store_range_perm (m : gmap string Config) order :
  iteration_order m order ->
  omap (fun k => m !! k) order ≡ₚ (map_to_list m).*2.
Proof.
  intros [Hnd Hin].
  assert (Hp : order ≡ₚ (map_to_list m).*1).
  { apply NoDup_Permutation; [exact Hnd|apply NoDup_fst_map_to_list|].
    intros k. rewrite Hin. rewrite list_elem_of_fmap. split.
    - intros [c Hc]. exists (k, c). split; [reflexivity|].
      apply elem_of_map_to_list, Hc.
    - intros [[k' c] [-> Hc]]. apply elem_of_map_to_list in Hc. eauto. }
  rewrite Hp. rewrite omap_lookup_pairs; [reflexivity|].
  intros k c. apply elem_of_map_to_list.
Qed.

(** Where [List] sorts: whatever order the runtime ranges over the store
    in, the result holds each stored definition once, is in ascending order
    of name, and the service is returned as it was. *)
Lemma refactored_List_sorted svc order :
  iteration_order (store svc) order ->
  snd (refactored.List order svc) = svc
  /\ fst (refactored.List order svc) ≡ₚ (map_to_list (store svc)).*2
  /\ sorted_by_name (fst (refactored.List order svc)).
Proof.
  intros Hord. unfold refactored.List, bind, store_range, ret; simpl.
  split; [reflexivity|]. split.
  - rewrite sort_Slice_perm. apply store_range_perm, Hord.
  - apply sort_Slice_sorted.
Qed.

(** A list without repeated names has one ascending arrangement. *)
Lemma sorted_perm_unique l1 : forall l2,
  sorted_by_name l1 -> sorted_by_name l2 -> l1 ≡ₚ l2 ->
  NoDup (Config_Name <$> l1) -> l1 = l2.
Proof.
  unfold sorted_by_name.
  induction l1 as [|x l1 IH]; intros l2 H1 H2 Hp Hnd.
  - apply Permutation_nil in Hp. congruence.
  - destruct l2 as [|y l2]; [apply Permutation_sym, Permutation_nil in Hp; discriminate|].
    apply StronglySorted_inv in H1 as [H1 Hx].
    apply StronglySorted_inv in H2 as [H2 Hy].
    rewrite fmap_cons in Hnd. apply NoDup_cons in Hnd as [Hxn Hnd].
    assert (Hxy : x = y).
    { assert (Hin1 : x ∈ y :: l2) by (rewrite <- Hp; left).
      assert (Hin2 : y ∈ x :: l1) by (rewrite Hp; left).
      apply elem_of_cons in Hin1 as [Hin1|Hin1]; [exact Hin1|].
      apply elem_of_cons in Hin2 as [Hin2|Hin2]; [congruence|].
      rewrite Forall_forall in Hx, Hy.
      pose proof (Hx y Hin2) as Hle1. pose proof (Hy x Hin1) as Hle2.
      unfold name_le in Hle1, Hle2.
      pose proof (String.leb_antisym _ _ Hle1 Hle2) as Hname.
      exfalso. apply Hxn. rewrite Hname. apply list_elem_of_fmap. eauto. }
    subst y. f_equal. apply IH; auto.
    eapply Permutation_cons_inv, Hp.
Qed.

Lemma keyed_names (m : gmap string Config) :
  keyed m -> Config_Name <$> (map_to_list m).*2 = (map_to_list m).*1.
Proof.
  intros Hk.
  assert (H : forall l : list (string * Config),
            (forall k c, (k, c) ∈ l -> Config_Name c = k) -> Config_Name <$> l.*2 = l.*1).
  { induction l as [|[k c] l IH]; simpl; intros Hl; [reflexivity|].
    rewrite (Hl k c) by left. f_equal. apply IH. intros k' c' Hin. apply Hl. right. exact Hin. }
  apply H. intros k c Hin. apply Hk. apply elem_of_map_to_list, Hin.
Qed.

(** On a store where every definition sits under its own name, the [List]
    that sorts returns the same list whatever the order of iteration. *)
Lemma refactored_List_order_independent svc o1 o2 :
  keyed (store svc) ->
  iteration_order (store svc) o1 -> iteration_order (store svc) o2 ->
  fst (refactored.List o1 svc) = fst (refactored.List o2 svc).
Proof.
  intros Hk H1 H2.
  destruct (refactored_List_sorted svc o1 H1) as (_ & Hp1 & Hs1).
  destruct (refactored_List_sorted svc o2 H2) as (_ & Hp2 & Hs2).
  apply sorted_perm_unique; auto.
  - rewrite Hp1, Hp2. reflexivity.
  - rewrite Hp1, keyed_names by exact Hk. apply NoDup_fst_map_to_list.
Qed.

(** [Create] keeps every definition under its own name. *)
Lemma Create_keyed cfg svc :
  keyed (store svc) ->
  keyed (store (snd (refactored.Create cfg svc)))
  /\ keyed (store (snd (inline.Create cfg svc))).
Proof.
  intros Hk.
  assert (Hins : keyed (<[Config_Name cfg := cfg]> (store svc))).
  { intros k c Hl. apply lookup_insert_Some in Hl as [[<- <-]|[_ Hl]]; auto. }
  rewrite refactored_Create_run, inline_Create_run. split.
  - repeat match goal with
    | |- context [match ?x with _ => _ end] => destruct x
    end; simpl; auto.
  - repeat match goal with
    | |- context [match ?x with _ => _ end] => destruct x
    | |- context [if ?x then _ else _] => destruct x
    end; simpl; auto.
Qed.

Lemma two_sorted (a b : Config) : sorted_by_name [a; b] -> name_le a b.
Proof.
  intros H. apply StronglySorted_inv in H as [_ H].
  apply Forall_cons in H as [H _]. exact H.
Qed.

(** C9 at its failing input: after creating nightly-sync and hourly-sync,
    the variant of [List] that returns the definitions as it ranges over
    the store gives them out of order when the runtime visits nightly-sync
    first; the variant that sorts does not depend on that order. *)
Theorem inline_list_follows_iteration_order :
  let svc0 := NewService simple.NewRegistry in
  let svc := snd (inline.Create hourly_sync (snd (inline.Create nightly_sync svc0))) in
  let order := ["nightly-sync"; "hourly-sync"] in
  iteration_order (store svc) order
  /\ inline.List order svc = ([nightly_sync; hourly_sync], svc)
  /\ ~ sorted_by_name (fst (inline.List order svc))
  /\ fst (refactored.List order svc) = [hourly_sync; nightly_sync].
Proof.
  intros svc0 svc order.
  assert (Hstore : store svc
    = <["hourly-sync" := hourly_sync]> (<["nightly-sync" := nightly_sync]> ∅))
    by reflexivity.
  split; [|split; [reflexivity|split; [|reflexivity]]].
  - split.
    + repeat constructor; set_solver.
    + intros k. rewrite Hstore.
      rewrite !lookup_insert_is_Some, lookup_empty, is_Some_alt.
      unfold order. rewrite !elem_of_cons, elem_of_nil. naive_solver.
  - intros H. apply two_sorted in H. discriminate H.
Qed.

(** ** Running pipelines *)

(** [Run] up to the start of the goroutines, unfolded into its checks. *)
Lemma refactored_launch_run ctx name t0 t1 svc :
  refactored.Run_launch ctx name t0 t1 svc =
  (match store svc !! name with
   | None =>
     inl (refactored.finish (refactored.newResult name t0) 0 (Some "pipeline not found") t1)
   | Some cfg =>
     match SourceByName (registry svc) (Config_SourceType cfg) with
     | Err err => inl (refactored.finish (refactored.newResult name t0) 0 (Some err) t1)
     | Ok src =>
       match DestinationByName (registry svc) (Config_DestType cfg) with
       | Err err => inl (refactored.finish (refactored.newResult name t0) 0 (Some err) t1)
       | Ok dst =>
         match ValidateConnectorPair (Source_Info src) (Destination_Info dst) with
         | Some err => inl (refactored.finish (refactored.newResult name t0) 0 (Some err) t1)
         | None =>
           match Source_Extract src (Config_SourceConfig cfg) with
           | Err err => inl (refactored.finish (refactored.newResult name t0) 0 (Some err) t1)
           | Ok records =>
             inr (start ctx records (Destination_Load dst (Config_DestConfig cfg)))
           end
         end
       end
     end
   end, svc).
Proof.
  unfold refactored.Run_launch, refactored.getConfig, bind, store_get, ret.
  destruct (store svc !! name) as [cfg|]; [|reflexivity].
  rewrite connectorsFor_run.
  destruct (SourceByName _ _); [|reflexivity].
  destruct (DestinationByName _ _); [|reflexivity].
  destruct (ValidateConnectorPair _ _); [reflexivity|].
  destruct (Source_Extract _ _); reflexivity.
Qed.

Lemma inline_launch_run ctx name t0 t1 svc :
  inline.Run_launch ctx name t0 t1 svc =
  (match store svc !! name with
   | None => inl (inline.fail (inline.initial name t0) "pipeline not found" t1)
   | Some cfg =>
     match SourceByName (registry svc) (Config_SourceType cfg) with
     | Err err => inl (inline.fail (inline.initial name t0) err t1)
     | Ok src =>
       match DestinationByName (registry svc) (Config_DestType cfg) with
       | Err err => inl (inline.fail (inline.initial name t0) err t1)
       | Ok dst =>
         match Source_Extract src (Config_SourceConfig cfg) with
         | Err err => inl (inline.fail (inline.initial name t0) err t1)
         | Ok records =>
           inr (start ctx records (Destination_Load dst (Config_DestConfig cfg)))
         end
       end
     end
   end, svc).
Proof.
  unfold inline.Run_launch, bind, store_get, get_registry, ret.
  destruct (store svc !! name) as [cfg|]; [|reflexivity].
  destruct (SourceByName _ _); [|reflexivity].
  destruct (DestinationByName _ _); [|reflexivity].
  destruct (Source_Extract _ _); reflexivity.
Qed.

Lemma refactored_launch_keeps ctx name t0 t1 svc :
  snd (refactored.Run_launch ctx name t0 t1 svc) = svc.
Proof. rewrite refactored_launch_run. reflexivity. Qed.

Lemma inline_launch_keeps ctx name t0 t1 svc :
  snd (inline.Run_launch ctx name t0 t1 svc) = svc.
Proof. rewrite inline_launch_run. reflexivity. Qed.

(** [Run] in terms of its launch. *)
Lemma refactored_Run_run ctx sched name t0 t1 svc :
  refactored.Run ctx sched name t0 t1 svc =
  (match fst (refactored.Run_launch ctx name t0 t1 svc) with
   | inl result => Some result
   | inr st =>
     (fun out => refactored.finish (refactored.newResult name t0) (fst out) (snd out) t1)
       <$> (exec sched st ≫= finished)
   end, svc).
Proof.
  unfold refactored.Run, bind, ret.
  pose proof (refactored_launch_keeps ctx name t0 t1 svc) as Hk.
  destruct (refactored.Run_launch ctx name t0 t1 svc) as [[r|st] svc']; simpl in *;
    subst; reflexivity.
Qed.

Lemma inline_Run_run ctx sched name t0 t1 svc :
  inline.Run ctx sched name t0 t1 svc =
  (match fst (inline.Run_launch ctx name t0 t1 svc) with
   | inl result => Some result
   | inr st =>
     (fun out => inline.complete (inline.initial name t0) (fst out) (snd out) t1)
       <$> (exec sched st ≫= finished)
   end, svc).
Proof.
  unfold inline.Run, bind, ret.
  pose proof (inline_launch_keeps ctx name t0 t1 svc) as Hk.
  destruct (inline.Run_launch ctx name t0 t1 svc) as [[r|st] svc']; simpl in *;
    subst; reflexivity.
Qed.

(** C5: [Run] always returns a result and never touches the store. Once
    its goroutines are started, every behaviour of theirs, with or without
    cancellation, brings [Run] to its return ([MustFinish]); so some
    schedule yields a result, and under every schedule the service is
    returned as it was. For a name that is not in the store the result has
    no records, the error "pipeline not found" and its finish time set, in
    either variant. *)
Theorem run_always_returns svc name ctx t0 t1 :
  (forall st, fst (refactored.Run_launch ctx name t0 t1 svc) = inr st -> MustFinish st)
  /\ (forall st, fst (inline.Run_launch ctx name t0 t1 svc) = inr st -> MustFinish st)
  /\ (exists sched res, refactored.Run ctx sched name t0 t1 svc = (Some res, svc))
  /\ (exists sched res, inline.Run ctx sched name t0 t1 svc = (Some res, svc))
  /\ (forall sched, snd (refactored.Run ctx sched name t0 t1 svc) = svc
                    /\ snd (inline.Run ctx sched name t0 t1 svc) = svc)
  /\ (store svc !! name = None ->
      forall sched,
        refactored.Run ctx sched name t0 t1 svc =
          (Some (mkResult name (TimeAt t0) (TimeAt t1) 0 "pipeline not found"), svc)
        /\ inline.Run ctx sched name t0 t1 svc =
          (Some (mkResult name (TimeAt t0) (TimeAt t1) 0 "pipeline not found"), svc)).
Proof.
  split; [intros st _; apply must_finish|].
  split; [intros st _; apply must_finish|].
  split; [|split; [|split]].
  - destruct (fst (refactored.Run_launch ctx name t0 t1 svc)) as [r|st] eqn:Hl.
    + exists [], r. rewrite refactored_Run_run, Hl. reflexivity.
    + destruct (must_finish_schedule st (must_finish st)) as (sched & out & Hout).
      exists sched. eexists. rewrite refactored_Run_run, Hl, Hout. reflexivity.
  - destruct (fst (inline.Run_launch ctx name t0 t1 svc)) as [r|st] eqn:Hl.
    + exists [], r. rewrite inline_Run_run, Hl. reflexivity.
    + destruct (must_finish_schedule st (must_finish st)) as (sched & out & Hout).
      exists sched. eexists. rewrite inline_Run_run, Hl, Hout. reflexivity.
  - intros sched. rewrite refactored_Run_run, inline_Run_run. split; reflexivity.
  - intros Hnone sched.
    rewrite refactored_Run_run, inline_Run_run, refactored_launch_run, inline_launch_run.
    rewrite Hnone. split; reflexivity.
Qed.

Lemma run_always_returns_witness :
  store (NewService typed.NewRegistry) !! "never-created" = None
  /\ forall sched,
      refactored.Run None sched "never-created" 10 11 (NewService typed.NewRegistry) =
        (Some (mkResult "never-created" (TimeAt 10) (TimeAt 11) 0 "pipeline not found"),
         NewService typed.NewRegistry)
      /\ inline.Run None sched "never-created" 10 11 (NewService typed.NewRegistry) =
        (Some (mkResult "never-created" (TimeAt 10) (TimeAt 11) 0 "pipeline not found"),
         NewService typed.NewRegistry).
Proof.
  split; [reflexivity|].
  apply (run_always_returns (NewService typed.NewRegistry) "never-created" None 10 11).
  reflexivity.
Defined.



Lemma sample_size_cases name : sample_size name = 30 \/ sample_size name = 50.
Proof. unfold sample_size. destruct (String.eqb name "iceberg"); auto. Qed.

Lemma lockstep_uncancelled k : uncancelled (lockstep k).
Proof.
  unfold uncancelled, lockstep. simpl. rewrite forallb_app. simpl.
  rewrite andb_true_r. induction k as [|k IH]; simpl; auto.
Qed.

(** A stored definition whose connectors resolve and accept their
    configurations starts the goroutines: the producer for the source's
    sample size, and [Load] about to drain. *)
Lemma launch_streaming reg st name cfg src dst ctx t0 t1 :
  shipped reg ->
  st !! name = Some cfg ->
  SourceByName reg (Config_SourceType cfg) = Ok src ->
  DestinationByName reg (Config_DestType cfg) = Ok dst ->
  Source_Validate src (Config_SourceConfig cfg) = None ->
  Destination_Validate dst (Config_DestConfig cfg) = None ->
  let st0 := start ctx (simulateTransfer (sample_size (Config_SourceType cfg))) ConsumeTransfer in
  Source_Extract src (Config_SourceConfig cfg)
    = Ok (simulateTransfer (sample_size (Config_SourceType cfg)))
  /\ refactored.Run_launch ctx name t0 t1 (mkService reg st) = (inr st0, mkService reg st)
  /\ inline.Run_launch ctx name t0 t1 (mkService reg st) = (inr st0, mkService reg st).
Proof.
  intros Hreg Hcfg Hsrc Hdst Hsv Hdv st0.
  pose proof (shipped_pair _ _ _ _ _ Hreg Hsrc Hdst) as Hpair.
  destruct (shipped_source _ _ _ Hreg Hsrc) as (_ & reqs & _ & _ & Hex).
  destruct (shipped_destination _ _ _ Hreg Hdst) as (_ & _ & reqd & _ & _ & Hld).
  assert (He : Source_Extract src (Config_SourceConfig cfg)
               = Ok (simulateTransfer (sample_size (Config_SourceType cfg)))).
  { rewrite Hex, Hsv. reflexivity. }
  assert (Hl : Destination_Load dst (Config_DestConfig cfg) = ConsumeTransfer).
  { rewrite Hld, Hdv. reflexivity. }
  split; [exact He|].
  rewrite refactored_launch_run, inline_launch_run. cbn [store registry].
  rewrite Hcfg, Hsrc, Hdst, Hpair, He, Hl. split; reflexivity.
Qed.

(** C4: for a stored pipeline whose connectors accept their configurations
    and a context that is never cancelled, [Run] returns the result whose
    record count is the sample size of the source and whose error is
    empty; the sample size is the number of records the source's [Extract]
    starts its producer with. Such a run exists (the lockstep schedule is
    one), every behaviour of the goroutines ends in the return of [Run],
    and every schedule without cancellation that reaches the return gives
    this result, in either variant of [Run]. *)
Theorem run_counts_every_record reg st name cfg src dst t0 t1 :
  shipped reg ->
  st !! name = Some cfg ->
  SourceByName reg (Config_SourceType cfg) = Ok src ->
  DestinationByName reg (Config_DestType cfg) = Ok dst ->
  Source_Validate src (Config_SourceConfig cfg) = None ->
  Destination_Validate dst (Config_DestConfig cfg) = None ->
  let svc := mkService reg st in
  let n := sample_size (Config_SourceType cfg) in
  let expected := mkResult name (TimeAt t0) (TimeAt t1) n "" in
  Source_Extract src (Config_SourceConfig cfg) = Ok (simulateTransfer n)
  /\ (exists st0, refactored.Run_launch None name t0 t1 svc = (inr st0, svc)
                  /\ inline.Run_launch None name t0 t1 svc = (inr st0, svc)
                  /\ MustFinish st0)
  /\ (exists sched, uncancelled sched
                    /\ refactored.Run None sched name t0 t1 svc = (Some expected, svc)
                    /\ inline.Run None sched name t0 t1 svc = (Some expected, svc))
  /\ (forall sched res svc',
        uncancelled sched ->
        refactored.Run None sched name t0 t1 svc = (Some res, svc')
        \/ inline.Run None sched name t0 t1 svc = (Some res, svc') ->
        res = expected /\ svc' = svc).
Proof.
  intros Hreg Hcfg Hsrc Hdst Hsv Hdv svc n expected.
  destruct (launch_streaming reg st name cfg src dst None t0 t1 Hreg Hcfg Hsrc Hdst Hsv Hdv)
    as (He & HA & HB).
  fold n in He, HA, HB. fold svc in HA, HB.
  set (st0 := start None (simulateTransfer n) ConsumeTransfer) in *.
  assert (Hn : 0 <= n) by (destruct (sample_size_cases (Config_SourceType cfg)); subst n; lia).
  assert (Hall : forall sched out,
            uncancelled sched -> exec sched st0 ≫= finished = Some out -> out = (n, None)).
  { intros sched [c e] Hun Hout.
    destruct (exec sched st0) as [stN|] eqn:Hexec; [|discriminate]. simpl in Hout.
    destruct (outcome_uncancelled n sched stN c e Hexec Hun Hout) as [-> ->].
    rewrite Z.max_r by lia. reflexivity. }
  split; [exact He|]. split; [|split].
  - exists st0. split; [exact HA|]. split; [exact HB|]. apply must_finish.
  - exists (lockstep (Z.to_nat n)).
    pose proof (lockstep_uncancelled (Z.to_nat n)) as Hun.
    destruct (lockstep_finishes None n Hn) as [out Hout]. fold st0 in Hout.
    pose proof (Hall _ _ Hun Hout) as ->.
    split; [exact Hun|].
    rewrite refactored_Run_run, inline_Run_run, HA, HB. cbn [fst].
    rewrite Hout. split; reflexivity.
  - intros sched res svc' Hun Hrun.
    rewrite refactored_Run_run, inline_Run_run, HA, HB in Hrun. cbn [fst] in Hrun.
    destruct (exec sched st0 ≫= finished) as [out|] eqn:Hout.
    + pose proof (Hall _ _ Hun Hout) as ->.
      destruct Hrun as [Hrun|Hrun]; injection Hrun as <- <-; split; reflexivity.
    + destruct Hrun as [Hrun|Hrun]; discriminate Hrun.
Qed.

Lemma run_counts_every_record_witness :
  let svc := snd (refactored.Create nightly_sync (NewService typed.NewRegistry)) in
  let expected := mkResult "nightly-sync" (TimeAt 10) (TimeAt 11) 50 "" in
  store svc !! "nightly-sync" = Some nightly_sync
  /\ (exists sched, uncancelled sched
                    /\ refactored.Run None sched "nightly-sync" 10 11 svc = (Some expected, svc)
                    /\ inline.Run None sched "nightly-sync" 10 11 svc = (Some expected, svc))
  /\ (forall sched res svc',
        uncancelled sched ->
        refactored.Run None sched "nightly-sync" 10 11 svc = (Some res, svc')
        \/ inline.Run None sched "nightly-sync" 10 11 svc = (Some res, svc') ->
        res = expected /\ svc' = svc).
Proof.
  intros svc expected.
  split; [reflexivity|].
  destruct (run_counts_every_record typed.NewRegistry
              {["nightly-sync" := nightly_sync]} "nightly-sync" nightly_sync
              (typed.asSource typed.MySQLSource_Info typed.MySQLSource_Validate
                 typed.MySQLSource_Extract {| typed.MySQLSource_meta := typed.zeroConnector |})
              (typed.asDestination typed.PostgresDestination_Info
                 typed.PostgresDestination_Validate typed.PostgresDestination_Load
                 {| typed.PostgresDestination_meta := typed.zeroConnector |})
              10 11)
    as (_ & _ & Hex & Hall);
    [left; reflexivity | reflexivity | reflexivity | reflexivity | reflexivity | reflexivity |].
  split; [exact Hex | exact Hall].
Defined.

(** ** Cancellation *)

Lemma step_fwd a st st' : step a st = Some st' -> fwd_count st <= fwd_count st'.
Proof.
  destruct st as [ctx [m pc] tee counter main load sent fwd].
  destruct a; unfold step, producer_send, fwd_count; unfold_threads; simpl; intros H;
    step_in H; simpl;
    rewrite ?length_app; simpl; lia.
Qed.

Lemma exec_fwd sched : forall st st',
  exec sched st = Some st' -> fwd_count st <= fwd_count st'.
Proof.
  induction sched as [|a sched IH]; simpl; intros st st' H.
  - injection H as <-. lia.
  - destruct (step a st) as [st1|] eqn:Hstep; [|discriminate].
    pose proof (step_fwd _ _ _ Hstep). pose proof (IH _ _ H). lia.
Qed.

Lemma step_ctx_ended a st st' cause :
  rs_ctx st = Some cause -> step a st = Some st' -> rs_ctx st' = Some cause.
Proof.
  destruct st as [ctx [m pc] tee counter main load sent fwd]. simpl. intros ->.
  destruct a; unfold step, producer_send; unfold_threads; simpl; intros H; step_in H;
    reflexivity.
Qed.

Lemma exec_ctx_ended sched : forall st st' cause,
  rs_ctx st = Some cause -> exec sched st = Some st' -> rs_ctx st' = Some cause.
Proof.
  induction sched as [|a sched IH]; simpl; intros st st' cause Hc H.
  - injection H as <-. exact Hc.
  - destruct (step a st) as [st1|] eqn:Hstep; [|discriminate].
    eapply IH; [|exact H]. eapply step_ctx_ended; eauto.
Qed.

Lemma exec_cancel cause post st st' :
  exec (Cancel cause :: post) st = Some st' -> rs_ctx st' = Some cause.
Proof.
  cbn [exec]. destruct (step (Cancel cause) st) as [st1|] eqn:Hstep; [|discriminate].
  intros H. eapply exec_ctx_ended; [|exact H].
  unfold step in Hstep. destruct (rs_ctx st); [discriminate|].
  injection Hstep as <-. reflexivity.
Qed.

Lemma Cause_Error_nonempty cause : Cause_Error cause <> "".
Proof. destruct cause; discriminate. Qed.

(** Two runs of nightly-sync (50 records) that a cancellation interrupts.
    In the first the context ends when two records have reached [Load] and
    the tee has counted a third that it still holds: the result counts 3.
    In the second it ends when 49 of the 50 have reached [Load]; both
    [select]s then take their other ready case, the last record goes
    through and [Load] sees the stream closed: the result counts 50 and
    has no error. In both runs what happens between two visits of [Load]
    to its [select] happens before [Load] is back there, so that it finds
    its two cases ready together. *)
Lemma cancelled_run_counts_held_record :
  let svc := snd (refactored.Create nightly_sync (NewService typed.NewRegistry)) in
  let st0 := start None (simulateTransfer 50) ConsumeTransfer in
  let round := [ProducerSend; TeeCall; TeeSend; ProducerWake] in
  let pre1 := (LoadEnter :: concat (repeat round 2) ++ [ProducerSend; TeeCall])%list in
  let pre2 := (LoadEnter :: concat (repeat round 49) ++ [ProducerSend])%list in
  let post2 := [TeeCall; TeeSend; ProducerWake; ProducerExit; TeeClose; LoadEOF; RunRead] in
  fwd_count <$> exec pre1 st0 = Some 2
  /\ refactored.Run None (pre1 ++ [Cancel Canceled; LoadDone; RunRead]) "nightly-sync" 10 11 svc
     = (Some (mkResult "nightly-sync" (TimeAt 10) (TimeAt 11) 3 "context canceled"), svc)
  /\ ~ (3 <= 2)
  /\ fwd_count <$> exec pre2 st0 = Some 49
  /\ refactored.Run None (pre2 ++ Cancel Canceled :: post2) "nightly-sync" 10 11 svc
     = (Some (mkResult "nightly-sync" (TimeAt 10) (TimeAt 11) 50 ""), svc)
  /\ ~ (50 <= 49).
Proof.
  intros svc st0 round pre1 pre2 post2.
  split; [vm_compute; reflexivity|].
  split; [vm_compute; reflexivity|].
  split; [lia|].
  split; [vm_compute; reflexivity|].
  split; [vm_compute; reflexivity|lia].
Qed.

(** C3, as amended: when the context of a run over [n] records is ended by
    [cause] after the schedule [pre], [Run] returns a count that is the
    number of records [Load] had received when it returned, or that number
    plus one, and never more than [n]: the tee counts a record before it
    forwards it, so the record it holds at that moment may be included.
    What [Load] had received is at least what had been forwarded when the
    context ended. The error is the error of the context, unless [Load]
    saw the stream closed first: then it is empty and the count is exactly
    the number received. Both variants of [Run] agree. *)
Theorem run_count_when_cancelled reg st name cfg src dst pre post cause mid t0 t1 :
  shipped reg ->
  st !! name = Some cfg ->
  SourceByName reg (Config_SourceType cfg) = Ok src ->
  DestinationByName reg (Config_DestType cfg) = Ok dst ->
  Source_Validate src (Config_SourceConfig cfg) = None ->
  Destination_Validate dst (Config_DestConfig cfg) = None ->
  let svc := mkService reg st in
  let n := sample_size (Config_SourceType cfg) in
  let st0 := start None (simulateTransfer n) ConsumeTransfer in
  exec pre st0 = Some mid ->
  forall res svc',
    refactored.Run None (pre ++ Cancel cause :: post) name t0 t1 svc = (Some res, svc')
    \/ inline.Run None (pre ++ Cancel cause :: post) name t0 t1 svc = (Some res, svc') ->
    exists final,
      exec (pre ++ Cancel cause :: post) st0 = Some final
      /\ fwd_count mid <= fwd_count final
      /\ cancelled_outcome n cause (fwd_count final) res.
Proof.
  intros Hreg Hcfg Hsrc Hdst Hsv Hdv svc n st0 Hpre res svc' Hrun.
  destruct (launch_streaming reg st name cfg src dst None t0 t1 Hreg Hcfg Hsrc Hdst Hsv Hdv)
    as (_ & HA & HB).
  fold n in HA, HB. fold svc in HA, HB. fold st0 in HA, HB.
  assert (Hn : 0 <= n) by (destruct (sample_size_cases (Config_SourceType cfg)); subst n; lia).
  rewrite refactored_Run_run, inline_Run_run, HA, HB in Hrun. cbn [fst] in Hrun.
  destruct (exec (pre ++ Cancel cause :: post) st0) as [final|] eqn:Hexec;
    [|destruct Hrun as [Hrun|Hrun]; discriminate Hrun].
  exists final. split; [reflexivity|].
  pose proof Hexec as Hsplit. rewrite exec_app, Hpre in Hsplit. simpl in Hsplit.
  assert (Hctx : rs_ctx final = Some cause).
  { apply (exec_cancel cause post mid). simpl. exact Hsplit. }
  assert (Hmono : fwd_count mid <= fwd_count final).
  { apply (exec_fwd (Cancel cause :: post)). simpl. exact Hsplit. }
  split; [exact Hmono|].
  pose proof (exec_load _ _ _ Hexec) as Hload. simpl in Hload.
  simpl in Hrun.
  destruct (finished final) as [[c e]|] eqn:Hfin;
    [|destruct Hrun as [Hrun|Hrun]; discriminate Hrun].
  destruct (outcome_bounds n None ConsumeTransfer _ final c e Hexec Hfin)
    as (Hb & Hle & Hret & Hnone).
  rewrite Z.max_r in Hle by lia.
  assert (Herr : match e with
                 | Some msg => msg = Cause_Error cause
                 | None => c = fwd_count final
                 end).
  { destruct e as [msg|]; [|auto]. simpl in Hret.
    destruct Hret as [Hl|[c' [Hc' ->]]]; congruence. }
  unfold cancelled_outcome.
  destruct Hrun as [Hrun|Hrun]; injection Hrun as <- <-; simpl;
    (split; [exact Hb|split; [exact Hle|]]);
    destruct e as [msg|]; subst; auto using Cause_Error_nonempty.
Qed.

Lemma run_count_when_cancelled_witness :
  let svc := mkService typed.NewRegistry {["nightly-sync" := nightly_sync]} in
  let st0 := start None (simulateTransfer 50) ConsumeTransfer in
  let round := [ProducerSend; TeeCall; TeeSend; ProducerWake] in
  let pre := (LoadEnter :: concat (repeat round 2) ++ [ProducerSend; TeeCall])%list in
  let post := [LoadDone; RunRead] in
  let res := mkResult "nightly-sync" (TimeAt 10) (TimeAt 11) 3 "context canceled" in
  refactored.Run None (pre ++ Cancel Canceled :: post) "nightly-sync" 10 11 svc = (Some res, svc)
  /\ exists mid,
      exec pre st0 = Some mid
      /\ fwd_count mid = 2
      /\ exists final,
          exec (pre ++ Cancel Canceled :: post) st0 = Some final
          /\ fwd_count mid <= fwd_count final
          /\ cancelled_outcome 50 Canceled (fwd_count final) res.
Proof.
  intros svc st0 round pre post res.
  assert (Hrun : refactored.Run None (pre ++ Cancel Canceled :: post) "nightly-sync" 10 11 svc
                 = (Some res, svc)) by (vm_compute; reflexivity).
  split; [exact Hrun|].
  destruct (exec pre st0) as [mid|] eqn:Hmid; [|vm_compute in Hmid; discriminate Hmid].
  exists mid. split; [reflexivity|].
  split; [vm_compute in Hmid; injection Hmid as <-; reflexivity|].
  eapply (run_count_when_cancelled typed.NewRegistry {["nightly-sync" := nightly_sync]}
           "nightly-sync" nightly_sync
           (typed.asSource typed.MySQLSource_Info typed.MySQLSource_Validate
              typed.MySQLSource_Extract {| typed.MySQLSource_meta := typed.zeroConnector |})
           (typed.asDestination typed.PostgresDestination_Info
              typed.PostgresDestination_Validate typed.PostgresDestination_Load
              {| typed.PostgresDestination_meta := typed.zeroConnector |})
           pre post Canceled mid 10 11);
    [left; reflexivity | reflexivity | reflexivity | reflexivity | reflexivity | reflexivity
    | exact Hmid | left; exact Hrun].
Defined.

(** ** Extraction *)

Lemma row_at_id i : row_at i = record_with_id (i + 1).
Proof. reflexivity. Qed.

Lemma fmt_d_examples : fmt_d 1 = "1" /\ fmt_d 30 = "30" /\ fmt_d 50 = "50".
Proof. repeat split. Qed.

Lemma extraction_closed ctx evs n out ch :
  extraction ctx evs (mkChan n PClosed) = Some (out, ch) -> out = [] /\ ch = mkChan n PClosed.
Proof.
  destruct evs as [|ev evs]; simpl.
  - intros [= <- <-]. auto.
  - destruct ev; discriminate.
Qed.

(** While the context is live, a producer that gets to its return has
    handed over exactly the records it had still to send. *)
Lemma extraction_remaining evs : forall n pc out ch,
  extraction None evs (mkChan n pc) = Some (out, ch) ->
  chan_pc ch = PClosed ->
  out = record_with_id <$> remaining_ids (mkChan n pc).
Proof.
  induction evs as [|ev evs IH]; intros n pc out ch.
  - simpl. intros [= <- <-]. simpl. intros ->. reflexivity.
  - cbn [extraction].
    destruct (producer_step None ev (mkChan n pc)) as [[o ch1]|] eqn:Hstep; [|discriminate].
    destruct (extraction None evs ch1) as [[outs ch2]|] eqn:Hrest; [|discriminate].
    intros [= <- <-] Hclosed.
    destruct ev; unfold producer_step, producer_send, producer_done, producer_exit,
      producer_wake in Hstep; simpl in Hstep; step_in Hstep; ltb_props.
    + (* send *)
      rewrite (IH _ _ _ _ Hrest Hclosed). unfold remaining_ids; simpl.
      rewrite (seqZ_cons (i + 1)) by lia. rewrite fmap_cons, row_at_id.
      replace (Z.succ (i + 1)) with (i + 2) by lia.
      replace (Z.pred (n - i)) with (n - (i + 1)) by lia. reflexivity.
    + (* the loop ends *)
      apply extraction_closed in Hrest as [-> _].
      unfold remaining_ids; simpl. rewrite seqZ_nil by lia. reflexivity.
    + (* the sleep ends *)
      rewrite (IH _ _ _ _ Hrest Hclosed). unfold remaining_ids; simpl.
      replace (i + 1 + 1) with (i + 2) by lia. reflexivity.
Qed.

Lemma extraction_round n i rest :
  i < n ->
  extraction None (EvSend :: EvWake :: rest) (mkChan n (PSelect i)) =
  (fun r => (row_at i :: fst r, snd r)) <$> extraction None rest (mkChan n (PSelect (i + 1))).
Proof.
  intros Hi. cbn [extraction].
  assert (Hs : producer_step None EvSend (mkChan n (PSelect i))
               = Some ([row_at i], mkChan n (PSleep i))).
  { unfold producer_step, producer_send; simpl.
    destruct (Z.ltb_spec i n); [reflexivity|lia]. }
  rewrite Hs.
  change (producer_step None EvWake (mkChan n (PSleep i)))
    with (Some (@nil Row, mkChan n (PSelect (i + 1)))).
  cbv beta iota.
  destruct (extraction None rest (mkChan n (PSelect (i + 1)))) as [[outs ch]|]; reflexivity.
Qed.

Lemma full_extraction_runs k : forall n i,
  i + Z.of_nat k = n ->
  exists out, extraction None (full_extraction k) (mkChan n (PSelect i))
              = Some (out, mkChan n PClosed).
Proof.
  unfold full_extraction.
  induction k as [|k IH]; intros n i Hi.
  - simpl. unfold producer_step, producer_exit; simpl.
    destruct (Z.ltb_spec i n); [lia|]. simpl. eexists. reflexivity.
  - destruct (IH n (i + 1)) as [out Hout]; [lia|].
    change (repeat ?x (S k)) with (x :: repeat x k).
    rewrite concat_cons.
    change (([EvSend; EvWake] ++ ?l) ++ ?r)%list with (EvSend :: EvWake :: (l ++ r))%list.
    rewrite extraction_round by lia. rewrite Hout. eexists. reflexivity.
Qed.

(** C10: under a context that is never cancelled, an extraction over [n]
    sample records that gets to the close of its channel has handed over
    the records with ids 1, 2, ..., n in this order, each with the payload
    "record-" followed by its id in decimal: the sequence depends on [n]
    alone, so two such extractions hand over the same sequence. The
    extraction that nothing interrupts is one of them. This holds for the
    producer under either of its names. *)
Theorem extraction_is_deterministic n ch0 evs out ch :
  ch0 = simulateTransfer n \/ ch0 = produceFakeRecords n ->
  extraction None evs ch0 = Some (out, ch) ->
  chan_pc ch = PClosed ->
  out = record_with_id <$> seqZ 1 n
  /\ length out = Z.to_nat n
  /\ (forall k id, seqZ 1 n !! k = Some id ->
        id = 1 + Z.of_nat k
        /\ exists row, out !! k = Some row
             /\ row !! "id" = Some (VInt id)
             /\ row !! "payload" = Some (VString ("record-" ++ fmt_d id)))
  /\ (forall evs' out' ch',
        extraction None evs' ch0 = Some (out', ch') -> chan_pc ch' = PClosed -> out' = out)
  /\ (exists ch', extraction None (full_extraction (Z.to_nat n)) ch0 = Some (out, ch')
                  /\ chan_pc ch' = PClosed).
Proof.
  intros Hch Hrun Hclosed.
  assert (Heq : ch0 = mkChan n (PSelect 0)) by (destruct Hch; subst; reflexivity).
  subst ch0.
  assert (Hall : forall evs' out' ch',
            extraction None evs' (mkChan n (PSelect 0)) = Some (out', ch') ->
            chan_pc ch' = PClosed -> out' = record_with_id <$> seqZ 1 n).
  { intros evs' out' ch' H1 H2.
    rewrite (extraction_remaining _ _ _ _ _ H1 H2). unfold remaining_ids; simpl.
    replace (n - 0) with n by lia. reflexivity. }
  pose proof (Hall _ _ _ Hrun Hclosed) as Hout.
  split; [exact Hout|]. split; [|split; [|split]].
  - rewrite Hout, length_fmap, length_seqZ. reflexivity.
  - intros k id Hk. pose proof Hk as Hk'. apply lookup_seqZ in Hk' as [-> _].
    split; [reflexivity|].
    exists (record_with_id (1 + Z.of_nat k)).
    rewrite Hout, list_lookup_fmap, Hk. repeat split.
  - intros evs' out' ch' H1 H2. rewrite Hout. eapply Hall; eauto.
  - destruct (Z_le_gt_dec 0 n) as [Hn|Hn].
    + destruct (full_extraction_runs (Z.to_nat n) n 0) as [out' Hfull]; [lia|].
      exists (mkChan n PClosed). split; [|reflexivity].
      rewrite Hfull. rewrite Hout. repeat f_equal.
      eapply Hall; [exact Hfull|reflexivity].
    + replace (Z.to_nat n) with 0%nat by lia.
      exists (mkChan n PClosed). split; [|reflexivity].
      unfold full_extraction; simpl. unfold producer_step, producer_exit; simpl.
      destruct (Z.ltb_spec 0 n); [lia|]. simpl.
      rewrite Hout, seqZ_nil by lia. reflexivity.
Qed.

Lemma extraction_is_deterministic_witness :
  let evs := [EvSend; EvWake; EvSend; EvWake; EvSend; EvWake; EvExit] in
  let out := [record_with_id 1; record_with_id 2; record_with_id 3] in
  extraction None evs (produceFakeRecords 3) = Some (out, mkChan 3 PClosed)
  /\ out = record_with_id <$> seqZ 1 3
  /\ (forall evs' out' ch',
        extraction None evs' (produceFakeRecords 3) = Some (out', ch') ->
        chan_pc ch' = PClosed -> out' = out).
Proof.
  intros evs out.
  assert (Hrun : extraction None evs (produceFakeRecords 3) = Some (out, mkChan 3 PClosed))
    by (vm_compute; reflexivity).
  split; [exact Hrun|].
  destruct (extraction_is_deterministic 3 (produceFakeRecords 3) evs out (mkChan 3 PClosed))
    as (Hout & _ & _ & Hsame & _);
    [right; reflexivity | exact Hrun | reflexivity |].
  split; [exact Hout | exact Hsame].
Defined.

(** * Further properties of the code *)

(** ** The registry *)

Lemma range_lookup_pairs {V W : Type} (f : V -> W) (m : gmap string V)
    (l : list (string * V)) :
  (forall k v, (k, v) ∈ l -> m !! k = Some v) ->
  omap (fun k => f <$> m !! k) l.*1 = f <$> l.*2.
Proof.
  induction l as [|[k v] l IH]; simpl; intros H; [reflexivity|].
  rewrite (H k v) by left. simpl. f_equal. apply IH.
  intros k' v' Hin. apply H. right. exact Hin.
Qed.

Lemma range_perm {V W : Type} (f : V -> W) (m : gmap string V) order :
  range_order m order ->
  omap (fun k => f <$> m !! k) order ≡ₚ f <$> (map_to_list m).*2.
Proof.
  intros [Hnd Hin].
  assert (Hp : order ≡ₚ (map_to_list m).*1).
  { apply NoDup_Permutation; [exact Hnd|apply NoDup_fst_map_to_list|].
    intros k. rewrite Hin. rewrite list_elem_of_fmap. split.
    - intros [v Hv]. exists (k, v). split; [reflexivity|].
      apply elem_of_map_to_list, Hv.
    - intros [[k' v] [-> Hv]]. apply elem_of_map_to_list in Hv. eauto. }
  rewrite Hp. rewrite range_lookup_pairs; [reflexivity|].
  intros k v. apply elem_of_map_to_list.
Qed.

Ltac concrete_nodup := apply (bool_decide_unpack _); vm_compute; exact I.

Ltac concrete_perm :=
  apply NoDup_Permutation; [concrete_nodup | concrete_nodup |];
  intros ?; rewrite !elem_of_cons, !elem_of_nil; tauto.

Lemma shipped_sources_None reg name :
  shipped reg -> name ∉ ["mysql"; "postgres"; "sqlserver"; "iceberg"] ->
  SourceByName reg name = Err ("unknown source connector " ++ name).
Proof.
  intros Hreg Hnot. destruct (SourceByName reg name) as [s|msg] eqn:H.
  - exfalso. apply Hnot.
    unfold SourceByName in H. destruct (sources reg !! name) as [s'|] eqn:Hs; [|discriminate].
    destruct Hreg as [-> | ->];
      unfold typed.NewRegistry, simple.NewRegistry in Hs; cbn [sources] in Hs;
      apply registerSources_lookup in Hs as [[Hin Hname]|Hs];
      try (rewrite lookup_empty in Hs; discriminate);
      subst name; pick_item Hin; rewrite !elem_of_cons; cbn; tauto.
  - unfold SourceByName in H. destruct (sources reg !! name); [discriminate|].
    symmetry. exact H.
Qed.

Lemma shipped_destinations_None reg name :
  shipped reg -> name ∉ ["mysql"; "postgres"; "sqlserver"] ->
  DestinationByName reg name = Err ("unknown destination connector " ++ name).
Proof.
  intros Hreg Hnot. destruct (DestinationByName reg name) as [d|msg] eqn:H.
  - exfalso. apply Hnot.
    unfold DestinationByName in H.
    destruct (destinations reg !! name) as [d'|] eqn:Hd; [|discriminate].
    destruct Hreg as [-> | ->];
      unfold typed.NewRegistry, simple.NewRegistry in Hd; cbn [destinations] in Hd;
      apply registerDestinations_lookup in Hd as [[Hin Hname]|Hd];
      try (rewrite lookup_empty in Hd; discriminate);
      subst name; pick_item Hin; rewrite !elem_of_cons; cbn; tauto.
  - unfold DestinationByName in H. destruct (destinations reg !! name); [discriminate|].
    symmetry. exact H.
Qed.

(** X1: in either copy of the registry, [SourceByName] resolves exactly
    the names mysql, postgres, sqlserver and iceberg, and
    [DestinationByName] exactly mysql, postgres and sqlserver; the
    connector found carries the name it was asked under and its kind; any
    other name gives the error "unknown source connector <name>" or
    "unknown destination connector <name>". *)
Theorem registry_resolves_known_names name :
  (if decide (name ∈ ["mysql"; "postgres"; "sqlserver"; "iceberg"])
   then exists s1 s2,
       SourceByName typed.NewRegistry name = Ok s1
       /\ SourceByName simple.NewRegistry name = Ok s2
       /\ Connector_Name (Source_Info s1) = name
       /\ Connector_Name (Source_Info s2) = name
       /\ Connector_Type (Source_Info s1) = SourceType
       /\ Connector_Type (Source_Info s2) = SourceType
   else SourceByName typed.NewRegistry name = Err ("unknown source connector " ++ name)
        /\ SourceByName simple.NewRegistry name = Err ("unknown source connector " ++ name))
  /\ (if decide (name ∈ ["mysql"; "postgres"; "sqlserver"])
      then exists d1 d2,
          DestinationByName typed.NewRegistry name = Ok d1
          /\ DestinationByName simple.NewRegistry name = Ok d2
          /\ Connector_Name (Destination_Info d1) = name
          /\ Connector_Name (Destination_Info d2) = name
          /\ Connector_Type (Destination_Info d1) = DestinationType
          /\ Connector_Type (Destination_Info d2) = DestinationType
      else DestinationByName typed.NewRegistry name
             = Err ("unknown destination connector " ++ name)
           /\ DestinationByName simple.NewRegistry name
             = Err ("unknown destination connector " ++ name)).
Proof.
  split; case_decide as Hin.
  - pick_item Hin; do 2 eexists; repeat split; reflexivity.
  - split; apply shipped_sources_None; auto; [left|right]; reflexivity.
  - pick_item Hin; do 2 eexists; repeat split; reflexivity.
  - split; apply shipped_destinations_None; auto; [left|right]; reflexivity.
Qed.

(** X2: whatever order the runtime ranges over the two maps in,
    [Available] returns seven descriptors, the four sources before the
    three destinations, and no two of them have the same name and kind. *)
Theorem Available_lists_each_connector_once reg order_s order_d :
  shipped reg ->
  range_order (sources reg) order_s ->
  range_order (destinations reg) order_d ->
  let key := fun c => (Connector_Name c, Connector_Type c) in
  let l := Available order_s order_d reg in
  length l = 7%nat
  /\ NoDup (key <$> l)
  /\ key <$> take 4 l ≡ₚ [("mysql", "source"); ("postgres", "source");
                           ("sqlserver", "source"); ("iceberg", "source")]
  /\ key <$> drop 4 l ≡ₚ [("mysql", "destination"); ("postgres", "destination");
                           ("sqlserver", "destination")].
Proof.
  intros Hreg Hs Hd key l.
  pose proof (range_perm Source_Info _ _ Hs) as Ps.
  pose proof (range_perm Destination_Info _ _ Hd) as Pd.
  set (ls := omap (fun k => Source_Info <$> sources reg !! k) order_s) in *.
  set (ld := omap (fun k => Destination_Info <$> destinations reg !! k) order_d) in *.
  assert (Hks : key <$> ls ≡ₚ [("mysql", "source"); ("postgres", "source");
                                ("sqlserver", "source"); ("iceberg", "source")]).
  { rewrite Ps. destruct Hreg as [-> | ->]; vm_compute; concrete_perm. }
  assert (Hkd : key <$> ld ≡ₚ [("mysql", "destination"); ("postgres", "destination");
                                ("sqlserver", "destination")]).
  { rewrite Pd. destruct Hreg as [-> | ->]; vm_compute; concrete_perm. }
  assert (Hls : length ls = 4%nat).
  { rewrite <- (length_fmap key), Hks. reflexivity. }
  assert (Hl : l = (ls ++ ld)%list) by reflexivity.
  rewrite Hl. repeat split.
  - rewrite length_app, Hls, <- (length_fmap key ld), Hkd. reflexivity.
  - rewrite fmap_app, Hks, Hkd. concrete_nodup.
  - rewrite take_app_length' by (symmetry; exact Hls). exact Hks.
  - rewrite drop_app_length' by (symmetry; exact Hls). exact Hkd.
Qed.

Lemma Available_lists_each_connector_once_witness :
  let l := Available ["iceberg"; "mysql"; "sqlserver"; "postgres"]
             ["postgres"; "sqlserver"; "mysql"] simple.NewRegistry in
  length l = 7%nat
  /\ NoDup ((fun c => (Connector_Name c, Connector_Type c)) <$> l).
Proof.
  intros l.
  destruct (Available_lists_each_connector_once simple.NewRegistry
              ["iceberg"; "mysql"; "sqlserver"; "postgres"]
              ["postgres"; "sqlserver"; "mysql"]) as (Hlen & Hnd & _);
    [right; reflexivity | | | split; [exact Hlen | exact Hnd]].
  - split; [concrete_nodup|].
    intros k. unfold simple.NewRegistry; cbn [sources]. unfold registerSources; simpl foldl.
    rewrite !lookup_insert_is_Some, lookup_empty, is_Some_alt.
    rewrite !elem_of_cons, elem_of_nil. cbn. naive_solver.
  - split; [concrete_nodup|].
    intros k. unfold simple.NewRegistry; cbn [destinations].
    unfold registerDestinations; simpl foldl.
    rewrite !lookup_insert_is_Some, lookup_empty, is_Some_alt.
    rewrite !elem_of_cons, elem_of_nil. cbn. naive_solver.
Defined.

Lemma Err_inj_lookup_source reg name msg :
  SourceByName reg name = Err msg -> sources reg !! name = None.
Proof. unfold SourceByName. destruct (sources reg !! name); [discriminate|reflexivity]. Qed.

Lemma Err_inj_lookup_destination reg name msg :
  DestinationByName reg name = Err msg -> destinations reg !! name = None.
Proof.
  unfold DestinationByName. destruct (destinations reg !! name); [discriminate|reflexivity].
Qed.

(** X3: the two copies of package [connectors] build the same registry as
    far as a caller can tell: under every name both have a connector or
    neither has, and where they have one the descriptors are equal field
    by field and [Validate], [Extract] and [Load] give the same answer on
    every configuration. *)
Theorem registries_agree name :
  match sources typed.NewRegistry !! name, sources simple.NewRegistry !! name with
  | Some s1, Some s2 =>
    Source_Info s1 = Source_Info s2
    /\ forall config,
        Source_Validate s1 config = Source_Validate s2 config
        /\ Source_Extract s1 config = Source_Extract s2 config
  | None, None => True
  | _, _ => False
  end
  /\ match destinations typed.NewRegistry !! name, destinations simple.NewRegistry !! name with
     | Some d1, Some d2 =>
       Destination_Info d1 = Destination_Info d2
       /\ forall config,
           Destination_Validate d1 config = Destination_Validate d2 config
           /\ Destination_Load d1 config = Destination_Load d2 config
     | None, None => True
     | _, _ => False
     end.
Proof.
  split.
  - destruct (decide (name ∈ ["mysql"; "postgres"; "sqlserver"; "iceberg"])) as [Hin|Hin].
    + pick_item Hin; (split; [reflexivity|intros config; split; reflexivity]).
    + rewrite (Err_inj_lookup_source typed.NewRegistry name _
                 (shipped_sources_None _ _ (or_introl eq_refl) Hin)).
      rewrite (Err_inj_lookup_source simple.NewRegistry name _
                 (shipped_sources_None _ _ (or_intror eq_refl) Hin)).
      exact I.
  - destruct (decide (name ∈ ["mysql"; "postgres"; "sqlserver"])) as [Hin|Hin].
    + pick_item Hin; (split; [reflexivity|intros config; split; reflexivity]).
    + rewrite (Err_inj_lookup_destination typed.NewRegistry name _
                 (shipped_destinations_None _ _ (or_introl eq_refl) Hin)).
      rewrite (Err_inj_lookup_destination simple.NewRegistry name _
                 (shipped_destinations_None _ _ (or_intror eq_refl) Hin)).
      exact I.
Qed.

(** X4: whatever source and destination the registry resolves pair: the
    kinds are right by registration and no destination is called iceberg,
    so [ValidateConnectorPair] never rejects a pair that [Create] or [Run]
    hands it. *)
Theorem resolved_connectors_always_pair reg sname dname src dst :
  shipped reg ->
  SourceByName reg sname = Ok src ->
  DestinationByName reg dname = Ok dst ->
  ValidateConnectorPair (Source_Info src) (Destination_Info dst) = None
  /\ Connector_Type (Source_Info src) = SourceType
  /\ Connector_Type (Destination_Info dst) = DestinationType
  /\ Connector_Name (Destination_Info dst) <> "iceberg".
Proof.
  intros Hreg Hs Hd.
  split; [eapply shipped_pair; eauto|].
  destruct (shipped_source _ _ _ Hreg Hs) as (_ & req & Hst & _).
  destruct (shipped_destination _ _ _ Hreg Hd) as (Hn & Hne & reqd & Hdt & _).
  rewrite Hn. auto.
Qed.

Lemma resolved_connectors_always_pair_witness :
  exists src dst,
    SourceByName typed.NewRegistry "iceberg" = Ok src
    /\ DestinationByName typed.NewRegistry "sqlserver" = Ok dst
    /\ ValidateConnectorPair (Source_Info src) (Destination_Info dst) = None.
Proof.
  do 2 eexists. split; [reflexivity|]. split; [reflexivity|].
  eapply (resolved_connectors_always_pair typed.NewRegistry "iceberg" "sqlserver");
    [left; reflexivity | reflexivity | reflexivity].
Defined.

(** ** Required fields *)

Lemma config_get_empty config key :
  config_get config key = "" <-> config !! key = None \/ config !! key = Some "".
Proof.
  unfold config_get. destruct (config !! key) as [v|]; simpl.
  - split; [intros ->; auto|intros [H|H]; congruence].
  - split; auto.
Qed.

(** X5: the required-fields loop ([simulateValidation], alias
    [ensureRequiredFields]) fails exactly when some required key is absent
    from the configuration or mapped to the empty string, and the error
    names the first such key in the order of the list; it returns no error
    exactly when every required key has a non-empty value. Keys that are
    not required are ignored. *)
Theorem simulateValidation_first_missing required config :
  match simulateValidation required config with
  | Some msg =>
    exists before key after,
      required = (before ++ key :: after)%list
      /\ Forall (fun k => exists v, config !! k = Some v /\ v <> "") before
      /\ (config !! key = None \/ config !! key = Some "")
      /\ msg = "missing required config " ++ key
  | None => Forall (fun k => exists v, config !! k = Some v /\ v <> "") required
  end
  /\ ensureRequiredFields required config = simulateValidation required config.
Proof.
  split; [|reflexivity].
  induction required as [|k rest IH]; simpl; [constructor|].
  destruct (String.eqb_spec (config_get config k) "") as [He|Hne].
  - exists [], k, rest. split; [reflexivity|]. split; [constructor|].
    split; [apply config_get_empty, He|reflexivity].
  - assert (Hk : exists v, config !! k = Some v /\ v <> "").
    { unfold config_get in Hne. destruct (config !! k) as [v|]; simpl in Hne; [eauto|].
      contradiction. }
    destruct (simulateValidation rest config) as [msg|].
    + destruct IH as (before & key & after & -> & Hb & Hkey & ->).
      exists (k :: before), key, after. repeat split; auto.
    + constructor; auto.
Qed.

(** ** The pipeline store *)

Ltac create_cases :=
  unfold refactored.validatePipelineName;
  repeat match goal with
  | |- context [String.eqb ?a ?b] => destruct (String.eqb a b) eqn:?
  | |- context [SourceByName ?r ?n] => destruct (SourceByName r n) eqn:?
  | |- context [DestinationByName ?r ?n] => destruct (DestinationByName r n) eqn:?
  | |- context [ValidateConnectorPair ?a ?b] => destruct (ValidateConnectorPair a b) eqn:?
  | |- context [Source_Validate ?s ?c] => destruct (Source_Validate s c) eqn:?
  | |- context [Destination_Validate ?d ?c] => destruct (Destination_Validate d c) eqn:?
  end; simpl.

Lemma create_outcome cfg svc :
  match fst (refactored.Create cfg svc) with
  | Some _ => snd (refactored.Create cfg svc) = svc
  | None =>
    snd (refactored.Create cfg svc)
    = mkService (registry svc) (<[Config_Name cfg := cfg]> (store svc))
  end
  /\ match fst (inline.Create cfg svc) with
     | Some _ => snd (inline.Create cfg svc) = svc
     | None =>
       snd (inline.Create cfg svc)
       = mkService (registry svc) (<[Config_Name cfg := cfg]> (store svc))
     end.
Proof.
  rewrite refactored_Create_run, inline_Create_run.
  split; create_cases; reflexivity.
Qed.

(** X6: [Create] writes all or nothing. Whatever error it returns (name,
    unknown connector, pairing, missing field), the service comes back
    exactly as it was; when it returns no error the only change is that
    the definition is stored under its name, replacing what was there, and
    the registry is the same. Both copies. *)
Theorem create_all_or_nothing cfg svc :
  match fst (refactored.Create cfg svc) with
  | Some _ => snd (refactored.Create cfg svc) = svc
  | None =>
    snd (refactored.Create cfg svc)
    = mkService (registry svc) (<[Config_Name cfg := cfg]> (store svc))
  end
  /\ match fst (inline.Create cfg svc) with
     | Some _ => snd (inline.Create cfg svc) = svc
     | None =>
       snd (inline.Create cfg svc)
       = mkService (registry svc) (<[Config_Name cfg := cfg]> (store svc))
     end.
Proof. apply create_outcome. Qed.

Lemma create_succeeds_iff_accepted_aux cfg svc :
  (fst (inline.Create cfg svc) = None <-> accepted (registry svc) cfg)
  /\ (fst (refactored.Create cfg svc) = None <->
      strings_TrimSpace (Config_Name cfg) <> "" /\ accepted (registry svc) cfg)
  /\ (fst (refactored.Create cfg svc) = None -> fst (inline.Create cfg svc) = None).
Proof.
  assert (HI : fst (inline.Create cfg svc) = None <-> accepted (registry svc) cfg).
  { rewrite inline_Create_run. unfold accepted. split.
    - destruct (String.eqb_spec (Config_Name cfg) ""); [discriminate|].
      destruct (SourceByName _ _) as [src|]; [|discriminate].
      destruct (DestinationByName _ _) as [dst|]; [|discriminate].
      destruct (ValidateConnectorPair _ _) eqn:Hp; [discriminate|].
      destruct (Source_Validate _ _) eqn:Hs; [discriminate|].
      destruct (Destination_Validate _ _) eqn:Hd; [discriminate|].
      intros _. split; [assumption|]. exists src, dst. auto.
    - intros (Hn & src & dst & -> & -> & -> & -> & ->).
      destruct (String.eqb_spec (Config_Name cfg) ""); [contradiction|reflexivity]. }
  assert (HR : fst (refactored.Create cfg svc) = None <->
               strings_TrimSpace (Config_Name cfg) <> "" /\ accepted (registry svc) cfg).
  { rewrite refactored_Create_run. unfold accepted, refactored.validatePipelineName. split.
    - destruct (String.eqb_spec (strings_TrimSpace (Config_Name cfg)) "") as [|Hn];
        [discriminate|].
      destruct (SourceByName _ _) as [src|]; [|discriminate].
      destruct (DestinationByName _ _) as [dst|]; [|discriminate].
      destruct (ValidateConnectorPair _ _) eqn:Hp; [discriminate|].
      destruct (Source_Validate _ _) eqn:Hs; [discriminate|].
      destruct (Destination_Validate _ _) eqn:Hd; [discriminate|].
      intros _. split; [assumption|]. split; [apply TrimSpace_nonempty, Hn|].
      exists src, dst. auto.
    - intros (Ht & Hn & src & dst & -> & -> & -> & -> & ->).
      destruct (String.eqb_spec (strings_TrimSpace (Config_Name cfg)) "");
        [contradiction|reflexivity]. }
  split; [exact HI|]. split; [exact HR|].
  intros H. apply HI. apply HR in H. tauto.
Qed.

(** X7: [Create] returns no error exactly when the definition passes every
    check against the registry: a name that is not empty (in the copy with
    [validatePipelineName]: not blank after trimming), a registered source
    and destination that pair, and configurations both accept. So every
    definition the trimming copy accepts the other accepts as well. *)
Theorem create_succeeds_iff_accepted cfg svc :
  (fst (inline.Create cfg svc) = None <-> accepted (registry svc) cfg)
  /\ (fst (refactored.Create cfg svc) = None <->
      strings_TrimSpace (Config_Name cfg) <> "" /\ accepted (registry svc) cfg)
  /\ (fst (refactored.Create cfg svc) = None -> fst (inline.Create cfg svc) = None).
Proof. apply create_succeeds_iff_accepted_aux. Qed.

Lemma create_store_cases cfg svc :
  (snd (refactored.Create cfg svc) = svc
   \/ (fst (refactored.Create cfg svc) = None
       /\ snd (refactored.Create cfg svc)
          = mkService (registry svc) (<[Config_Name cfg := cfg]> (store svc))))
  /\ (snd (inline.Create cfg svc) = svc
      \/ (fst (inline.Create cfg svc) = None
          /\ snd (inline.Create cfg svc)
             = mkService (registry svc) (<[Config_Name cfg := cfg]> (store svc)))).
Proof.
  rewrite refactored_Create_run, inline_Create_run.
  split; create_cases; auto.
Qed.

Lemma reachable_accepted reg svc :
  reachable reg svc ->
  registry svc = reg
  /\ forall k cfg, store svc !! k = Some cfg -> Config_Name cfg = k /\ accepted reg cfg.
Proof.
  induction 1 as [|svc cfg Hr [IHr IHs]|svc cfg Hr [IHr IHs]].
  - split; [reflexivity|]. intros k cfg H. simpl in H. rewrite lookup_empty in H. discriminate.
  - destruct (proj1 (create_store_cases cfg svc)) as [->|[Hok ->]]; [auto|].
    split; [exact IHr|]. cbn [store]. intros k c Hl.
    apply lookup_insert_Some in Hl as [[<- <-]|[_ Hl]]; [|auto].
    split; [reflexivity|].
    apply (proj1 (proj2 (create_succeeds_iff_accepted_aux cfg svc))) in Hok.
    rewrite IHr in Hok. tauto.
  - destruct (proj2 (create_store_cases cfg svc)) as [->|[Hok ->]]; [auto|].
    split; [exact IHr|]. cbn [store]. intros k c Hl.
    apply lookup_insert_Some in Hl as [[<- <-]|[_ Hl]]; [|auto].
    split; [reflexivity|].
    apply (proj1 (create_succeeds_iff_accepted_aux cfg svc)) in Hok.
    rewrite IHr in Hok. exact Hok.
Qed.

Lemma reachable_keyed reg svc : reachable reg svc -> keyed (store svc).
Proof. intros Hr k c Hl. apply (proj2 (reachable_accepted reg svc Hr) k c Hl). Qed.

(** X8: in every service a program can hold, that is the one from
    [NewService] after any calls of [Create], the registry is the one it
    was built with, every stored definition sits under its own name, and
    every stored definition passes all the checks of [Create] against that
    registry. *)
Theorem stored_definitions_are_accepted reg svc :
  reachable reg svc ->
  registry svc = reg
  /\ forall k cfg, store svc !! k = Some cfg -> Config_Name cfg = k /\ accepted reg cfg.
Proof. apply reachable_accepted. Qed.

Lemma stored_definitions_are_accepted_witness :
  let svc := snd (inline.Create hourly_sync
                    (snd (refactored.Create nightly_sync (NewService simple.NewRegistry)))) in
  store svc !! "hourly-sync" = Some hourly_sync
  /\ registry svc = simple.NewRegistry
  /\ forall k cfg, store svc !! k = Some cfg ->
       Config_Name cfg = k /\ accepted simple.NewRegistry cfg.
Proof.
  intros svc. split; [reflexivity|].
  apply (stored_definitions_are_accepted simple.NewRegistry svc).
  apply reach_inline, reach_refactored, reach_new.
Defined.

Lemma filter_none {A} (P : A -> Prop) `{!forall x, Decision (P x)} (l : list A) :
  (forall x, x ∈ l -> ~ P x) -> filter P l = [].
Proof.
  induction l as [|y l IH]; intros Hno; [reflexivity|].
  rewrite filter_cons_False by (apply Hno; left).
  apply IH. intros x Hx. apply Hno. right. exact Hx.
Qed.

Lemma filter_unique_name (l : list Config) (c : Config) :
  NoDup (Config_Name <$> l) -> c ∈ l ->
  filter (fun x => Config_Name x = Config_Name c) l = [c].
Proof.
  induction l as [|y l IH]; intros Hnd Hin; [apply elem_of_nil in Hin; contradiction|].
  rewrite fmap_cons in Hnd. apply NoDup_cons in Hnd as [Hy Hnd].
  apply elem_of_cons in Hin as [<-|Hin].
  - rewrite filter_cons_True by reflexivity. f_equal.
    apply filter_none.
    intros x Hx Hname. apply Hy. rewrite <- Hname. apply list_elem_of_fmap. eauto.
  - rewrite filter_cons_False; [apply IH; auto|].
    intros Hname. apply Hy. rewrite Hname. apply list_elem_of_fmap. eauto.
Qed.

Lemma listed_once_by_name (m : gmap string Config) (l : list Config) k c :
  keyed m -> l ≡ₚ (map_to_list m).*2 -> m !! k = Some c ->
  filter (fun x => Config_Name x = k) l = [c].
Proof.
  intros Hk Hp Hl.
  assert (Hname : Config_Name c = k) by (apply Hk, Hl).
  subst k. apply Permutation_singleton_r.
  rewrite Hp. rewrite filter_unique_name; [reflexivity| |].
  - rewrite keyed_names by exact Hk. apply NoDup_fst_map_to_list.
  - apply list_elem_of_fmap. exists (Config_Name c, c). split; [reflexivity|].
    apply elem_of_map_to_list, Hl.
Qed.

Lemma inline_List_perm svc order :
  iteration_order (store svc) order ->
  fst (inline.List order svc) ≡ₚ (map_to_list (store svc)).*2.
Proof. intros H. apply store_range_perm, H. Qed.

(** X9: creating under a name that is already taken overwrites. When a
    second [Create] under the name of an earlier one succeeds, the store
    is the original store with the second definition under that name,
    whether or not the first call had succeeded, and [List] afterwards
    shows exactly one definition of that name: the second. Both copies. *)
Theorem create_twice_last_wins cfg1 cfg2 svc :
  keyed (store svc) ->
  Config_Name cfg1 = Config_Name cfg2 ->
  (fst (refactored.Create cfg2 (snd (refactored.Create cfg1 svc))) = None ->
   let final := snd (refactored.Create cfg2 (snd (refactored.Create cfg1 svc))) in
   store final = <[Config_Name cfg2 := cfg2]> (store svc)
   /\ forall order, iteration_order (store final) order ->
        filter (fun x => Config_Name x = Config_Name cfg2) (fst (refactored.List order final))
        = [cfg2])
  /\ (fst (inline.Create cfg2 (snd (inline.Create cfg1 svc))) = None ->
      let final := snd (inline.Create cfg2 (snd (inline.Create cfg1 svc))) in
      store final = <[Config_Name cfg2 := cfg2]> (store svc)
      /\ forall order, iteration_order (store final) order ->
           filter (fun x => Config_Name x = Config_Name cfg2) (fst (inline.List order final))
           = [cfg2]).
Proof.
  intros Hk Hname.
  assert (Hins : forall m : gmap string Config,
            keyed m -> keyed (<[Config_Name cfg2 := cfg2]> m)).
  { intros m Hm k c Hl. apply lookup_insert_Some in Hl as [[<- <-]|[_ Hl]]; auto. }
  split; intros Hok final.
  - assert (Hfinal : store final = <[Config_Name cfg2 := cfg2]> (store svc)).
    { subst final.
      pose proof (proj1 (create_outcome cfg2 (snd (refactored.Create cfg1 svc)))) as H2.
      rewrite Hok in H2. rewrite H2. cbn [store].
      destruct (proj1 (create_store_cases cfg1 svc)) as [->|[_ ->]]; [reflexivity|].
      cbn [store]. rewrite Hname. apply insert_insert_eq. }
    split; [exact Hfinal|]. intros order Hord.
    apply (listed_once_by_name (store final)).
    + rewrite Hfinal. apply Hins, Hk.
    + apply (refactored_List_sorted final order Hord).
    + rewrite Hfinal. apply lookup_insert_eq.
  - assert (Hfinal : store final = <[Config_Name cfg2 := cfg2]> (store svc)).
    { subst final.
      pose proof (proj2 (create_outcome cfg2 (snd (inline.Create cfg1 svc)))) as H2.
      rewrite Hok in H2. rewrite H2. cbn [store].
      destruct (proj2 (create_store_cases cfg1 svc)) as [->|[_ ->]]; [reflexivity|].
      cbn [store]. rewrite Hname. apply insert_insert_eq. }
    split; [exact Hfinal|]. intros order Hord.
    apply (listed_once_by_name (store final)).
    + rewrite Hfinal. apply Hins, Hk.
    + apply inline_List_perm, Hord.
    + rewrite Hfinal. apply lookup_insert_eq.
Qed.

Lemma create_twice_last_wins_witness :
  let cfg2 := mkConfig "nightly-sync" "postgres" dbConfig "mysql" dbConfig in
  let svc := NewService typed.NewRegistry in
  keyed (store svc)
  /\ Config_Name nightly_sync = Config_Name cfg2
  /\ fst (refactored.Create cfg2 (snd (refactored.Create nightly_sync svc))) = None
  /\ store (snd (refactored.Create cfg2 (snd (refactored.Create nightly_sync svc))))
     = <["nightly-sync" := cfg2]> (store svc).
Proof.
  intros cfg2 svc.
  assert (Hk : keyed (store svc)).
  { intros k c Hl. cbn in Hl. rewrite lookup_empty in Hl. discriminate. }
  assert (Hok : fst (refactored.Create cfg2 (snd (refactored.Create nightly_sync svc))) = None)
    by (vm_compute; reflexivity).
  split; [exact Hk|]. split; [reflexivity|]. split; [exact Hok|].
  exact (proj1 (proj1 (create_twice_last_wins nightly_sync cfg2 svc Hk eq_refl) Hok)).
Defined.

(** ** Runs of created pipelines *)

(** A run of a definition that [Create] stored starts the goroutines: the
    checks of [Run] are those [Create] has made already. *)
Lemma created_launch reg svc name cfg ctx t0 t1 :
  shipped reg -> reachable reg svc -> store svc !! name = Some cfg ->
  let st0 := start ctx (simulateTransfer (sample_size (Config_SourceType cfg))) ConsumeTransfer in
  refactored.Run_launch ctx name t0 t1 svc = (inr st0, svc)
  /\ inline.Run_launch ctx name t0 t1 svc = (inr st0, svc).
Proof.
  intros Hreg Hr Hcfg st0.
  destruct (reachable_accepted reg svc Hr) as [Hregistry Hall].
  destruct (Hall name cfg Hcfg) as (_ & _ & src & dst & Hs & Hd & _ & Hsv & Hdv).
  destruct svc as [reg' st]. cbn [registry store] in *. subst reg'.
  destruct (launch_streaming reg st name cfg src dst ctx t0 t1 Hreg Hcfg Hs Hd Hsv Hdv)
    as (_ & HA & HB).
  split; assumption.
Qed.

Lemma run_outcome ctx sched name t0 t1 svc st0 res :
  refactored.Run_launch ctx name t0 t1 svc = (inr st0, svc) ->
  inline.Run_launch ctx name t0 t1 svc = (inr st0, svc) ->
  fst (refactored.Run ctx sched name t0 t1 svc) = Some res
  \/ fst (inline.Run ctx sched name t0 t1 svc) = Some res ->
  exists st c e,
    exec sched st0 = Some st /\ finished st = Some (c, e)
    /\ res = mkResult name (time_Now t0) (time_Now t1) c
               (match e with Some msg => msg | None => "" end).
Proof.
  intros HA HB Hrun.
  rewrite refactored_Run_run, inline_Run_run, HA, HB in Hrun. cbn [fst] in Hrun.
  destruct (exec sched st0) as [st|] eqn:Hexec; [|destruct Hrun; discriminate].
  cbn in Hrun.
  destruct (finished st) as [[c e]|] eqn:Hfin; [|destruct Hrun; discriminate].
  exists st, c, e. split; [reflexivity|]. split; [exact Hfin|].
  destruct Hrun as [[= <-]|[= <-]]; destruct e; reflexivity.
Qed.

(** X10: what a run of a created pipeline can report. In a service built
    by [NewService] from one of the two registries and any calls of
    [Create], a run of a stored name never fails a lookup or a validation:
    whatever the schedule of the goroutines and whenever the context ends,
    the result carries the name and the two clock readings, a record count
    between 0 and the sample size of the source, and an error that is
    empty or the error of the context. Both copies of [Run]. *)
Theorem created_pipeline_run_result reg svc name cfg ctx sched t0 t1 res :
  shipped reg -> reachable reg svc -> store svc !! name = Some cfg ->
  fst (refactored.Run ctx sched name t0 t1 svc) = Some res
  \/ fst (inline.Run ctx sched name t0 t1 svc) = Some res ->
  Result_PipelineName res = name
  /\ Result_StartedAt res = TimeAt t0
  /\ Result_FinishedAt res = TimeAt t1
  /\ 0 <= Result_Records res <= sample_size (Config_SourceType cfg)
  /\ (Result_Error res = "" \/ exists cause, Result_Error res = Cause_Error cause).
Proof.
  intros Hreg Hr Hcfg Hrun.
  destruct (created_launch reg svc name cfg ctx t0 t1 Hreg Hr Hcfg) as [HA HB].
  destruct (run_outcome _ _ _ _ _ _ _ _ HA HB Hrun) as (st & c & e & Hexec & Hfin & ->).
  cbn [Result_PipelineName Result_StartedAt Result_FinishedAt Result_Records Result_Error].
  destruct (outcome_bounds _ _ _ _ _ _ _ Hexec Hfin) as (Hc & Hmax & Hret & _).
  pose proof (exec_load _ _ _ Hexec) as Hload. cbn in Hload.
  repeat (split; [reflexivity|]). split.
  - unfold fwd_count in Hc.
    destruct (sample_size_cases (Config_SourceType cfg)) as [Hn|Hn]; rewrite Hn in *; lia.
  - destruct e as [msg|]; [|left; reflexivity].
    right. destruct Hret as [Hl|[cause [_ ->]]]; [congruence|eauto].
Qed.

Lemma created_pipeline_run_result_witness :
  let svc := snd (refactored.Create nightly_sync (NewService typed.NewRegistry)) in
  let res := mkResult "nightly-sync" (TimeAt 10) (TimeAt 11) 50 "" in
  fst (inline.Run None (lockstep 50) "nightly-sync" 10 11 svc) = Some res
  /\ 0 <= Result_Records res <= sample_size "mysql".
Proof.
  intros svc res.
  assert (Hrun : fst (inline.Run None (lockstep 50) "nightly-sync" 10 11 svc) = Some res)
    by (vm_compute; reflexivity).
  split; [exact Hrun|].
  refine (proj1 (proj2 (proj2 (proj2
    (created_pipeline_run_result typed.NewRegistry svc "nightly-sync" nightly_sync None
       (lockstep 50) 10 11 res _ _ _ (or_intror Hrun)))))).
  - left. reflexivity.
  - apply reach_refactored, reach_new.
  - reflexivity.
Defined.

(** ** The tee between extraction and load *)

Lemma rows_length k : length (rows k) = k.
Proof. unfold rows. rewrite length_map, length_seq. reflexivity. Qed.

Lemma rows_prefix m (l1 l2 : list Row) : (l1 ++ l2)%list = rows m -> l1 = rows (length l1).
Proof.
  intros H.
  assert (Hlen : (length l1 + length l2)%nat = m).
  { rewrite <- length_app, H. apply rows_length. }
  assert (Hsplit : rows m = (rows (length l1)
            ++ map (fun i => row_at (Z.of_nat i)) (seq (length l1) (length l2)))%list).
  { unfold rows. rewrite <- Hlen, seq_app, map_app. reflexivity. }
  rewrite Hsplit in H. apply app_inj_1 in H; [tauto|].
  rewrite rows_length. reflexivity.
Qed.

(** X11: the tee neither reorders, repeats nor runs ahead. In every state
    of a run over [n] sample records, under any schedule and any
    cancellation, the records [Load] has received are the first records of
    the extraction, in order; the producer has handed over at most one
    record more than [Load] has received (the one the tee holds); and the
    counter of [Run] lies between the two. *)
Theorem tee_forwards_in_order n ctx load sched st :
  exec sched (start ctx (simulateTransfer n) load) = Some st ->
  rs_fwd st = rows (length (rs_fwd st))
  /\ rs_sent st = (rs_fwd st ++ held (rs_tee st))%list
  /\ fwd_count st <= rs_counter st <= sent_count st
  /\ sent_count st <= fwd_count st + 1
  /\ sent_count st <= Z.max 0 n.
Proof.
  intros Hexec.
  pose proof (exec_inv n _ _ _ (start_inv ctx n load) Hexec)
    as [Hrec Hsent Hcnt Hrows Hpc Htee Hmain].
  assert (Hsf : sent_count st = fwd_count st + Z.of_nat (length (held (rs_tee st)))).
  { unfold sent_count, fwd_count. rewrite Hsent, length_app. lia. }
  split; [|split; [exact Hsent|]].
  - apply (rows_prefix (length (rs_sent st)) _ (held (rs_tee st))). congruence.
  - destruct (rs_tee st); cbn in *;
      (split; [lia|]); (split; [lia|]);
      destruct (chan_pc (rs_in st)); lia.
Qed.

Lemma tee_forwards_in_order_witness :
  exists st,
    exec [LoadEnter; ProducerSend; TeeCall; TeeSend; ProducerWake; ProducerSend]
      (start None (simulateTransfer 50) ConsumeTransfer) = Some st
    /\ rs_fwd st = [row_at 0]
    /\ sent_count st = 2
    /\ rs_counter st = 1.
Proof.
  eexists. split; [reflexivity|].
  destruct (tee_forwards_in_order 50 None ConsumeTransfer
              [LoadEnter; ProducerSend; TeeCall; TeeSend; ProducerWake; ProducerSend] _ eq_refl)
    as (Hf & _).
  split; [exact Hf|]. split; reflexivity.
Defined.

(** X12: when the count of a run and what [Load] received differ. If
    [Load] returned no error, every record the producer handed over has
    reached [Load], the tee has returned, and the count is their number,
    also when the context had ended; if the context never ended this is
    the whole extraction. The count exceeds what [Load] received only when
    [Load] returned an error, and then by the one record the tee has
    counted and still holds. *)
Theorem run_count_and_loaded_records n ctx load sched st c e :
  exec sched (start ctx (simulateTransfer n) load) = Some st ->
  finished st = Some (c, e) ->
  (e = None ->
     rs_fwd st = rs_sent st /\ rs_tee st = TClosed /\ c = sent_count st
     /\ (rs_ctx st = None -> c = Z.max 0 n))
  /\ (c <> fwd_count st ->
      e <> None /\ c = fwd_count st + 1
      /\ exists row, rs_tee st = TSend row /\ rs_sent st = (rs_fwd st ++ [row])%list).
Proof.
  intros Hexec Hfin.
  pose proof (exec_inv n _ _ _ (start_inv ctx n load) Hexec)
    as [Hrec Hsent Hcnt Hrows Hpc Htee Hmain].
  unfold finished in Hfin. destruct (rs_main st) as [| |?|c' e'] eqn:Hm; try discriminate.
  injection Hfin as -> ->. destruct Hmain as [Hret Hc].
  split.
  - intros ->. destruct Hret as [Hclosed _].
    rewrite Hclosed in Hsent. cbn in Hsent. rewrite app_nil_r in Hsent.
    destruct Hc as [->|[_ [row Hrow]]]; [|congruence].
    split; [congruence|]. split; [exact Hclosed|].
    split; [unfold sent_count, fwd_count; congruence|].
    intros Hctx. rewrite (Htee Hclosed) in Hpc. destruct Hpc as [_ Hall].
    rewrite <- (Hall Hctx). unfold sent_count, fwd_count. congruence.
  - intros Hne. destruct Hc as [->|[-> [row Hrow]]]; [contradiction|].
    split.
    + intros ->. destruct Hret as [Hclosed _]. congruence.
    + split; [reflexivity|]. exists row. split; [exact Hrow|].
      rewrite Hsent, Hrow. reflexivity.
Qed.

Lemma run_count_and_loaded_records_witness :
  exists st,
    exec [LoadEnter; ProducerSend; TeeCall; LoadDone; RunRead]
      (start (Some Canceled) (simulateTransfer 50) ConsumeTransfer) = Some st
    /\ finished st = Some (1, Some (Cause_Error Canceled))
    /\ rs_fwd st = []
    /\ rs_tee st = TSend (row_at 0).
Proof.
  eexists. split; [reflexivity|]. split; [reflexivity|]. split; [reflexivity|].
  destruct (run_count_and_loaded_records 50 (Some Canceled) ConsumeTransfer
              [LoadEnter; ProducerSend; TeeCall; LoadDone; RunRead] _ 1
              (Some (Cause_Error Canceled)) eq_refl eq_refl) as [_ H].
  destruct H as (_ & _ & row & Hrow & _); [discriminate|].
  reflexivity.
Defined.

Lemma step_after_return a st st' row :
  load_returned (rs_main st) = true ->
  rs_tee st = TCall row \/ rs_tee st = TSend row ->
  step a st = Some st' ->
  load_returned (rs_main st') = true
  /\ (rs_tee st' = TCall row \/ rs_tee st' = TSend row)
  /\ rs_fwd st' = rs_fwd st
  /\ rs_sent st' = rs_sent st.
Proof.
  destruct st as [ctx [m pc] tee counter main load sent fwd]. cbn.
  intros Hm Ht.
  destruct a; unfold step, producer_send; unfold_threads; cbn; intros H;
    step_in H; cbn in *;
    try discriminate; destruct Ht; try discriminate; subst;
    try (injection H as <-); cbn; auto; try congruence.
Qed.

(** X13: the goroutine of [Tee] outlives an early return of [Load]. If
    [Load] has returned (on the end of the context, or on an error of its
    own) while the tee holds a record, then whatever happens afterwards
    the tee still holds that record: it stays in [fn(record)] or blocked in
    [out <- record], is never back in [range in] and never closes [out];
    nothing more reaches [Load]. *)
Theorem tee_blocked_after_load_returns sched : forall st st' row,
  load_returned (rs_main st) = true ->
  rs_tee st = TCall row \/ rs_tee st = TSend row ->
  exec sched st = Some st' ->
  (rs_tee st' = TCall row \/ rs_tee st' = TSend row)
  /\ rs_tee st' <> TClosed /\ rs_tee st' <> TRange
  /\ rs_fwd st' = rs_fwd st
  /\ rs_sent st' = rs_sent st.
Proof.
  induction sched as [|a sched IH]; cbn [exec]; intros st st' row Hm Ht H.
  - injection H as <-. split; [exact Ht|].
    repeat split; destruct Ht as [-> | ->]; discriminate.
  - destruct (step a st) as [st1|] eqn:Hstep; [|discriminate].
    destruct (step_after_return _ _ _ _ Hm Ht Hstep) as (Hm1 & Ht1 & Hf1 & Hs1).
    destruct (IH _ _ _ Hm1 Ht1 H) as (Ht' & Hc & Hr & Hf & Hs).
    repeat split; auto; congruence.
Qed.

Lemma tee_blocked_after_load_returns_witness :
  let st := mkRunState (Some Canceled) (mkChan 50 (PSleep 0)) (TCall (row_at 0)) 0
              (LReturned (Some (Cause_Error Canceled))) ConsumeTransfer [row_at 0] [] in
  exec [LoadEnter; ProducerSend; LoadDone]
    (start (Some Canceled) (simulateTransfer 50) ConsumeTransfer) = Some st
  /\ load_returned (rs_main st) = true
  /\ forall sched st', exec sched st = Some st' -> rs_tee st' <> TClosed /\ rs_fwd st' = [].
Proof.
  intros st. split; [reflexivity|]. split; [reflexivity|].
  intros sched st' H.
  destruct (tee_blocked_after_load_returns sched st st' (row_at 0) eq_refl
              (or_introl eq_refl) H) as (_ & Hc & _ & Hf & _).
  split; [exact Hc|exact Hf].
Defined.

(** ** A destination that rejects its configuration *)

Lemma step_load_rejects msg a st st' :
  rs_load st = LoadReturn msg -> rs_fwd st = [] ->
  match rs_main st with
  | LEnter => True
  | LSelect => False
  | LReturned e | RFinished _ e => e = Some msg
  end ->
  step a st = Some st' ->
  rs_load st' = LoadReturn msg /\ rs_fwd st' = []
  /\ match rs_main st' with
     | LEnter => True
     | LSelect => False
     | LReturned e | RFinished _ e => e = Some msg
     end.
Proof.
  destruct st as [ctx [m pc] tee counter main load sent fwd]. cbn.
  intros -> -> Hm.
  destruct a; unfold step, producer_send; unfold_threads; cbn; intros H;
    step_in H; cbn in *; try contradiction; try discriminate;
    try (injection H as <-); cbn; auto.
Qed.

Lemma exec_load_rejects msg sched : forall st st',
  rs_load st = LoadReturn msg -> rs_fwd st = [] ->
  match rs_main st with
  | LEnter => True
  | LSelect => False
  | LReturned e | RFinished _ e => e = Some msg
  end ->
  exec sched st = Some st' ->
  rs_fwd st' = []
  /\ match rs_main st' with
     | LEnter => True
     | LSelect => False
     | LReturned e | RFinished _ e => e = Some msg
     end.
Proof.
  induction sched as [|a sched IH]; cbn [exec]; intros st st' Hl Hf Hm H.
  - injection H as <-. auto.
  - destruct (step a st) as [st1|] eqn:Hstep; [|discriminate].
    destruct (step_load_rejects _ _ _ _ Hl Hf Hm Hstep) as (Hl1 & Hf1 & Hm1).
    eapply IH; eauto.
Qed.

(** X14: [Load] checks its configuration before it touches the stream.
    When the destination rejects its configuration, [Load] returns that
    error without receiving a single record, under every schedule; the tee
    and the producer were started before, so the producer may have handed
    over one record and [Run] may count it: the count is 0 or 1 and the
    error is the validation error, never that of the context. *)
Theorem load_rejects_before_reading n ctx msg sched st :
  exec sched (start ctx (simulateTransfer n) (LoadReturn msg)) = Some st ->
  rs_fwd st = []
  /\ sent_count st <= 1
  /\ rs_main st <> LSelect
  /\ forall c e, finished st = Some (c, e) -> e = Some msg /\ 0 <= c <= 1.
Proof.
  intros Hexec.
  destruct (exec_load_rejects msg sched (start ctx (simulateTransfer n) (LoadReturn msg)) st
              eq_refl eq_refl I Hexec) as [Hf Hm].
  pose proof (exec_inv n _ _ _ (start_inv ctx n (LoadReturn msg)) Hexec)
    as [Hrec Hsent Hcnt Hrows Hpc Htee Hmain].
  split; [exact Hf|]. split; [|split].
  - unfold sent_count. rewrite Hsent, Hf. destruct (rs_tee st); cbn; lia.
  - intros Hsel. rewrite Hsel in Hm. exact Hm.
  - intros c e Hfin. unfold finished in Hfin.
    destruct (rs_main st) as [| |?|c' e'] eqn:Hmain'; try discriminate.
    injection Hfin as -> ->. split; [exact Hm|].
    destruct Hmain as [_ Hc]. unfold fwd_count in Hc. rewrite Hf in Hc. cbn in Hc.
    destruct Hc as [->|[-> _]]; lia.
Qed.

Lemma load_rejects_before_reading_witness :
  exists st,
    exec [ProducerSend; TeeCall; LoadEnter; RunRead]
      (start None (simulateTransfer 50) (LoadReturn "missing required config host"))
    = Some st
    /\ finished st = Some (1, Some "missing required config host")
    /\ rs_fwd st = [].
Proof.
  eexists. split; [reflexivity|]. split; [reflexivity|].
  exact (proj1 (load_rejects_before_reading 50 None "missing required config host"
                  [ProducerSend; TeeCall; LoadEnter; RunRead] _ eq_refl)).
Defined.

(** ** Listing *)

Lemma inline_List_keeps order svc : snd (inline.List order svc) = svc.
Proof. reflexivity. Qed.

(** X15: what [List] returns in a service a program can hold. Whatever
    order the runtime ranges over the store in, the [List] that sorts
    returns one and the same list: strictly ascending by name, no name
    twice, holding exactly the definitions in the store; the [List] that
    does not sort returns a rearrangement of it. Neither changes the
    service. *)
Theorem list_of_created_pipelines reg svc o1 o2 :
  reachable reg svc ->
  iteration_order (store svc) o1 -> iteration_order (store svc) o2 ->
  let listed := fst (refactored.List o1 svc) in
  fst (refactored.List o2 svc) = listed
  /\ sorted_by_name listed
  /\ NoDup (Config_Name <$> listed)
  /\ (forall cfg, cfg ∈ listed <-> store svc !! Config_Name cfg = Some cfg)
  /\ fst (inline.List o2 svc) ≡ₚ listed
  /\ snd (refactored.List o1 svc) = svc
  /\ snd (inline.List o2 svc) = svc.
Proof.
  intros Hr H1 H2 listed.
  pose proof (reachable_keyed reg svc Hr) as Hk.
  destruct (refactored_List_sorted svc o1 H1) as (Hsvc & Hp & Hs).
  fold listed in Hp, Hs.
  split; [symmetry; apply refactored_List_order_independent; assumption|].
  split; [exact Hs|]. split; [|split; [|split; [|split]]].
  - rewrite Hp, keyed_names by exact Hk. apply NoDup_fst_map_to_list.
  - intros cfg. rewrite Hp, list_elem_of_fmap. split.
    + intros [[k c] [-> Hin]]. apply elem_of_map_to_list in Hin. cbn.
      rewrite (Hk k c Hin). exact Hin.
    + intros Hl. exists (Config_Name cfg, cfg). split; [reflexivity|].
      apply elem_of_map_to_list, Hl.
  - rewrite Hp. apply inline_List_perm, H2.
  - exact Hsvc.
  - apply inline_List_keeps.
Qed.

Lemma list_of_created_pipelines_witness :
  let svc := snd (inline.Create hourly_sync
                    (snd (refactored.Create nightly_sync (NewService simple.NewRegistry)))) in
  iteration_order (store svc) ["nightly-sync"; "hourly-sync"]
  /\ iteration_order (store svc) ["hourly-sync"; "nightly-sync"]
  /\ fst (refactored.List ["hourly-sync"; "nightly-sync"] svc)
     = fst (refactored.List ["nightly-sync"; "hourly-sync"] svc)
  /\ sorted_by_name (fst (refactored.List ["nightly-sync"; "hourly-sync"] svc)).
Proof.
  intros svc.
  assert (Hstore : store svc
    = <["hourly-sync" := hourly_sync]> (<["nightly-sync" := nightly_sync]> ∅))
    by reflexivity.
  assert (H1 : iteration_order (store svc) ["nightly-sync"; "hourly-sync"]).
  { split.
    - apply (bool_decide_unpack _). vm_compute. exact I.
    - intros k. rewrite Hstore.
      rewrite !lookup_insert_is_Some, lookup_empty, is_Some_alt.
      rewrite !elem_of_cons, elem_of_nil. intuition congruence. }
  assert (H2 : iteration_order (store svc) ["hourly-sync"; "nightly-sync"]).
  { split.
    - apply (bool_decide_unpack _). vm_compute. exact I.
    - intros k. rewrite Hstore.
      rewrite !lookup_insert_is_Some, lookup_empty, is_Some_alt.
      rewrite !elem_of_cons, elem_of_nil. intuition congruence. }
  split; [exact H1|]. split; [exact H2|].
  destruct (list_of_created_pipelines simple.NewRegistry svc
              ["nightly-sync"; "hourly-sync"] ["hourly-sync"; "nightly-sync"]
              (reach_inline _ _ _ (reach_refactored _ _ _ (reach_new _))) H1 H2)
    as (Heq & Hs & _).
  split; [exact Heq|exact Hs].
Defined.

(** ** The producer under any context *)

Lemma extraction_prefix ctx evs : forall n pc out ch,
  extraction ctx evs (mkChan n pc) = Some (out, ch) ->
  out `prefix_of` (record_with_id <$> remaining_ids (mkChan n pc)).
Proof.
  induction evs as [|ev evs IH]; intros n pc out ch.
  - cbn. intros [= <- <-]. apply prefix_nil.
  - cbn [extraction].
    destruct (producer_step ctx ev (mkChan n pc)) as [[o ch1]|] eqn:Hstep; [|discriminate].
    destruct (extraction ctx evs ch1) as [[outs ch2]|] eqn:Hrest; [|discriminate].
    intros [= <- <-].
    destruct ev; unfold producer_step, producer_send, producer_done, producer_exit,
      producer_wake in Hstep; simpl in Hstep; step_in Hstep; ltb_props.
    + (* send *)
      pose proof (IH _ _ _ _ Hrest) as Hp. unfold remaining_ids in *; simpl in *.
      rewrite (seqZ_cons (i + 1)) by lia. rewrite fmap_cons, row_at_id.
      replace (Z.succ (i + 1)) with (i + 2) by lia.
      replace (Z.pred (n - i)) with (n - (i + 1)) by lia.
      apply prefix_cons, Hp.
    + (* the context has ended *)
      apply extraction_closed in Hrest as [-> _]. apply prefix_nil.
    + (* the loop ends *)
      apply extraction_closed in Hrest as [-> _]. apply prefix_nil.
    + (* the sleep ends *)
      pose proof (IH _ _ _ _ Hrest) as Hp. unfold remaining_ids in *; simpl in *.
      replace (i + 1 + 1) with (i + 2) in Hp by lia. exact Hp.
Qed.

(** X16: what a receiver can get from the producer, whenever the context
    ends. For [simulateTransfer] and [produceFakeRecords] alike, under a
    live or an ended context and after any sequence of the producer's
    moves, the records handed over so far are the first ones of ids 1..n
    in order: a cancellation cuts the stream short, it never skips,
    repeats or reorders a record; and once the channel is closed nothing
    more arrives. *)
Theorem extraction_yields_prefix ctx n ch0 evs out ch :
  ch0 = simulateTransfer n \/ ch0 = produceFakeRecords n ->
  extraction ctx evs ch0 = Some (out, ch) ->
  out `prefix_of` (record_with_id <$> seqZ 1 n)
  /\ (length out <= Z.to_nat n)%nat
  /\ (chan_pc ch = PClosed ->
      forall evs' out' ch', extraction ctx evs' ch = Some (out', ch') -> out' = []).
Proof.
  intros Hch H.
  assert (Hp : out `prefix_of` (record_with_id <$> seqZ 1 n)).
  { destruct Hch as [-> | ->];
      apply extraction_prefix in H; unfold remaining_ids in H; cbn in H;
      replace (n - 0) with n in H by lia; exact H. }
  split; [exact Hp|]. split.
  - apply prefix_length in Hp. rewrite length_fmap, length_seqZ in Hp. exact Hp.
  - intros Hclosed evs' out' ch' H'.
    destruct ch as [m pc]. cbn in Hclosed. subst pc.
    apply extraction_closed in H' as [-> _]. reflexivity.
Qed.

Lemma extraction_yields_prefix_witness :
  extraction (Some Canceled) [EvSend; EvWake; EvSend; EvWake; EvDone] (produceFakeRecords 30)
  = Some ([record_with_id 1; record_with_id 2], mkChan 30 PClosed)
  /\ [record_with_id 1; record_with_id 2] `prefix_of` (record_with_id <$> seqZ 1 30).
Proof.
  assert (H : extraction (Some Canceled) [EvSend; EvWake; EvSend; EvWake; EvDone]
                (produceFakeRecords 30)
              = Some ([record_with_id 1; record_with_id 2], mkChan 30 PClosed))
    by reflexivity.
  split; [exact H|].
  exact (proj1 (extraction_yields_prefix (Some Canceled) 30 (produceFakeRecords 30) _ _ _
                  (or_intror eq_refl) H)).
Defined.

(** ** The HTTP handlers *)

Lemma append_cons c (p s : string) : String c p ++ s = String c (p ++ s).
Proof. reflexivity. Qed.

Lemma strip_prefix_app (p s : string) : strip_prefix p (p ++ s) = Some s.
Proof.
  induction p as [|c p IH]; [reflexivity|].
  rewrite append_cons. cbn [strip_prefix]. rewrite Ascii.eqb_refl. exact IH.
Qed.

Lemma TrimPrefix_app (p s : string) : strings_TrimPrefix (p ++ s) p = s.
Proof. unfold strings_TrimPrefix. rewrite strip_prefix_app. reflexivity. Qed.


Lemma Split_length s sep : length (strings_Split s sep) = S (count_byte sep s).
Proof.
  induction s as [|c s IH]; cbn; [reflexivity|].
  destruct (Ascii.eqb c sep); cbn; [rewrite IH; reflexivity|].
  destruct (strings_Split s sep) as [|first others] eqn:Hs; cbn in *; [discriminate|exact IH].
Qed.



Lemma Split_app name rest sep :
  count_byte sep name = 0%nat ->
  strings_Split (name ++ String sep rest) sep = name :: strings_Split rest sep.
Proof.
  induction name as [|c name IH]; intros Hc.
  - change ("" ++ String sep rest) with (String sep rest). cbn [strings_Split].
    rewrite Ascii.eqb_refl. reflexivity.
  - rewrite append_cons. cbn [strings_Split count_byte] in *.
    destruct (Ascii.eqb c sep); [discriminate|].
    rewrite IH by exact Hc. reflexivity.
Qed.

Lemma run_path_parts name :
  count_byte "/" name = 0%nat ->
  strings_Split (strings_TrimPrefix ("/pipelines/" ++ name ++ "/run") "/pipelines/") "/"
  = [name; "run"].
Proof.
  intros Hc. rewrite TrimPrefix_app.
  change (name ++ "/run") with (name ++ String "/" "run").
  rewrite Split_app by exact Hc. reflexivity.
Qed.


Lemma append_empty (a b : string) : a ++ b = "" -> b = "".
Proof. destruct a; [auto|discriminate]. Qed.

Lemma ends_with_app c (a b : string) : b <> "" -> ends_with c (a ++ b) = ends_with c b.
Proof.
  intros Hb. induction a as [|x a IH]; [reflexivity|].
  rewrite append_cons. cbn [ends_with].
  destruct (a ++ b) as [|y rest] eqn:Hab.
  - exfalso. apply Hb. exact (append_empty _ _ Hab).
  - exact IH.
Qed.

Lemma plain_segment_spec name :
  plain_segment name = true ->
  name <> "" /\ name <> "." /\ name <> ".." /\ count_byte "/" name = 0%nat.
Proof.
  unfold plain_segment. rewrite !andb_true_iff, !negb_true_iff, !String.eqb_neq, Nat.eqb_eq.
  tauto.
Qed.

(** The path of a run request for a plain name is in canonical form. *)
Lemma run_path_clean name :
  plain_segment name = true ->
  cleanPath ("/pipelines/" ++ name ++ "/run") = "/pipelines/" ++ name ++ "/run".
Proof.
  intros Hn. apply plain_segment_spec in Hn as (Hne & Hd & Hdd & Hc).
  assert (Hsplit : strings_Split ("/pipelines/" ++ name ++ "/run") "/"
                   = [""; "pipelines"; name; "run"]).
  { change ("/pipelines/" ++ name ++ "/run")
      with ("" ++ String "/" ("pipelines" ++ String "/" (name ++ String "/" "run"))).
    rewrite Split_app by reflexivity.
    rewrite Split_app by reflexivity.
    rewrite Split_app by exact Hc. reflexivity. }
  assert (Hclean : path_Clean ("/pipelines/" ++ name ++ "/run")
                   = "/pipelines/" ++ name ++ "/run").
  { unfold path_Clean. rewrite Hsplit. cbn [foldl].
    change (clean_step [] "") with (@nil string).
    change (clean_step [] "pipelines") with ["pipelines"].
    assert (Hstep : clean_step ["pipelines"] name = ["pipelines"; name]).
    { unfold clean_step.
      destruct (String.eqb_spec name ""); [contradiction|].
      destruct (String.eqb_spec name "."); [contradiction|].
      destruct (String.eqb_spec name ".."); [contradiction|]. reflexivity. }
    rewrite Hstep. reflexivity. }
  change (cleanPath ("/pipelines/" ++ name ++ "/run"))
    with (if ends_with "/" ("/pipelines/" ++ name ++ "/run")
             && negb (path_Clean ("/pipelines/" ++ name ++ "/run") =? "/")%string
          then path_Clean ("/pipelines/" ++ name ++ "/run") ++ "/"
          else path_Clean ("/pipelines/" ++ name ++ "/run")).
  rewrite Hclean.
  rewrite (ends_with_app "/" "/pipelines/" (name ++ "/run"))
    by (destruct name; discriminate).
  rewrite (ends_with_app "/" name "/run") by discriminate.
  reflexivity.
Qed.

Lemma mux_handler_subtree rest : mux_handler ("/pipelines/" ++ rest) = ToPipelineRun.
Proof.
  unfold mux_handler.
  destruct (String.eqb_spec ("/pipelines/" ++ rest) "/health") as [H|_];
    [vm_compute in H; discriminate H|].
  destruct (String.eqb_spec ("/pipelines/" ++ rest) "/connectors") as [H|_];
    [vm_compute in H; discriminate H|].
  destruct (String.eqb_spec ("/pipelines/" ++ rest) "/pipelines") as [H|_];
    [vm_compute in H; discriminate H|].
  rewrite strip_prefix_app. reflexivity.
Qed.

(** The run handler on a well-formed path: the response wraps what [Run]
    returns, with status 200. *)
Lemma run_endpoint_found api ctx sched t0 t1 r svc name :
  Request_Method r = "POST" ->
  Request_Path r = "/pipelines/" ++ name ++ "/run" ->
  count_byte "/" name = 0%nat ->
  handlePipelineRun api ctx sched t0 t1 r svc
  = ((fun result => mkResponse StatusOK (JSONBody (PayloadResult result)))
       <$> fst (api_Run api ctx sched name t0 t1 svc),
     snd (api_Run api ctx sched name t0 t1 svc)).
Proof.
  intros Hm Hp Hc. unfold handlePipelineRun.
  rewrite Hm, Hp, run_path_parts by exact Hc.
  change (negb ("POST" =? "POST")%string) with false.
  change (negb ("run" =? "run")%string) with false. cbv iota.
  unfold bind, ret. destruct (api_Run api ctx sched name t0 t1 svc). reflexivity.
Qed.


(** A request for the run of a plain name goes through the mux to the run
    handler, whatever its method. *)
Lemma serve_run_path api order_s order_d order ctx sched t0 t1 r svc name :
  plain_segment name = true ->
  Request_Path r = "/pipelines/" ++ name ++ "/run" ->
  ServeHTTP api order_s order_d order ctx sched t0 t1 r svc
  = handlePipelineRun api ctx sched t0 t1 r svc.
Proof.
  intros Hn Hp. unfold ServeHTTP.
  rewrite Hp, (run_path_clean name Hn), String.eqb_refl, mux_handler_subtree.
  cbn [negb route].
  destruct (Request_Method r =? "CONNECT")%string; reflexivity.
Qed.

(** The mux on the paths that it cleans, and the run handler behind it on
    paths that are clean but not of the form [/pipelines/<name>/run]. *)
Lemma serve_examples :
  let serve := fun path =>
    fst (ServeHTTP inline_api [] [] [] None [] 0 1 (mkRequest "POST" path (Err "EOF"))
           (NewService simple.NewRegistry)) in
  serve "/pipelines//run" = Some (mkResponse 301 (Redirect "/pipelines/run"))
  /\ serve "/pipelines/a//run" = Some (mkResponse 301 (Redirect "/pipelines/a/run"))
  /\ serve "/pipelines/../run" = Some (mkResponse 301 (Redirect "/run"))
  /\ serve "/pipelines/run" = Some (mkResponse 404 NoBody)
  /\ serve "/pipelines/a/run/" = Some (mkResponse 404 NoBody)
  /\ serve "/pipelines/a/b/run" = Some (mkResponse 404 NoBody)
  /\ serve "/run" = Some (mkResponse 404 (ErrorText "404 page not found"))
  /\ serve "/pipelines/a/run"
     = Some (mkResponse 200 (JSONBody (PayloadResult
               (mkResult "a" (TimeAt 0) (TimeAt 1) 0 "pipeline not found")))).
Proof. repeat split; vm_compute; reflexivity. Qed.


(** X18: running a name that is not stored, through the mux and the
    handler. For a plain name (not empty, no slash, not [.] or [..]) the
    POST of [/pipelines/<name>/run] is answered with status 200; that
    there is no such pipeline shows only in the body, whose result has no
    records and the error "pipeline not found". The service is unchanged.
    With either copy of the service. *)
Theorem run_endpoint_unknown_pipeline api order_s order_d order ctx sched t0 t1 r svc name :
  api = refactored_api \/ api = inline_api ->
  Request_Method r = "POST" ->
  Request_Path r = "/pipelines/" ++ name ++ "/run" ->
  plain_segment name = true ->
  store svc !! name = None ->
  ServeHTTP api order_s order_d order ctx sched t0 t1 r svc
  = (Some (mkResponse 200 (JSONBody (PayloadResult
             (mkResult name (TimeAt t0) (TimeAt t1) 0 "pipeline not found")))), svc).
Proof.
  intros Hapi Hm Hp Hn Hl.
  rewrite (serve_run_path api order_s order_d order ctx sched t0 t1 r svc name Hn Hp).
  apply plain_segment_spec in Hn as (_ & _ & _ & Hc).
  rewrite (run_endpoint_found api ctx sched t0 t1 r svc name Hm Hp Hc).
  destruct Hapi as [-> | ->]; cbn [api_Run refactored_api inline_api].
  - rewrite refactored_Run_run, refactored_launch_run, Hl. reflexivity.
  - rewrite inline_Run_run, inline_launch_run, Hl. reflexivity.
Qed.

Lemma run_endpoint_unknown_pipeline_witness :
  let svc := snd (refactored.Create nightly_sync (NewService typed.NewRegistry)) in
  let r := mkRequest "POST" "/pipelines/weekly-sync/run" (Err "EOF") in
  plain_segment "weekly-sync" = true
  /\ store svc !! "weekly-sync" = None
  /\ ServeHTTP refactored_api [] [] [] None [] 10 11 r svc
     = (Some (mkResponse 200 (JSONBody (PayloadResult
                (mkResult "weekly-sync" (TimeAt 10) (TimeAt 11) 0 "pipeline not found")))), svc).
Proof.
  intros svc r. split; [reflexivity|]. split; [reflexivity|].
  apply (run_endpoint_unknown_pipeline refactored_api [] [] [] None [] 10 11 r svc
           "weekly-sync");
    [left; reflexivity | reflexivity | reflexivity | reflexivity | reflexivity].
Defined.

Lemma api_Create_outcome api cfg svc :
  api = refactored_api \/ api = inline_api ->
  match fst (api_Create api cfg svc) with
  | Some _ => snd (api_Create api cfg svc) = svc
  | None =>
    accepted (registry svc) cfg
    /\ snd (api_Create api cfg svc)
       = mkService (registry svc) (<[Config_Name cfg := cfg]> (store svc))
  end.
Proof.
  intros [-> | ->]; cbn [api_Create refactored_api inline_api].
  - pose proof (proj1 (create_outcome cfg svc)) as H.
    pose proof (proj1 (proj2 (create_succeeds_iff_accepted_aux cfg svc))) as Hacc.
    destruct (fst (refactored.Create cfg svc)); [exact H|].
    split; [apply Hacc; reflexivity|exact H].
  - pose proof (proj2 (create_outcome cfg svc)) as H.
    pose proof (proj1 (create_succeeds_iff_accepted_aux cfg svc)) as Hacc.
    destruct (fst (inline.Create cfg svc)); [exact H|].
    split; [apply Hacc; reflexivity|exact H].
Qed.

Lemma api_List_perm api order svc :
  api = refactored_api \/ api = inline_api ->
  iteration_order (store svc) order ->
  fst (api_List api order svc) ≡ₚ (map_to_list (store svc)).*2
  /\ snd (api_List api order svc) = svc.
Proof.
  intros [-> | ->] Hord; cbn [api_List refactored_api inline_api].
  - destruct (refactored_List_sorted svc order Hord) as (Hs & Hp & _). auto.
  - split; [apply inline_List_perm, Hord|reflexivity].
Qed.

(** X19: the handler of [/pipelines]. A POST is answered 400 with the
    error as text and the service left as it was (the body did not
    decode, or [Create] refused), or 200 with status created, and then
    the decoded definition passed every check and is stored under its
    name; a GET afterwards lists it. A GET answers 200 with the stored
    definitions, each once, and changes nothing. Any other method gets
    405. With either copy of the service. *)
Theorem pipelines_endpoint api order r svc :
  api = refactored_api \/ api = inline_api ->
  let resp := fst (handlePipelines api order r svc) in
  let svc' := snd (handlePipelines api order r svc) in
  (Request_Method r = "POST" ->
     (Response_Status resp = 400 /\ (exists msg, Response_Body resp = ErrorText msg)
      /\ svc' = svc)
     \/ (resp = mkResponse 200 (JSONBody PayloadCreated)
         /\ exists cfg,
              Request_Body r = Ok cfg
              /\ accepted (registry svc) cfg
              /\ svc' = mkService (registry svc) (<[Config_Name cfg := cfg]> (store svc))
              /\ forall order' r',
                   Request_Method r' = "GET" -> iteration_order (store svc') order' ->
                   exists l,
                     handlePipelines api order' r' svc'
                     = (mkResponse 200 (JSONBody (PayloadPipelines l)), svc')
                     /\ cfg ∈ l))
  /\ (Request_Method r = "GET" -> iteration_order (store svc) order ->
      exists l, resp = mkResponse 200 (JSONBody (PayloadPipelines l))
                /\ l ≡ₚ (map_to_list (store svc)).*2 /\ svc' = svc)
  /\ (Request_Method r <> "GET" -> Request_Method r <> "POST" ->
      resp = mkResponse 405 NoBody /\ svc' = svc).
Proof.
  intros Hapi resp svc'.
  assert (Hget : forall order0 r0 svc0,
            Request_Method r0 = "GET" -> iteration_order (store svc0) order0 ->
            handlePipelines api order0 r0 svc0
            = (mkResponse 200 (JSONBody (PayloadPipelines (fst (api_List api order0 svc0)))),
               svc0)
            /\ fst (api_List api order0 svc0) ≡ₚ (map_to_list (store svc0)).*2).
  { intros order0 r0 svc0 Hm Hord.
    destruct (api_List_perm api order0 svc0 Hapi Hord) as [Hp Hs].
    split; [|exact Hp].
    unfold handlePipelines. rewrite Hm.
    change ("GET" =? "GET")%string with true. cbv iota.
    unfold bind, ret.
    destruct (api_List api order0 svc0) as [l s0]. cbn in *. subst s0. reflexivity. }
  split; [|split].
  - intros Hm. subst resp svc'. unfold handlePipelines. rewrite Hm.
    change ("POST" =? "GET")%string with false.
    change ("POST" =? "POST")%string with true. cbv iota.
    destruct (Request_Body r) as [cfg|msg] eqn:Hbody.
    2: { left. cbn. eauto. }
    unfold bind, ret.
    pose proof (api_Create_outcome api cfg svc Hapi) as Hc.
    destruct (api_Create api cfg svc) as [[msg|] s1]; cbn in Hc |- *.
    + left. subst s1. eauto.
    + right. destruct Hc as [Hacc ->]. split; [reflexivity|].
      exists cfg. split; [reflexivity|]. split; [exact Hacc|]. split; [reflexivity|].
      intros order' r' Hm' Hord'.
      destruct (Hget order' r' _ Hm' Hord') as [Hh Hp].
      eexists. split; [exact Hh|].
      rewrite Hp. apply list_elem_of_fmap.
      exists (Config_Name cfg, cfg). split; [reflexivity|].
      apply elem_of_map_to_list. cbn [store]. apply lookup_insert_eq.
  - intros Hm Hord. subst resp svc'.
    destruct (Hget order r svc Hm Hord) as [Hh Hp].
    rewrite Hh. cbn [fst snd]. eauto.
  - intros Hg Hp. subst resp svc'. unfold handlePipelines.
    destruct (String.eqb_spec (Request_Method r) "GET"); [contradiction|].
    destruct (String.eqb_spec (Request_Method r) "POST"); [contradiction|].
    split; reflexivity.
Qed.

Lemma pipelines_endpoint_witness :
  let svc := NewService simple.NewRegistry in
  let post := mkRequest "POST" "/pipelines" (Ok nightly_sync) in
  handlePipelines inline_api [] post svc
  = (mkResponse 200 (JSONBody PayloadCreated),
     mkService simple.NewRegistry {["nightly-sync" := nightly_sync]})
  /\ accepted simple.NewRegistry nightly_sync.
Proof.
  intros svc post. split; [reflexivity|].
  destruct (proj1 (pipelines_endpoint inline_api [] post svc (or_intror eq_refl)) eq_refl)
    as [(H400 & _)|(_ & cfg & Hbody & Hacc & _)].
  - vm_compute in H400. discriminate H400.
  - injection Hbody as <-. exact Hacc.
Defined.

(** ** The name check *)

Lemma space_rune_len_ascii c rest :
  ascii_space c = true -> space_rune_len (String c rest) = 1%nat.
Proof. unfold ascii_space, space_rune_len. intros ->. reflexivity. Qed.

Lemma space_rune_len_cases c rest k :
  space_rune_len (String c rest) = S k ->
  (k = 0%nat /\ ascii_space c = true)
  \/ (visible_ascii c = false /\ high_prefix k rest = true).
Proof.
  unfold space_rune_len, visible_ascii.
  fold (ascii_space c). destruct (ascii_space c) eqn:Hsp.
  { intros [= <-]. left. auto. }
  intros H. right.
  assert (Hhigh : forall (x : ascii) b, (128 <= b)%N -> byte_is x b = true -> high_byte x = true).
  { unfold byte_is, high_byte. intros x b Hb Hx. apply N.eqb_eq in Hx. apply N.leb_le. lia. }
  assert (Hin : forall (x : ascii) lo hi, (128 <= lo)%N -> byte_in x lo hi = true ->
                                          high_byte x = true).
  { unfold byte_in, high_byte. intros x lo hi Hb Hx.
    apply andb_true_iff in Hx as [Hx _]. apply N.leb_le in Hx. apply N.leb_le. lia. }
  assert (Hlow : forall b, (128 <= b)%N -> byte_is c b = true ->
                           (N_of_ascii c <? 128)%N && negb false = false).
  { unfold byte_is. intros b Hb Hx. apply N.eqb_eq in Hx.
    rewrite andb_true_r. apply N.ltb_ge. lia. }
  destruct rest as [|c1 rest1]; [discriminate|].
  destruct (byte_is c 194 && (byte_is c1 133 || byte_is c1 160)) eqn:H2.
  { injection H as <-. apply andb_true_iff in H2 as [H0 H1].
    split; [apply (Hlow 194%N); [lia|exact H0]|].
    cbn. rewrite andb_true_r.
    apply orb_true_iff in H1 as [H1|H1]; eapply Hhigh; try exact H1; lia. }
  destruct rest1 as [|c2 rest2]; [discriminate|].
  repeat match type of H with
  | (if ?b then _ else _) = _ => destruct b eqn:?
  end; try discriminate; injection H as <-;
  repeat match goal with
  | E : _ && _ = true |- _ => apply andb_true_iff in E as [? ?]
  end;
  (split; [eapply Hlow; [|eassumption]; lia|]);
  cbn; rewrite andb_true_r; apply andb_true_iff; split;
  try (eapply Hhigh; [|eassumption]; lia).
  repeat match goal with
  | E : _ || _ = true |- _ => apply orb_true_iff in E as [E|E]
  end;
  first [eapply Hhigh; [|eassumption]; lia | eapply Hin; [|eassumption]; lia].
Qed.

Lemma trim_left_spaces s : all_bytes ascii_space s = true -> trim_left 0 s = "".
Proof.
  induction s as [|c rest IH]; [reflexivity|].
  cbn [all_bytes]. intros H. apply andb_true_iff in H as [Hc Hrest].
  cbn [trim_left]. rewrite (space_rune_len_ascii c rest Hc). apply IH, Hrest.
Qed.

Lemma high_not_visible c : high_byte c = true -> visible_ascii c = false.
Proof.
  unfold high_byte, visible_ascii. intros H. apply N.leb_le in H.
  apply andb_false_iff. left. apply N.ltb_ge. exact H.
Qed.

Lemma space_not_visible c : ascii_space c = true -> visible_ascii c = false.
Proof. unfold visible_ascii. intros ->. apply andb_false_r. Qed.

Lemma all_space_visible s : forall k,
  high_prefix k s = true -> some_byte visible_ascii s = true -> all_space k s = false.
Proof.
  induction s as [|c rest IH]; intros k Hk Hv; [discriminate|].
  cbn [some_byte] in Hv. cbn [all_space].
  destruct k as [|k].
  - destruct (space_rune_len (String c rest)) as [|j] eqn:Hlen; [reflexivity|].
    apply space_rune_len_cases in Hlen as [[-> Hsp]|[Hnv Hp]].
    + rewrite (space_not_visible c Hsp) in Hv. apply IH; [reflexivity|exact Hv].
    + rewrite Hnv in Hv. apply IH; [exact Hp|exact Hv].
  - cbn [high_prefix] in Hk. apply andb_true_iff in Hk as [Hc Hk].
    rewrite (high_not_visible c Hc) in Hv. apply IH; [exact Hk|exact Hv].
Qed.

Lemma trim_left_visible s : forall k,
  high_prefix k s = true -> some_byte visible_ascii s = true ->
  some_byte visible_ascii (trim_left k s) = true.
Proof.
  induction s as [|c rest IH]; intros k Hk Hv; [discriminate|].
  cbn [trim_left].
  destruct k as [|k].
  - destruct (space_rune_len (String c rest)) as [|j] eqn:Hlen; [exact Hv|].
    cbn [some_byte] in Hv.
    apply space_rune_len_cases in Hlen as [[-> Hsp]|[Hnv Hp]].
    + rewrite (space_not_visible c Hsp) in Hv. apply IH; [reflexivity|exact Hv].
    + rewrite Hnv in Hv. apply IH; [exact Hp|exact Hv].
  - cbn [some_byte] in Hv. cbn [high_prefix] in Hk. apply andb_true_iff in Hk as [Hc Hk].
    rewrite (high_not_visible c Hc) in Hv. apply IH; [exact Hk|exact Hv].
Qed.

Lemma trim_right_visible s : some_byte visible_ascii s = true -> trim_right s <> "".
Proof.
  destruct s as [|c rest]; [discriminate|].
  intros Hv. cbn [trim_right].
  rewrite (all_space_visible (String c rest) 0 eq_refl Hv). discriminate.
Qed.

(** X20: which names pass [validatePipelineName]. A name made of ASCII
    white space only (the empty name too) is refused with "pipeline name
    is required", and [Create] then returns that error and leaves the
    service as it was; a name with at least one ASCII byte that is not
    white space passes, wherever in the name it stands. *)
Theorem pipeline_name_check name :
  (all_bytes ascii_space name = true ->
   refactored.validatePipelineName name = Some "pipeline name is required"
   /\ forall cfg svc, Config_Name cfg = name ->
        refactored.Create cfg svc = (Some "pipeline name is required", svc))
  /\ (some_byte visible_ascii name = true ->
      refactored.validatePipelineName name = None).
Proof.
  unfold refactored.validatePipelineName, strings_TrimSpace. split.
  - intros H. rewrite (trim_left_spaces name H). split; [reflexivity|].
    intros cfg svc Hn. apply refactored_create_rejects_blank.
    unfold strings_TrimSpace. rewrite Hn, (trim_left_spaces name H). reflexivity.
  - intros H.
    pose proof (trim_right_visible _ (trim_left_visible name 0 eq_refl H)) as Hne.
    destruct (String.eqb_spec (trim_right (trim_left 0 name)) ""); [contradiction|reflexivity].
Qed.
